(** * Basket analysis: product graph, traversals and frequent-itemset mining

    A shallow embedding of [basket_analysis/graph.py],
    [basket_analysis/algorithms.py] and [basket_analysis/mining.py], and of
    the callers in [basket_analysis/recommender.py] and
    [basket_analysis/transaction_loader.py].

    Python values are modelled as follows.
    - [str] is [string]; [int] is [Z] (weights) or [nat] (counts, lengths).
    - [dict] is an insertion-ordered association list ([pydict]): iteration
      order of a Python dict is insertion order, and the traversals below
      depend on it.
    - [set] and [frozenset] are [gset string].
    - [float] in the miner's constructor is IEEE 754 binary64, as the
      standard library specifies it ([SpecFloat]): the product
      [min_support * num_transactions] is rounded as the machine rounds it.
    - [/] on counts is modelled on exact rationals [Q]; a zero divisor
      raises [ZeroDivisionError] as in Python. *)

From Stdlib Require Import ZArith QArith Qround.
From Stdlib Require SpecFloat.
From stdpp Require Import gmap strings list sorting.

Local Open Scope Z_scope.
Local Open Scope nat_scope.

(** ** Python dictionaries *)

Section pydict.
Context {K V : Type} `{EqDecision K}.

(** [d.get(k)] / [d[k]] for a key that may be absent. *)
Fixpoint dict_get (k : K) (d : list (K * V)) : option V :=
  match d with
  | [] => None
  | (k', v) :: d' => if decide (k' = k) then Some v else dict_get k d'
  end.

(** [d[k] = v]: an existing key keeps its position, a new key goes last. *)
Fixpoint dict_set (k : K) (v : V) (d : list (K * V)) : list (K * V) :=
  match d with
  | [] => [(k, v)]
  | (k', v') :: d' =>
      if decide (k' = k) then (k', v) :: d' else (k', v') :: dict_set k v d'
  end.

(** [del d[k]]; every use in the source is guarded by [k in d]. *)
Definition dict_del (k : K) (d : list (K * V)) : list (K * V) :=
  filter (λ p, p.1 ≠ k) d.

Definition dict_keys (d : list (K * V)) : list K := d.*1.

(** [k in d] *)
Definition dict_mem (k : K) (d : list (K * V)) : bool :=
  bool_decide (is_Some (dict_get k d)).

End pydict.

(** ** [graph.py]: the product graph *)

(** [self.graph] is a [defaultdict(dict)] from item to a dict from neighbour
    to weight; [self.nodes] is a set of items. *)
Record ProductGraph := {
  graph : list (string * list (string * Z));
  nodes : gset string
}.

(** [ProductGraph()] *)
Definition empty_graph : ProductGraph := {| graph := []; nodes := ∅ |}.

(** [self.graph[item]] on the [defaultdict]: a missing key is first bound to
    an empty dict. Returns the value and the resulting outer dict. *)
Definition dd_getitem (item : string) (gr : list (string * list (string * Z)))
  : list (string * Z) * list (string * list (string * Z)) :=
  match dict_get item gr with
  | Some d => (d, gr)
  | None => ([], dict_set item [] gr)
  end.

Definition add_node (g : ProductGraph) (item : string) : ProductGraph :=
  if decide (item ∈ nodes g) then g
  else {| nodes := {[item]} ∪ nodes g;
          graph := if dict_mem item (graph g) then graph g
                   else dict_set item [] (graph g) |}.

(** One direction of [add_edge]:
    [if b in self.graph[a]: self.graph[a][b] += weight
     else: self.graph[a][b] = weight]. *)
Definition add_half_edge (gr : list (string * list (string * Z)))
    (a b : string) (weight : Z) : list (string * list (string * Z)) :=
  let '(d, gr0) := dd_getitem a gr in
  match dict_get b d with
  | Some w => dict_set a (dict_set b (w + weight)%Z d) gr0
  | None => dict_set a (dict_set b weight d) gr0
  end.

Definition add_edge (g : ProductGraph) (item1 item2 : string) (weight : Z)
  : ProductGraph :=
  let g1 := add_node g item1 in
  let g2 := add_node g1 item2 in
  {| nodes := nodes g2;
     graph := add_half_edge (add_half_edge (graph g2) item1 item2 weight)
                            item2 item1 weight |}.

Definition get_neighbors (g : ProductGraph) (item : string)
  : list (string * Z) :=
  match dict_get item (graph g) with
  | Some d => d
  | None => []
  end.

Definition get_edge_weight (g : ProductGraph) (item1 item2 : string) : Z :=
  match dict_get item1 (graph g) with
  | Some d => match dict_get item2 d with Some w => w | None => 0%Z end
  | None => 0%Z
  end.

Definition get_all_nodes (g : ProductGraph) : gset string := nodes g.

Definition get_node_count (g : ProductGraph) : nat := size (nodes g).

(** [for node in self.graph: edge_count += len(self.graph[node])], then
    [edge_count // 2]. *)
Definition get_edge_count (g : ProductGraph) : nat :=
  foldl (λ edge_count node, edge_count + length (get_neighbors g node)) 0
        (dict_keys (graph g)) `div` 2.

Definition get_degree (g : ProductGraph) (item : string) : nat :=
  match dict_get item (graph g) with
  | Some d => length d
  | None => 0
  end.

(** The loop of [remove_node] over [list(self.graph[item].keys())]. *)
Definition remove_back_edge (item : string)
    (gr : list (string * list (string * Z))) (neighbor : string)
  : list (string * list (string * Z)) :=
  match dict_get neighbor gr with
  | Some dn =>
      if dict_mem item dn then dict_set neighbor (dict_del item dn) gr else gr
  | None => gr
  end.

Definition remove_node (g : ProductGraph) (item : string) : ProductGraph :=
  if decide (item ∈ nodes g) then
    let '(d, gr0) := dd_getitem item (graph g) in
    let gr1 := foldl (remove_back_edge item) gr0 (dict_keys d) in
    {| graph := dict_del item gr1; nodes := nodes g ∖ {[item]} |}
  else g.

(** Graphs built through the public interface. *)
Inductive graph_op :=
  | OpAddNode (item : string)
  | OpAddEdge (item1 item2 : string) (weight : Z)
  | OpRemoveNode (item : string).

Definition apply_op (g : ProductGraph) (op : graph_op) : ProductGraph :=
  match op with
  | OpAddNode item => add_node g item
  | OpAddEdge item1 item2 weight => add_edge g item1 item2 weight
  | OpRemoveNode item => remove_node g item
  end.

Definition run_ops (ops : list graph_op) : ProductGraph :=
  foldl apply_op empty_graph ops.

Definition reachable_graph (g : ProductGraph) : Prop :=
  ∃ ops, g = run_ops ops.

(** ** Exceptions and numbers *)

Inductive py_error := ZeroDivisionError | ValueError | OverflowError.

Inductive result (A : Type) :=
  | Ok (a : A)
  | Raise (e : py_error).
Arguments Ok {A} a.
Arguments Raise {A} e.

#[export] Instance result_ret : MRet result := λ A a, Ok a.
#[export] Instance result_bind : MBind result := λ A B f r,
  match r with
  | Ok a => f a
  | Raise e => Raise e
  end.

Definition Q_of_nat (n : nat) : Q := inject_Z (Z.of_nat n).

(** [a / b] on numbers: true division, raising on a zero divisor. *)
Definition py_div (a b : Q) : result Q :=
  if Qeq_bool b 0 then Raise ZeroDivisionError else Ok (a / b)%Q.

(** Python's [float] is IEEE 754 binary64: 53 bits of precision, rounding to
    nearest, ties to even. [S754_finite s m e] is the float
    [(-1)^s * m * 2^e]. *)
Definition float : Type := SpecFloat.spec_float.

(** The float [m * 2^e] and the float [0.0], for writing down inputs. *)
Definition float_lit (m : positive) (e : Z) : float :=
  SpecFloat.S754_finite false m e.

Definition float_zero : float := SpecFloat.S754_zero false.

(** [x * y] on floats. *)
Definition float_mul (x y : float) : float := SpecFloat.SFmul 53 1024 x y.

(** The conversion of an [int] operand of a float operation: the nearest
    float, and [OverflowError] when the integer is beyond the float range. *)
Definition int_to_float (n : Z) : result float :=
  match SpecFloat.binary_normalize 53 1024 n 0 false with
  | SpecFloat.S754_zero s => Ok (SpecFloat.S754_zero s)
  | SpecFloat.S754_finite s m e => Ok (SpecFloat.S754_finite s m e)
  | _ => Raise OverflowError
  end.

(** [int(x)] on a float: truncation towards zero; [ValueError] on a NaN and
    [OverflowError] on an infinity. *)
Definition py_int (x : float) : result Z :=
  match x with
  | SpecFloat.S754_zero _ => Ok 0%Z
  | SpecFloat.S754_finite s m e =>
      let magnitude := Z.shiftl (Z.pos m) e in
      Ok (if s then (- magnitude)%Z else magnitude)
  | SpecFloat.S754_infinity _ => Raise OverflowError
  | SpecFloat.S754_nan => Raise ValueError
  end.

(** The number a float stands for; none for a NaN or an infinity. *)
Definition float_value (x : float) : option Q :=
  match x with
  | SpecFloat.S754_zero _ => Some 0%Q
  | SpecFloat.S754_finite s m e =>
      let n := if s then Z.neg m else Z.pos m in
      Some match e with
           | Z.neg p => n # (2 ^ p)
           | _ => inject_Z (n * 2 ^ e)
           end
  | _ => None
  end.

(** [min(l)] on a non-empty list (0 stands for the unreachable empty case). *)
Definition py_min (l : list nat) : nat :=
  match l with
  | [] => 0
  | x :: l' => foldl Nat.min x l'
  end.

(** Python's sorts are stable. [stable_sort before l] sorts [l] so that
    [before x y] holds along the result, where [before] is a total preorder
    test; an element is placed in front of the first later element it may
    precede, which keeps equal elements in their original order. *)
Fixpoint stable_insert {A} (before : A → A → bool) (x : A) (l : list A)
  : list A :=
  match l with
  | [] => [x]
  | y :: l' =>
      if before x y then x :: y :: l' else y :: stable_insert before x l'
  end.

Definition stable_sort {A} (before : A → A → bool) (l : list A) : list A :=
  foldr (stable_insert before) [] l.

(** [get_graph_info]: the returned dict, with numbers as rationals. *)
Definition get_graph_info (g : ProductGraph) : result (list (string * Q)) :=
  if bool_decide (size (nodes g) = 0) then
    Ok [("num_nodes"%string, 0%Q); ("num_edges"%string, 0%Q);
        ("avg_degree"%string, 0%Q); ("max_degree"%string, 0%Q);
        ("min_degree"%string, 0%Q)]
  else
    let degrees := get_degree g <$> elements (nodes g) in
    let n := size (nodes g) in
    avg_degree ←
      (if bool_decide (degrees ≠ [])
       then py_div (Q_of_nat (sum_list degrees)) (Q_of_nat (length degrees))
       else Ok 0%Q);
    density ←
      (if bool_decide (1 < n)
       then py_div (Q_of_nat (2 * get_edge_count g)) (Q_of_nat (n * (n - 1)))
       else Ok 0%Q);
    Ok [("num_nodes"%string, Q_of_nat n);
        ("num_edges"%string, Q_of_nat (get_edge_count g));
        ("avg_degree"%string, avg_degree);
        ("max_degree"%string,
          Q_of_nat (if bool_decide (degrees ≠ []) then max_list degrees else 0));
        ("min_degree"%string,
          Q_of_nat (if bool_decide (degrees ≠ []) then py_min degrees else 0));
        ("density"%string, density)].

(** ** [algorithms.py]: traversals *)

(** The [while queue:] loops are run with a step budget; [OutOfFuel] is the
    budget running out, which the theorems below show never happens for the
    budget [loop_fuel]. *)
Inductive outcome (A : Type) :=
  | Done (a : A)
  | OutOfFuel.
Arguments Done {A} a.
Arguments OutOfFuel {A}.

Fixpoint adjacency_size (gr : list (string * list (string * Z))) : nat :=
  match gr with
  | [] => 0
  | (_, d) :: gr' => length d + adjacency_size gr'
  end.

Definition loop_fuel (g : ProductGraph) : nat := 2 + adjacency_size (graph g).

(** [if max_depth is not None and depth > max_depth] *)
Definition depth_exceeded (max_depth : option Z) (depth : Z) : bool :=
  match max_depth with
  | Some m => bool_decide (m < depth)%Z
  | None => false
  end.

Fixpoint bfs_loop (g : ProductGraph) (max_depth : option Z) (fuel : nat)
    (visited : gset string) (queue : list (string * Z)) (result : list string)
  : outcome (list string) :=
  match fuel with
  | 0 => OutOfFuel
  | S fuel' =>
      match queue with
      | [] => Done result
      | (current_item, depth) :: queue' =>
          if decide (current_item ∈ visited) then
            bfs_loop g max_depth fuel' visited queue' result
          else if depth_exceeded max_depth depth then
            bfs_loop g max_depth fuel' visited queue' result
          else
            let visited' := {[current_item]} ∪ visited in
            let neighbors := dict_keys (get_neighbors g current_item) in
            bfs_loop g max_depth fuel' visited'
              (queue' ++ ((λ neighbor, (neighbor, (depth + 1)%Z)) <$>
                           filter (λ neighbor, neighbor ∉ visited') neighbors))
              (result ++ [current_item])
      end
  end.

Definition bfs (g : ProductGraph) (start_item : string) (max_depth : option Z)
  : outcome (list string) :=
  if decide (start_item ∈ get_all_nodes g) then
    bfs_loop g max_depth (loop_fuel g) ∅ [(start_item, 0%Z)] []
  else Done [].

Fixpoint find_path_loop (g : ProductGraph) (end_item : string) (fuel : nat)
    (visited : gset string) (queue : list (string * list string))
  : outcome (option (list string)) :=
  match fuel with
  | 0 => OutOfFuel
  | S fuel' =>
      match queue with
      | [] => Done None
      | (current_item, path) :: queue' =>
          if decide (current_item = end_item) then Done (Some path)
          else if decide (current_item ∈ visited) then
            find_path_loop g end_item fuel' visited queue'
          else
            let visited' := {[current_item]} ∪ visited in
            let neighbors := dict_keys (get_neighbors g current_item) in
            find_path_loop g end_item fuel' visited'
              (queue' ++ ((λ neighbor, (neighbor, path ++ [neighbor])) <$>
                           filter (λ neighbor, neighbor ∉ visited') neighbors))
      end
  end.

(** [None] is Python's [None]: no path. *)
Definition find_path (g : ProductGraph) (start_item end_item : string)
  : outcome (option (list string)) :=
  if decide (start_item ∈ get_all_nodes g) then
    if decide (end_item ∈ get_all_nodes g) then
      find_path_loop g end_item (loop_fuel g) ∅ [(start_item, [start_item])]
    else Done None
  else Done None.

Definition is_connected (g : ProductGraph) (item1 item2 : string)
  : outcome bool :=
  match find_path g item1 item2 with
  | Done path => Done (bool_decide (path ≠ None))
  | OutOfFuel => OutOfFuel
  end.

(** A walk in the graph: consecutive items are joined by an adjacency entry. *)
Definition has_edge (g : ProductGraph) (item1 item2 : string) : Prop :=
  item2 ∈ dict_keys (get_neighbors g item1).

Inductive is_walk (g : ProductGraph) : string → list string → string → Prop :=
  | walk_here a : is_walk g a [a] a
  | walk_step a y p b :
      has_edge g a y → is_walk g y p b → is_walk g a (a :: p) b.

(** Number of edges of a path given as its list of items. *)
Definition path_edges (p : list string) : nat := length p - 1.

(** ** [mining.py]: frequent itemsets and association rules *)

Record FrequentItemsetMiner := {
  transactions : list (list string);
  min_support : float;
  num_transactions : nat;
  min_support_count : Z
}.

(** [FrequentItemsetMiner(transactions, min_support)]: the constructor
    raises when [int(...)] does. *)
Definition new_miner (transactions : list (list string)) (min_support : float)
  : result FrequentItemsetMiner :=
  let num_transactions := length transactions in
  n ← int_to_float (Z.of_nat num_transactions);
  count ← py_int (float_mul min_support n);
  Ok {| transactions := transactions;
        min_support := min_support;
        num_transactions := num_transactions;
        min_support_count :=
          if bool_decide (count < 1)%Z then 1%Z else count |}.

(** [d[k] += 1] on a [defaultdict(int)] *)
Definition dict_incr {K} `{EqDecision K} (k : K) (d : list (K * nat))
  : list (K * nat) :=
  dict_set k (default 0 (dict_get k d) + 1) d.

(** [sorted(transaction)]: strings in ascending order. *)
Definition py_sorted (l : list string) : list string :=
  stable_sort String.leb l.

(** [itertools.combinations(l, k)]: the [k]-element subsequences of [l], in
    lexicographic order of positions. *)
Fixpoint combinations {A} (l : list A) (k : nat) : list (list A) :=
  match l with
  | [] => match k with 0 => [[]] | S _ => [] end
  | x :: l' =>
      match k with
      | 0 => [[]]
      | S k' => (cons x <$> combinations l' k') ++ combinations l' k
      end
  end.

(** [count >= self.min_support_count] *)
Definition is_frequent {K} (m : FrequentItemsetMiner) (entry : K * nat)
  : bool :=
  bool_decide (min_support_count m ≤ Z.of_nat entry.2)%Z.

Definition item_counts (ts : list (list string)) : list (gset string * nat) :=
  foldl (λ counts transaction,
           foldl (λ counts item, dict_incr {[item]} counts) counts transaction)
        [] ts.

Definition find_frequent_1_itemsets (m : FrequentItemsetMiner)
  : list (gset string * nat) :=
  filter (λ entry, is_frequent m entry) (item_counts (transactions m)).

Definition pair_counts (ts : list (list string))
  : list ((string * string) * nat) :=
  foldl (λ counts transaction,
           if bool_decide (2 ≤ length transaction) then
             foldl (λ counts c,
                      match c with
                      | [item1; item2] => dict_incr (item1, item2) counts
                      | _ => counts
                      end)
                   counts (combinations (py_sorted transaction) 2)
           else counts)
        [] ts.

Definition find_frequent_pairs (m : FrequentItemsetMiner)
  : list ((string * string) * nat) :=
  stable_sort (λ x y, bool_decide (y.2 ≤ x.2))
    (filter (λ entry, is_frequent m entry) (pair_counts (transactions m))).

Definition itemset_counts (ts : list (list string)) (k : nat)
  : list (gset string * nat) :=
  foldl (λ counts transaction,
           if bool_decide (k ≤ length transaction) then
             foldl (λ counts itemset, dict_incr (list_to_set itemset) counts)
                   counts (combinations (py_sorted transaction) k)
           else counts)
        [] ts.

Definition find_frequent_k_itemsets (m : FrequentItemsetMiner) (k : nat)
  : list (gset string * nat) :=
  if bool_decide (k < 1) then []
  else filter (λ entry, is_frequent m entry) (itemset_counts (transactions m) k).

Record rule := {
  antecedent : string;
  consequent : string;
  support : Q;
  confidence : Q;
  lift : Q
}.

(** [frequent_1_items.get(frozenset([item]), 0)] *)
Definition item_count_of (frequent_1_items : list (gset string * nat))
    (item : string) : nat :=
  default 0 (dict_get {[item]} frequent_1_items).

(** One direction of a pair in [get_association_rules]: the rule
    [ante -> cons], where [other_count] is the second factor of the lift
    denominator as the source computes it for this direction. *)
Definition rule_direction (m : FrequentItemsetMiner) (min_confidence : Q)
    (ante cons : string) (pair_count ante_count other_count : nat)
    (rules : list rule) : result (list rule) :=
  if bool_decide (0 < ante_count) then
    conf ← py_div (Q_of_nat pair_count) (Q_of_nat ante_count);
    if Qle_bool min_confidence conf then
      let n := Q_of_nat (num_transactions m) in
      sup ← py_div (Q_of_nat pair_count) n;
      p_ante ← py_div (Q_of_nat ante_count) n;
      p_other ← py_div (Q_of_nat other_count) n;
      lft ← py_div sup (p_ante * p_other)%Q;
      Ok (rules ++ [{| antecedent := ante; consequent := cons;
                       support := sup; confidence := conf; lift := lft |}])
    else Ok rules
  else Ok rules.

Fixpoint rules_loop (m : FrequentItemsetMiner) (min_confidence : Q)
    (frequent_1_items : list (gset string * nat))
    (frequent_pairs : list ((string * string) * nat)) (rules : list rule)
  : result (list rule) :=
  match frequent_pairs with
  | [] => Ok rules
  | ((item1, item2), pair_count) :: rest =>
      let item1_count := item_count_of frequent_1_items item1 in
      rules1 ← rule_direction m min_confidence item1 item2 pair_count
                  item1_count (item_count_of frequent_1_items item2) rules;
      let item2_count := item_count_of frequent_1_items item2 in
      rules2 ← rule_direction m min_confidence item2 item1 pair_count
                  item2_count item1_count rules1;
      rules_loop m min_confidence frequent_1_items rest rules2
  end.

Definition get_association_rules (m : FrequentItemsetMiner)
    (min_confidence : Q) : result (list rule) :=
  let frequent_pairs := find_frequent_pairs m in
  let frequent_1_items := find_frequent_1_itemsets m in
  rules ← rules_loop m min_confidence frequent_1_items frequent_pairs [];
  Ok (stable_sort (λ x y, Qle_bool (confidence y) (confidence x)) rules).

(** * Properties *)

(** ** Dictionary facts *)

Section pydict_facts.
Context {K V : Type} `{EqDecision K}.
Implicit Types (k : K) (v : V) (d : list (K * V)).

Lemma dict_get_set k v d k' :
  dict_get k' (dict_set k v d) =
  if decide (k = k') then Some v else dict_get k' d.
Proof.
  induction d as [|[k0 v0] d IH]; simpl.
  - repeat case_decide; congruence.
  - destruct (decide (k0 = k)) as [->|Hne]; simpl.
    + repeat case_decide; congruence.
    + rewrite IH. repeat case_decide; congruence.
Qed.

Lemma dict_get_set_eq k v d : dict_get k (dict_set k v d) = Some v.
Proof. rewrite dict_get_set. by rewrite decide_True. Qed.

Lemma dict_get_set_ne k v d k' :
  k ≠ k' → dict_get k' (dict_set k v d) = dict_get k' d.
Proof. intros. rewrite dict_get_set. by rewrite decide_False. Qed.

Lemma dict_get_del k d k' :
  dict_get k' (dict_del k d) =
  if decide (k = k') then None else dict_get k' d.
Proof.
  unfold dict_del. induction d as [|[k0 v0] d IH]; simpl.
  - by case_decide.
  - rewrite filter_cons. simpl. destruct (decide (k0 ≠ k)) as [Hne|Heq]; simpl.
    + rewrite IH. repeat case_decide; congruence.
    + apply dec_stable in Heq. subst k0. rewrite IH.
      repeat case_decide; congruence.
Qed.

Lemma dict_get_Some_elem k v d : dict_get k d = Some v → (k, v) ∈ d.
Proof.
  induction d as [|[k0 v0] d IH]; simpl; [done|].
  case_decide; intros.
  - simplify_eq. left.
  - right. auto.
Qed.

Lemma dict_keys_get k d : k ∈ dict_keys d ↔ is_Some (dict_get k d).
Proof.
  unfold dict_keys. induction d as [|[k0 v0] d IH]; simpl.
  - split; [by intros ?%elem_of_nil | by intros [? ?]].
  - rewrite elem_of_cons, IH. case_decide; subst.
    + split; eauto.
    + split; [intros [?|?]; congruence || done | auto].
Qed.

Lemma dict_get_None_keys k d : dict_get k d = None ↔ k ∉ dict_keys d.
Proof. rewrite dict_keys_get, eq_None_not_Some. done. Qed.
Lemma dict_mem_true k d : dict_mem k d = true ↔ is_Some (dict_get k d).
Proof. unfold dict_mem. by rewrite bool_decide_eq_true. Qed.

Lemma dict_mem_false k d : dict_mem k d = false ↔ dict_get k d = None.
Proof.
  unfold dict_mem. rewrite bool_decide_eq_false. by rewrite eq_None_not_Some.
Qed.

End pydict_facts.

(** ** The graph: edge weights *)

(** The two-level lookup [self.graph[a][b]], when both keys are present. *)
Definition lookup2 (gr : list (string * list (string * Z))) (a b : string)
  : option Z :=
  dict_get a gr ≫= dict_get b.

Lemma get_edge_weight_lookup2 g a b :
  get_edge_weight g a b = default 0%Z (lookup2 (graph g) a b).
Proof.
  unfold get_edge_weight, lookup2.
  destruct (dict_get a (graph g)) as [d|]; simpl; [|done].
  by destruct (dict_get b d).
Qed.

Lemma add_node_graph_get g item x :
  dict_get x (graph (add_node g item)) =
  match dict_get x (graph g) with
  | Some d => Some d
  | None => if decide ((item ∉ nodes g) ∧ item = x) then Some [] else None
  end.
Proof.
  unfold add_node. destruct (decide (item ∈ nodes g)) as [Hin|Hin]; simpl.
  - destruct (dict_get x (graph g)); [done|].
    rewrite decide_False; [done|]. intros [? _]. done.
  - destruct (dict_mem item (graph g)) eqn:Hm.
    + apply dict_mem_true in Hm as [d Hd].
      destruct (dict_get x (graph g)) eqn:Hx; [done|].
      rewrite decide_False; [done|]. intros [_ ->]. congruence.
    + apply dict_mem_false in Hm. rewrite dict_get_set.
      destruct (decide (item = x)) as [->|Hne].
      * rewrite Hm. by rewrite decide_True.
      * destruct (dict_get x (graph g)); [done|].
        rewrite decide_False; [done|]. intros [_ ?]. done.
Qed.

Lemma add_node_lookup2 g item x y :
  lookup2 (graph (add_node g item)) x y = lookup2 (graph g) x y.
Proof.
  unfold lookup2. rewrite add_node_graph_get.
  destruct (dict_get x (graph g)); [done|]. by case_decide.
Qed.

Lemma add_node_nodes g item : nodes (add_node g item) = {[item]} ∪ nodes g.
Proof.
  unfold add_node. destruct (decide (item ∈ nodes g)); simpl; set_solver.
Qed.

Lemma add_node_graph_is_Some g item x :
  is_Some (dict_get x (graph (add_node g item))) ↔
  ((item ∉ nodes g) ∧ item = x) ∨ is_Some (dict_get x (graph g)).
Proof.
  rewrite add_node_graph_get. destruct (dict_get x (graph g)) as [d|].
  - split; eauto.
  - case_decide.
    + split; eauto.
    + split; [by intros [? ?]|]. intros [?|[? ?]]; done.
Qed.

Lemma add_half_edge_get gr a b w x :
  dict_get x (add_half_edge gr a b w) =
  if decide (a = x)
  then Some (dict_set b (default 0%Z (lookup2 gr a b) + w)%Z
                      (default [] (dict_get a gr)))
  else dict_get x gr.
Proof.
  unfold add_half_edge, dd_getitem, lookup2.
  destruct (dict_get a gr) as [d|] eqn:Ha; simpl.
  - destruct (dict_get b d) as [w0|] eqn:Hb; simpl; by rewrite dict_get_set.
  - rewrite !dict_get_set. by repeat case_decide.
Qed.

Lemma add_half_edge_lookup2 gr a b w x y :
  lookup2 (add_half_edge gr a b w) x y =
  if decide (a = x ∧ b = y)
  then Some (default 0%Z (lookup2 gr a b) + w)%Z
  else lookup2 gr x y.
Proof.
  unfold lookup2 at 1. rewrite add_half_edge_get.
  destruct (decide (a = x)) as [->|Hne]; simpl.
  - rewrite dict_get_set. destruct (decide (b = y)) as [->|Hne].
    + by rewrite decide_True.
    + rewrite decide_False by naive_solver.
      unfold lookup2. by destruct (dict_get x gr).
  - by rewrite decide_False by naive_solver.
Qed.

Lemma add_half_edge_is_Some gr a b w x :
  is_Some (dict_get x (add_half_edge gr a b w)) ↔
  a = x ∨ is_Some (dict_get x gr).
Proof.
  rewrite add_half_edge_get. case_decide.
  - split; eauto.
  - split; [eauto|]. intros [?|?]; done.
Qed.

Lemma add_edge_lookup2 g a b w x y :
  lookup2 (graph (add_edge g a b w)) x y =
  let gr1 := add_half_edge (graph (add_node (add_node g a) b)) a b w in
  if decide (b = x ∧ a = y)
  then Some (default 0%Z (lookup2 gr1 b a) + w)%Z
  else lookup2 gr1 x y.
Proof. unfold add_edge; simpl. by rewrite add_half_edge_lookup2. Qed.

(** C9: a self-loop [add_edge(a, a, w)] raises the stored weight of [(a, a)]
    by [2 * w]: the single adjacency entry is incremented once for each
    direction. *)
Theorem add_edge_self_loop_doubles (g : ProductGraph) (a : string) (w : Z) :
  get_edge_weight (add_edge g a a w) a a
  = (get_edge_weight g a a + 2 * w)%Z.
Proof.
  rewrite !get_edge_weight_lookup2, add_edge_lookup2. simpl.
  rewrite decide_True by done. rewrite add_half_edge_lookup2.
  rewrite decide_True by done. simpl. rewrite !add_node_lookup2. lia.
Qed.

(** ** The graph: the invariant of the public interface *)

(** Every node has an adjacency dict and conversely, and the two directions
    of an edge are stored with the same weight. *)
Record graph_wf (g : ProductGraph) : Prop := {
  wf_nodes : ∀ a, a ∈ nodes g ↔ is_Some (dict_get a (graph g));
  wf_sym : ∀ a b, lookup2 (graph g) a b = lookup2 (graph g) b a
}.

Lemma empty_graph_wf : graph_wf empty_graph.
Proof.
  split; simpl.
  - intros a. split; [set_solver|]. by intros [? ?].
  - done.
Qed.

Lemma add_node_wf g item : graph_wf g → graph_wf (add_node g item).
Proof.
  intros [Hn Hs]. split.
  - intros a. rewrite add_node_nodes, add_node_graph_is_Some, <-Hn.
    destruct (decide (item ∈ nodes g)); set_solver.
  - intros a b. by rewrite !add_node_lookup2.
Qed.

Lemma add_edge_nodes g a b w :
  nodes (add_edge g a b w) = {[a; b]} ∪ nodes g.
Proof. unfold add_edge; simpl. rewrite !add_node_nodes. set_solver. Qed.

Lemma add_edge_wf g a b w : graph_wf g → graph_wf (add_edge g a b w).
Proof.
  intros Hg.
  pose proof (add_node_wf _ b (add_node_wf _ a Hg)) as [Hn Hs].
  split.
  - intros x. rewrite add_edge_nodes. unfold add_edge; simpl.
    rewrite !add_half_edge_is_Some, <-Hn, !add_node_nodes. set_solver.
  - intros x y. rewrite !add_edge_lookup2. simpl.
    rewrite !add_half_edge_lookup2.
    destruct (decide (x = y)) as [->|Hxy]; [done|].
    repeat case_decide; destruct_and?; simplify_eq; try done;
      try (exfalso; naive_solver).
    + by rewrite Hs.
    + by rewrite Hs.
Qed.

Lemma remove_back_edge_get item gr n x :
  is_Some (dict_get x (remove_back_edge item gr n)) ↔ is_Some (dict_get x gr).
Proof.
  unfold remove_back_edge. destruct (dict_get n gr) as [dn|] eqn:Hn; [|done].
  destruct (dict_mem item dn); [|done]. rewrite dict_get_set.
  case_decide; subst; [|done]. rewrite Hn. split; eauto.
Qed.

Lemma remove_back_edge_lookup2 item gr n x y :
  lookup2 (remove_back_edge item gr n) x y =
  if decide (x = n ∧ y = item) then None else lookup2 gr x y.
Proof.
  unfold remove_back_edge, lookup2.
  destruct (dict_get n gr) as [dn|] eqn:Hn.
  - destruct (dict_mem item dn) eqn:Hm.
    + rewrite dict_get_set. destruct (decide (n = x)) as [<-|Hne]; simpl.
      * rewrite Hn, dict_get_del. simpl.
        repeat case_decide; destruct_and?; simplify_eq; try done;
          exfalso; naive_solver.
      * by rewrite decide_False by naive_solver.
    + apply dict_mem_false in Hm. case_decide as Hd; [|done].
      destruct Hd as [-> ->]. rewrite Hn. done.
  - case_decide as Hd; [|done]. destruct Hd as [-> ->]. by rewrite Hn.
Qed.

Lemma remove_back_edges_get item ks gr x :
  is_Some (dict_get x (foldl (remove_back_edge item) gr ks)) ↔
  is_Some (dict_get x gr).
Proof.
  revert gr. induction ks as [|n ks IH]; intros gr; simpl; [done|].
  by rewrite IH, remove_back_edge_get.
Qed.

Lemma remove_back_edges_lookup2 item ks gr x y :
  lookup2 (foldl (remove_back_edge item) gr ks) x y =
  if decide (x ∈ ks ∧ y = item) then None else lookup2 gr x y.
Proof.
  revert gr. induction ks as [|n ks IH]; intros gr; cbn [foldl].
  - case_decide as Hd; [|done]. by destruct Hd as [?%elem_of_nil _].
  - rewrite IH, remove_back_edge_lookup2.
    repeat case_decide; destruct_and?; simplify_eq; try done;
      exfalso; set_solver.
Qed.

Lemma dict_del_lookup2 item (gr : list (string * list (string * Z))) x y :
  lookup2 (dict_del item gr) x y =
  if decide (item = x) then None else lookup2 gr x y.
Proof. unfold lookup2. rewrite dict_get_del. by case_decide. Qed.

Lemma remove_node_wf g item : graph_wf g → graph_wf (remove_node g item).
Proof.
  intros [Hn Hs]. unfold remove_node.
  destruct (decide (item ∈ nodes g)) as [Hin|Hin]; [|by split].
  apply Hn in Hin as [d Hd]. unfold dd_getitem. rewrite Hd. split; simpl.
  - intros a. rewrite dict_get_del. case_decide as Heq.
    + subst a. split; [set_solver|]. by intros [? ?].
    + rewrite remove_back_edges_get, <-Hn. set_solver.
  - intros a b. rewrite !dict_del_lookup2, !remove_back_edges_lookup2.
    assert (Hd' : ∀ z, z ∉ dict_keys d → lookup2 (graph g) item z = None).
    { intros z Hz. unfold lookup2. rewrite Hd. simpl.
      by apply dict_get_None_keys. }
    repeat case_decide; destruct_and?; simplify_eq; try done;
      first [ by apply Hd'; naive_solver
            | by symmetry; apply Hd'; naive_solver
            | by rewrite Hs; apply Hd'; naive_solver
            | by symmetry; rewrite Hs; apply Hd'; naive_solver ].
Qed.

Lemma apply_op_wf g op : graph_wf g → graph_wf (apply_op g op).
Proof.
  destruct op; simpl; auto using add_node_wf, add_edge_wf, remove_node_wf.
Qed.

Lemma reachable_graph_wf g : reachable_graph g → graph_wf g.
Proof.
  intros [ops ->]. unfold run_ops.
  induction ops as [|op ops IH] using rev_ind; simpl.
  - apply empty_graph_wf.
  - rewrite foldl_app. simpl. by apply apply_op_wf.
Qed.

(** C2: in every graph built from the empty graph by [add_node], [add_edge]
    and [remove_node], the two directions of an edge have the same weight. *)
Theorem edge_weight_symmetric (g : ProductGraph) (a b : string) :
  reachable_graph g → get_edge_weight g a b = get_edge_weight g b a.
Proof.
  intros [_ Hs]%reachable_graph_wf.
  by rewrite !get_edge_weight_lookup2, Hs.
Qed.

Lemma edge_weight_symmetric_witness :
  let g := run_ops [OpAddEdge "Bread" "Milk" 5; OpAddEdge "Milk" "Eggs" 4;
                    OpAddEdge "Milk" "Milk" 1; OpRemoveNode "Eggs";
                    OpAddNode "Tea"] in
  reachable_graph g ∧
  get_edge_weight g "Bread" "Milk" = get_edge_weight g "Milk" "Bread".
Proof.
  intros g. assert (Hr : reachable_graph g) by (eexists; reflexivity).
  split; [exact Hr|]. exact (edge_weight_symmetric g "Bread" "Milk" Hr).
Defined.

(** ** Numbers *)

Lemma py_int_floor x p :
  float_value x = Some p →
  ∃ c, py_int x = Ok c ∧ Z.max 1 c = Z.max 1 (Qfloor p).
Proof.
  destruct x as [s|s| |s m e]; cbn [float_value py_int]; try done.
  { intros [= <-]. by exists 0%Z. }
  intros [= <-]. eexists. split; [done|].
  assert (Hpow : ∀ q : positive, Z.pos (2 ^ q) = (2 ^ Z.pos q)%Z).
  { intros q. by rewrite Pos2Z.inj_pow. }
  destruct s.
  - assert (0 ≤ Z.shiftl (Z.pos m) e)%Z as Hnn.
    { apply Z.shiftl_nonneg. lia. }
    assert (Qfloor match e with
                   | Z.neg p => Z.neg m # 2 ^ p
                   | _ => inject_Z (Z.neg m * 2 ^ e)
                   end ≤ 0)%Z as Hneg.
    { destruct e as [|q|q].
      - rewrite Qfloor_Z. lia.
      - rewrite Qfloor_Z.
        pose proof (Z.pow_pos_nonneg 2 (Z.pos q) ltac:(lia) ltac:(lia)).
        apply Z.mul_nonpos_nonneg; lia.
      - cbn [Qfloor]. rewrite Hpow.
        pose proof (Z.pow_pos_nonneg 2 (Z.pos q) ltac:(lia) ltac:(lia)).
        apply Z.lt_le_incl, Z.div_lt_upper_bound; lia. }
    lia.
  - f_equal. destruct e as [|q|q].
    + rewrite Qfloor_Z, Z.shiftl_mul_pow2 by lia. done.
    + rewrite Qfloor_Z, Z.shiftl_mul_pow2 by lia. done.
    + cbn [Qfloor]. rewrite Hpow.
      change (Z.neg q) with (- Z.pos q)%Z.
      rewrite Z.shiftl_opp_r, Z.shiftr_div_pow2 by lia. done.
Qed.

Lemma py_int_value x c : py_int x = Ok c → is_Some (float_value x).
Proof. destruct x; cbn; try done; by eexists. Qed.

(** An integer below [2^53] converts to a float without rounding. *)
Lemma digits2_pos_iter (m k : positive) :
  SpecFloat.digits2_pos (Pos.iter xO m k) = (SpecFloat.digits2_pos m + k)%positive.
Proof.
  induction k as [|k IH] using Pos.peano_ind.
  - cbn. lia.
  - rewrite Pos.iter_succ. cbn [SpecFloat.digits2_pos]. rewrite IH. lia.
Qed.

Lemma pos_iter_xO (m k : positive) :
  Z.pos (Pos.iter xO m k) = (Z.pos m * 2 ^ Z.pos k)%Z.
Proof.
  induction k as [|k IH] using Pos.peano_ind.
  - cbn. lia.
  - rewrite Pos.iter_succ, Pos2Z.inj_xO, IH, Pos2Z.inj_succ.
    rewrite Z.pow_succ_r by lia. lia.
Qed.

Lemma digits2_pos_bound (m : positive) :
  (2 ^ (Z.pos (SpecFloat.digits2_pos m) - 1) ≤ Z.pos m)%Z.
Proof.
  induction m as [m IH|m IH|]; cbn [SpecFloat.digits2_pos].
  - rewrite Pos2Z.inj_succ.
    replace (Z.succ (Z.pos (SpecFloat.digits2_pos m)) - 1)%Z
      with (Z.succ (Z.pos (SpecFloat.digits2_pos m) - 1))%Z by lia.
    rewrite Z.pow_succ_r by lia.
    set (x := (2 ^ (Z.pos (SpecFloat.digits2_pos m) - 1))%Z) in *. lia.
  - rewrite Pos2Z.inj_succ.
    replace (Z.succ (Z.pos (SpecFloat.digits2_pos m)) - 1)%Z
      with (Z.succ (Z.pos (SpecFloat.digits2_pos m) - 1))%Z by lia.
    rewrite Z.pow_succ_r by lia.
    set (x := (2 ^ (Z.pos (SpecFloat.digits2_pos m) - 1))%Z) in *. lia.
  - cbn. lia.
Qed.

Lemma round_aux_exact (mz : positive) (ez : Z) :
  Z.pos (SpecFloat.digits2_pos mz) = 53%Z → (-1074 ≤ ez ≤ 971)%Z →
  SpecFloat.binary_round_aux 53 1024 false (Z.pos mz) ez SpecFloat.loc_Exact
  = SpecFloat.S754_finite false mz ez.
Proof.
  intros Hd He. unfold SpecFloat.binary_round_aux, SpecFloat.shr_fexp.
  cbn [SpecFloat.Zdigits2 SpecFloat.shr_record_of_loc]. rewrite Hd.
  unfold SpecFloat.fexp, SpecFloat.emin.
  replace (Z.max (53 + ez - 53) (3 - 1024 - 53) - ez)%Z with 0%Z by lia.
  cbn [SpecFloat.shr SpecFloat.shr_m SpecFloat.loc_of_shr_record
       SpecFloat.round_nearest_even SpecFloat.Zdigits2
       SpecFloat.shr_record_of_loc].
  rewrite Hd.
  replace (Z.max (53 + ez - 53) (3 - 1024 - 53) - ez)%Z with 0%Z by lia.
  cbn [SpecFloat.shr SpecFloat.shr_m].
  destruct (Z.leb_spec ez (1024 - 53)) as [_|Hbad]; [done|lia].
Qed.

Lemma int_to_float_exact (n : Z) :
  (0 ≤ n < 2 ^ 53)%Z →
  ∃ x v, int_to_float n = Ok x ∧ float_value x = Some v
         ∧ (v == inject_Z n)%Q.
Proof.
  intros Hn. unfold int_to_float. destruct n as [|m|m]; [| |lia].
  { cbn. eexists _, _. split; [done|]. split; [done|]. done. }
  cbn [SpecFloat.binary_normalize]. unfold SpecFloat.binary_round.
  pose proof (digits2_pos_bound m) as Hlow.
  set (d := SpecFloat.digits2_pos m) in *.
  assert (Z.pos d ≤ 53)%Z as Hd.
  { destruct (Z.le_gt_cases (Z.pos d) 53) as [?|Hgt]; [done|].
    assert (2 ^ 53 ≤ 2 ^ (Z.pos d - 1))%Z by (apply Z.pow_le_mono_r; lia).
    lia. }
  unfold SpecFloat.fexp, SpecFloat.emin.
  replace (Z.max (Z.pos d + 0 - 53) (3 - 1024 - 53))%Z
    with (Z.pos d - 53)%Z by lia.
  unfold SpecFloat.shl_align.
  destruct (Z.pos d - 53 - 0)%Z as [|k|k] eqn:Hk; [|lia|].
  - rewrite round_aux_exact; [|fold d; lia|lia].
    eexists _, _. split; [done|]. cbn [float_value].
    replace (Z.pos d - 53)%Z with 0%Z by lia. split; [done|].
    unfold Qeq. cbn. lia.
  - rewrite round_aux_exact; [| |lia].
    + eexists _, _. split; [done|]. cbn [float_value].
      replace (Z.pos d - 53)%Z with (Z.neg k) by lia. split; [done|].
      unfold Qeq. cbn [Qnum Qden inject_Z].
      rewrite pos_iter_xO, Pos2Z.inj_pow. lia.
    + rewrite digits2_pos_iter. fold d. lia.
Qed.

(** The object that [__init__] leaves once [int(...)] has returned
    [count]. *)
Definition miner_with_count (ts : list (list string)) (ms : float)
    (count : Z) : FrequentItemsetMiner :=
  {| transactions := ts;
     min_support := ms;
     num_transactions := length ts;
     min_support_count := if bool_decide (count < 1)%Z then 1%Z else count |}.

Lemma new_miner_Ok ts ms m :
  new_miner ts ms = Ok m →
  ∃ n count, int_to_float (Z.of_nat (length ts)) = Ok n
             ∧ py_int (float_mul ms n) = Ok count
             ∧ m = miner_with_count ts ms count.
Proof.
  unfold new_miner. cbn zeta.
  destruct (int_to_float (Z.of_nat (length ts))) as [n|];
    cbn [mbind result_bind]; [|done].
  destruct (py_int (float_mul ms n)) as [count|] eqn:Hc;
    cbn [mbind result_bind]; [|done].
  intros [= <-]. by exists n, count.
Qed.

Lemma miner_with_count_pos ts ms count :
  (1 ≤ min_support_count (miner_with_count ts ms count))%Z.
Proof. cbn [miner_with_count min_support_count]. case_bool_decide; lia. Qed.

Lemma miner_with_count_max ts ms count :
  min_support_count (miner_with_count ts ms count) = Z.max 1 count.
Proof. cbn [miner_with_count min_support_count]. case_bool_decide; lia. Qed.

(** C6 fails as stated. With ten transactions and [min_support = 0.3], the
    float [5404319552844595 * 2^-54], the exact product is just below 3 and
    its floor is 2, but the float product rounds to 3.0 and the count is 3.
    With fifty transactions and [min_support = 0.58], the float nearest to
    58/100, the count is 28 while [floor(58/100 * 50)] is 29. *)
Lemma min_support_count_floor_counterexample :
  ¬ (∀ ts ms m v,
       new_miner ts ms = Ok m → float_value ms = Some v →
       min_support_count m
       = Z.max 1 (Qfloor (v * Q_of_nat (length ts))))
  ∧ (∃ m, new_miner (replicate 50 ["a"%string])
            (float_lit 5224175567749775 (-53)) = Ok m
          ∧ min_support_count m = 28%Z
          ∧ Z.max 1 (Qfloor ((58 # 100) * Q_of_nat 50)) = 29%Z).
Proof.
  split.
  - intros H.
    assert (new_miner (replicate 10 ["a"%string])
              (float_lit 5404319552844595 (-54))
            = Ok (miner_with_count (replicate 10 ["a"%string])
                    (float_lit 5404319552844595 (-54)) 3))
      as Hm by (vm_compute; reflexivity).
    assert (float_value (float_lit 5404319552844595 (-54))
            = Some (5404319552844595 # 18014398509481984))
      as Hv by (vm_compute; reflexivity).
    specialize (H _ _ _ _ Hm Hv). vm_compute in H. discriminate.
  - exists (miner_with_count (replicate 50 ["a"%string])
              (float_lit 5224175567749775 (-53)) 28).
    split; [vm_compute; reflexivity|]. split; reflexivity.
Qed.

(** C6, as the code computes it: when the constructor returns, the count is
    [max(1, floor(p))] for the float product [p] of [min_support] and the
    number of transactions, so it is at least 1, and it is the claimed
    [max(1, floor(min_support * N))] whenever the float product is exact.
    The constructor returns when that product is finite. For fewer than
    [2^53] transactions their number converts to a float exactly, and the
    constructor returns with count 1 for a support of 0. *)
Theorem min_support_count_float_floor (ts : list (list string)) (ms : float) :
  (∀ m, new_miner ts ms = Ok m →
     ∃ n p, int_to_float (Z.of_nat (length ts)) = Ok n
            ∧ float_value (float_mul ms n) = Some p
            ∧ min_support_count m = Z.max 1 (Qfloor p)
            ∧ (1 ≤ min_support_count m)%Z
            ∧ ∀ v, float_value ms = Some v →
                   (p == v * Q_of_nat (length ts))%Q →
                   min_support_count m
                   = Z.max 1 (Qfloor (v * Q_of_nat (length ts))))
  ∧ (∀ n p, int_to_float (Z.of_nat (length ts)) = Ok n →
            float_value (float_mul ms n) = Some p →
            ∃ m, new_miner ts ms = Ok m)
  ∧ ((Z.of_nat (length ts) < 2 ^ 53)%Z →
     ∃ n vn, int_to_float (Z.of_nat (length ts)) = Ok n
             ∧ float_value n = Some vn
             ∧ (vn == Q_of_nat (length ts))%Q
             ∧ ∀ s, ms = SpecFloat.S754_zero s →
                    ∃ m, new_miner ts ms = Ok m
                         ∧ min_support_count m = 1%Z).
Proof.
  split; [|split].
  - intros m (n & count & Hn & Hc & ->)%new_miner_Ok.
    destruct (py_int_value _ _ Hc) as [p Hp].
    destruct (py_int_floor _ _ Hp) as (c & Hc' & Hmax).
    assert (c = count) as -> by congruence.
    exists n, p. split; [done|]. split; [done|].
    rewrite miner_with_count_max. split; [done|]. split; [lia|].
    intros v _ Heq. by rewrite <-Heq.
  - intros n p Hn Hp. destruct (py_int_floor _ _ Hp) as (c & Hc & _).
    unfold new_miner. cbn zeta. rewrite Hn. cbn [mbind result_bind].
    rewrite Hc. cbn [mbind result_bind]. by eexists.
  - intros Hlen.
    destruct (int_to_float_exact (Z.of_nat (length ts)))
      as (n & vn & Hn & Hvn & Heq); [lia|].
    exists n, vn. split; [done|]. split; [done|]. split; [done|].
    intros s ->. unfold new_miner. cbn zeta. rewrite Hn.
    cbn [mbind result_bind].
    assert (∃ s', float_mul (SpecFloat.S754_zero s) n = SpecFloat.S754_zero s')
      as [s' ->].
    { revert Hn. unfold int_to_float.
      destruct (SpecFloat.binary_normalize 53 1024 _ 0 false); try done;
        intros [= <-]; by eexists. }
    cbn [py_int mbind result_bind]. eexists. split; [done|]. done.
Qed.

(** With ten transactions and [min_support = 0.3]: the count is 3. *)
Lemma min_support_count_float_floor_witness :
  let ts := replicate 10 ["a"%string] in
  let ms := float_lit 5404319552844595 (-54) in
  ∃ m, new_miner ts ms = Ok m
       ∧ min_support_count m = 3%Z
       ∧ ∃ n p, int_to_float (Z.of_nat (length ts)) = Ok n
                ∧ float_value (float_mul ms n) = Some p
                ∧ min_support_count m = Z.max 1 (Qfloor p)
                ∧ (1 ≤ min_support_count m)%Z
                ∧ ∀ v, float_value ms = Some v →
                       (p == v * Q_of_nat (length ts))%Q →
                       min_support_count m
                       = Z.max 1 (Qfloor (v * Q_of_nat (length ts))).
Proof.
  intros ts ms. exists (miner_with_count ts ms 3).
  split; [vm_compute; reflexivity|]. split; [reflexivity|].
  apply (proj1 (min_support_count_float_floor ts ms)).
  vm_compute; reflexivity.
Defined.

Lemma py_div_Ok a b : ¬ (b == 0)%Q → py_div a b = Ok (a / b)%Q.
Proof.
  intros Hb. unfold py_div. destruct (Qeq_bool b 0) eqn:E; [|done].
  by apply Qeq_bool_eq in E.
Qed.

Lemma Q_of_nat_nonzero n : 0 < n → ¬ (Q_of_nat n == 0)%Q.
Proof.
  intros Hn. unfold Q_of_nat, Qeq; simpl. lia.
Qed.

(** ** [get_graph_info] *)

(** For a graph with at least one node all six keys are present and the
    density is [2 * edge_count / (n * (n - 1))] for [n > 1] nodes, else 0. *)
Lemma get_graph_info_nonempty g :
  size (nodes g) ≠ 0 →
  ∃ info, get_graph_info g = Ok info
    ∧ dict_keys info = ["num_nodes"; "num_edges"; "avg_degree"; "max_degree";
                        "min_degree"; "density"]%string
    ∧ dict_get "density"%string info =
        Some (if bool_decide (1 < size (nodes g))
              then (Q_of_nat (2 * get_edge_count g)
                    / Q_of_nat (size (nodes g) * (size (nodes g) - 1)))%Q
              else 0%Q).
Proof.
  intros Hne. unfold get_graph_info.
  rewrite bool_decide_eq_false_2 by done.
  set (degrees := get_degree g <$> elements (nodes g)).
  assert (Hlen : length degrees = size (nodes g)).
  { unfold degrees. by rewrite length_fmap. }
  rewrite (bool_decide_eq_true_2 (degrees ≠ [])); last first.
  { intros E. rewrite E in Hlen. simpl in Hlen. lia. }
  rewrite (py_div_Ok (Q_of_nat (sum_list degrees)))
    by (apply Q_of_nat_nonzero; lia).
  cbn [mbind result_bind].
  destruct (bool_decide (1 < size (nodes g))) eqn:Hn.
  - apply bool_decide_eq_true in Hn.
    rewrite py_div_Ok by (apply Q_of_nat_nonzero; nia).
    cbn [mbind result_bind]. eexists. split; [reflexivity|]. done.
  - cbn [mbind result_bind]. eexists. split; [reflexivity|]. done.
Qed.

(** C8, at the empty graph: [get_graph_info] returns early with five keys;
    the returned dict has no [density] entry, while the claim asks for the
    key with value 0. *)
Theorem get_graph_info_empty_lacks_density :
  ∃ info, get_graph_info empty_graph = Ok info
    ∧ dict_keys info = ["num_nodes"; "num_edges"; "avg_degree"; "max_degree";
                        "min_degree"]%string
    ∧ dict_get "density"%string info = None.
Proof. eexists. split; [reflexivity|]. split; reflexivity. Qed.

(** ** [get_association_rules]: concrete runs *)

(** C4, at [[["a","x","x"],["y"]]] with [min_support = 1.0], the float
    [4503599627370496 * 2^-52]: the pair
    [("a","x")] is frequent with count 2, ["a"] has no frequent 1-itemset
    count, and the direction [x -> a] divides by zero when computing lift. *)
Theorem association_rules_zero_consequent_raises :
  ∃ m, new_miner [["a"; "x"; "x"]; ["y"]]%string
         (float_lit 4503599627370496 (-52)) = Ok m
       ∧ min_support_count m = 2%Z
       ∧ find_frequent_pairs m = [(("a", "x")%string, 2)]
       ∧ item_count_of (find_frequent_1_itemsets m) "a" = 0
       ∧ item_count_of (find_frequent_1_itemsets m) "x" = 2
       ∧ get_association_rules m (1 # 2) = Raise ZeroDivisionError.
Proof.
  exists (miner_with_count [["a"; "x"; "x"]; ["y"]]%string
            (float_lit 4503599627370496 (-52)) 2).
  split; [vm_compute; reflexivity|]. vm_compute. done.
Qed.


(** C3 fails as stated: with a repeated item in a transaction a pair can be
    frequent while one of its items is not. *)
Lemma apriori_monotonicity_counterexample :
  ¬ (∀ ts ms m k (S T : gset string),
       new_miner ts ms = Ok m →
       2 ≤ k →
       S ∈ dict_keys (find_frequent_k_itemsets m k) →
       T ⊆ S → size T = k - 1 →
       T ∈ dict_keys (find_frequent_k_itemsets m (k - 1))
       ∧ (k = 2 → T ∈ dict_keys (find_frequent_1_itemsets m))).
Proof.
  intros H.
  assert (new_miner [["a"; "x"; "x"]; ["y"]]%string
            (float_lit 4503599627370496 (-52))
          = Ok (miner_with_count [["a"; "x"; "x"]; ["y"]]%string
                  (float_lit 4503599627370496 (-52)) 2))
    as Hm by (vm_compute; reflexivity).
  destruct (H [["a"; "x"; "x"]; ["y"]]%string
              (float_lit 4503599627370496 (-52)) _ 2
              {["a"; "x"]}%string {["a"]}%string Hm) as [H1 _].
  - lia.
  - apply (bool_decide_unpack _). by vm_compute.
  - set_solver.
  - by vm_compute.
  - apply (bool_decide_pack _) in H1. by vm_compute in H1.
Qed.

(** ** Traversals: the step budget is enough *)

(** Adjacency entries of the items not yet visited. Each loop iteration
    removes one queue element, and the elements a visit adds are paid for by
    the visited item's adjacency dict leaving this sum. *)
Fixpoint unvisited_size (gr : list (string * list (string * Z)))
    (visited : gset string) : nat :=
  match gr with
  | [] => 0
  | (k, d) :: gr' =>
      (if decide (k ∈ visited) then 0 else length d) + unvisited_size gr' visited
  end.

Lemma unvisited_size_empty gr : unvisited_size gr ∅ = adjacency_size gr.
Proof.
  induction gr as [|[k d] gr IH]; [done|]. cbn [unvisited_size adjacency_size].
  rewrite decide_False by set_solver. by rewrite IH.
Qed.

Lemma unvisited_size_mono gr v visited :
  unvisited_size gr ({[v]} ∪ visited) ≤ unvisited_size gr visited.
Proof.
  induction gr as [|[k d] gr IH]; [done|]. cbn [unvisited_size].
  destruct (decide (k ∈ {[v]} ∪ visited)), (decide (k ∈ visited));
    try lia. exfalso. set_solver.
Qed.

Lemma unvisited_size_visit g v visited :
  v ∉ visited →
  length (get_neighbors g v) + unvisited_size (graph g) ({[v]} ∪ visited)
  ≤ unvisited_size (graph g) visited.
Proof.
  intros Hv. unfold get_neighbors.
  induction (graph g) as [|[k d] gr IH]; [done|].
  cbn [unvisited_size dict_get].
  destruct (decide (k = v)) as [->|Hne].
  - rewrite decide_True by set_solver.
    rewrite (decide_False (P := v ∈ visited)) by done.
    pose proof (unvisited_size_mono gr v visited). lia.
  - destruct (decide (k ∈ {[v]} ∪ visited)), (decide (k ∈ visited));
      try lia; exfalso; set_solver.
Qed.

Lemma length_unvisited_neighbors g v (visited : gset string) :
  length (filter (λ n, n ∉ visited) (dict_keys (get_neighbors g v)))
  ≤ length (get_neighbors g v).
Proof.
  etrans; [apply length_filter|]. unfold dict_keys. by rewrite length_fmap.
Qed.

(** ** [bfs] *)

Lemma bfs_loop_spec g max_depth (P : string → Prop) :
  (∀ x y, P x → has_edge g x y → P y) →
  ∀ fuel visited queue result,
    length queue + unvisited_size (graph g) visited < fuel →
    NoDup result →
    (∀ x, x ∈ result → x ∈ visited) →
    Forall P result →
    Forall (λ e, P e.1) queue →
    ∃ r, bfs_loop g max_depth fuel visited queue result = Done r
         ∧ NoDup r ∧ result `prefix_of` r ∧ Forall P r.
Proof.
  intros HP. induction fuel as [|fuel IH];
    intros visited queue result Hfuel Hnd Hvis HPr HPq; [lia|].
  destruct queue as [|[cur depth] queue]; cbn [bfs_loop].
  { exists result. done. }
  apply Forall_cons in HPq as [HPcur HPq]. cbn [length] in Hfuel.
  destruct (decide (cur ∈ visited)) as [Hin|Hnin].
  { apply IH; auto. lia. }
  destruct (depth_exceeded max_depth depth).
  { apply IH; auto. lia. }
  destruct (IH ({[cur]} ∪ visited)
              (queue ++ ((λ neighbor, (neighbor, (depth + 1)%Z)) <$>
                 filter (λ neighbor, neighbor ∉ {[cur]} ∪ visited)
                        (dict_keys (get_neighbors g cur))))
              (result ++ [cur])) as (r & Hr & Hndr & Hpre & HPr').
  - rewrite length_app, length_fmap.
    pose proof (length_unvisited_neighbors g cur ({[cur]} ∪ visited)).
    pose proof (unvisited_size_visit g cur visited Hnin). lia.
  - apply NoDup_app. split; [done|]. split; [|apply NoDup_singleton].
    intros x Hx ->%list_elem_of_singleton. auto.
  - intros x [Hx| ->%list_elem_of_singleton]%elem_of_app; set_solver.
  - apply Forall_app. split; [done|]. by apply Forall_singleton.
  - apply Forall_app. split; [done|]. apply Forall_fmap, Forall_forall.
    intros n [_ Hn]%list_elem_of_filter. simpl. by apply (HP cur).
  - exists r. split; [done|]. split; [done|]. split; [|done].
    by eapply prefix_app_l.
Qed.

Lemma graph_wf_edge_node g x y : graph_wf g → has_edge g x y → y ∈ nodes g.
Proof.
  intros [Hn Hs] He. unfold has_edge, get_neighbors in He. apply Hn.
  destruct (dict_get x (graph g)) as [d|] eqn:Hx.
  - apply dict_keys_get in He as [w Hw].
    assert (Hl : lookup2 (graph g) y x = Some w).
    { rewrite Hs. unfold lookup2. rewrite Hx. done. }
    unfold lookup2 in Hl. by destruct (dict_get y (graph g)).
  - by apply elem_of_nil in He.
Qed.

Lemma NoDup_length_le_size (l : list string) (X : gset string) :
  NoDup l → Forall (λ x, x ∈ X) l → length l ≤ size X.
Proof.
  intros Hnd Hall. rewrite <-(size_list_to_set (C := gset string) l Hnd).
  apply subseteq_size. intros x Hx%elem_of_list_to_set.
  by eapply Forall_forall in Hall.
Qed.

Lemma bfs_unbounded_of_wf g start_item :
  graph_wf g → start_item ∈ nodes g →
  ∃ r, bfs g start_item None = Done r
       ∧ head r = Some start_item ∧ NoDup r ∧ length r ≤ get_node_count g.
Proof.
  intros Hwf Hin. unfold bfs, get_all_nodes.
  rewrite decide_True by done.
  change (loop_fuel g) with (S (S (adjacency_size (graph g)))).
  cbn [bfs_loop depth_exceeded]. rewrite decide_False by set_solver.
  destruct (bfs_loop_spec g None (λ x, x ∈ nodes g)
              (λ x y _ He, graph_wf_edge_node g x y Hwf He)
              (S (adjacency_size (graph g))) ({[start_item]} ∪ ∅)
              ([] ++ ((λ neighbor, (neighbor, (0 + 1)%Z)) <$>
                 filter (λ neighbor, neighbor ∉ {[start_item]} ∪ (∅ : gset string))
                        (dict_keys (get_neighbors g start_item))))
              ([] ++ [start_item])) as (r & Hr & Hnd & Hpre & HP).
  - cbn [app]. rewrite length_fmap.
    pose proof (length_unvisited_neighbors g start_item ({[start_item]} ∪ ∅)).
    assert (Hfresh : start_item ∉ (∅ : gset string)) by set_solver.
    pose proof (unvisited_size_visit g start_item ∅ Hfresh) as Hv.
    rewrite unvisited_size_empty in Hv. lia.
  - apply NoDup_singleton.
  - intros x ->%list_elem_of_singleton. set_solver.
  - by apply Forall_singleton.
  - cbn [app]. apply Forall_fmap, Forall_forall.
    intros n [_ Hn]%list_elem_of_filter. simpl.
    by apply (graph_wf_edge_node g start_item).
  - exists r. split; [exact Hr|]. split; [|split; [done|]].
    + destruct Hpre as [k ->]. done.
    + by apply NoDup_length_le_size.
Qed.

(** C7: in a graph built through the public interface, [bfs(start)] without
    a depth limit returns, for a start item that is a node, a sequence that
    begins with it, has no item twice and is no longer than the node count;
    for an unknown start item it returns the empty sequence. *)
Theorem bfs_unbounded_properties (g : ProductGraph) (start_item : string) :
  reachable_graph g →
  (start_item ∈ nodes g →
   ∃ r, bfs g start_item None = Done r
        ∧ head r = Some start_item ∧ NoDup r
        ∧ length r ≤ get_node_count g)
  ∧ (start_item ∉ nodes g → bfs g start_item None = Done []).
Proof.
  intros Hwf%reachable_graph_wf. split.
  - by apply bfs_unbounded_of_wf.
  - intros Hnin. unfold bfs, get_all_nodes. by rewrite decide_False.
Qed.

Lemma bfs_unbounded_properties_witness :
  let g := run_ops [OpAddEdge "Bread" "Milk" 5; OpAddEdge "Bread" "Butter" 3;
                    OpAddEdge "Milk" "Eggs" 4; OpAddEdge "Bread" "Eggs" 2] in
  reachable_graph g
  ∧ (("Bread"%string ∈ nodes g →
      ∃ r, bfs g "Bread" None = Done r
           ∧ head r = Some "Bread"%string ∧ NoDup r
           ∧ length r ≤ get_node_count g)
     ∧ ("Bread"%string ∉ nodes g → bfs g "Bread" None = Done [])).
Proof.
  intros g. assert (Hr : reachable_graph g) by (eexists; reflexivity).
  split; [exact Hr|]. exact (bfs_unbounded_properties g "Bread" Hr).
Defined.

(** ** [find_path] *)

Lemma is_walk_snoc g a p v n :
  is_walk g a p v → has_edge g v n → is_walk g a (p ++ [n]) n.
Proof.
  induction 1 as [a|a y p b He Hw IH]; intros Hn; cbn [app].
  - apply walk_step with n; [done|]. apply walk_here.
  - apply walk_step with y; [done|]. by apply IH.
Qed.

Lemma is_walk_length g a p b : is_walk g a p b → 0 < length p.
Proof. destruct 1; simpl; lia. Qed.

Section find_path_invariant.
Variables (g : ProductGraph) (a b : string).

(** [covered dep visited queue n m]: item [n] has been reached with a path of
    at most [m] items, either visited at level [dep n] or waiting in the
    queue. [dep] is a ghost record of the path length at which each visited
    item was taken from the queue. *)
Definition covered (dep : string → nat) (visited : gset string)
    (queue : list (string * list string)) (n : string) (m : nat) : Prop :=
  (n ∈ visited ∧ dep n ≤ m) ∨ (∃ p, (n, p) ∈ queue ∧ length p ≤ m).

Record fp_inv (dep : string → nat) (visited : gset string)
    (queue : list (string * list string)) : Prop := {
  inv_walk : ∀ v p, (v, p) ∈ queue → is_walk g a p v;
  inv_sorted : ∀ i j e e',
    queue !! i = Some e → queue !! j = Some e' → i ≤ j →
    length e.2 ≤ length e'.2;
  inv_tight : ∀ e e', e ∈ queue → e' ∈ queue → length e'.2 ≤ S (length e.2);
  inv_level : ∀ v e, v ∈ visited → e ∈ queue → dep v ≤ length e.2;
  inv_not_end : b ∉ visited;
  inv_cover : ∀ v n, v ∈ visited → has_edge g v n →
    covered dep visited queue n (S (dep v));
  inv_start : covered dep visited queue a 1
}.

Lemma covered_mono dep visited queue n m m' :
  m ≤ m' → covered dep visited queue n m → covered dep visited queue n m'.
Proof.
  intros Hm [[? ?]|(p & ? & ?)]; [left|right].
  - split; [done|lia].
  - exists p. split; [done|lia].
Qed.

(** Every walk from an item covered at level [m] ends in a visited item or
    passes through the queue, at a level bounded by the walk. *)
Lemma walk_reaches_frontier dep visited queue x q w m :
  fp_inv dep visited queue →
  is_walk g x q w → covered dep visited queue x m →
  w ∈ visited ∨ ∃ e, e ∈ queue ∧ length e.2 ≤ m + length q - 1.
Proof.
  intros Hinv Hw. revert m.
  induction Hw as [x|x y q w He Hw IH]; intros m Hc.
  - destruct Hc as [[? ?]|(p & ? & ?)]; [by left|right].
    exists (x, p). split; [done|]. simpl. lia.
  - destruct Hc as [[Hx Hd]|(p & Hp & Hl)].
    + pose proof (inv_cover _ _ _ Hinv x y Hx He) as Hy.
      apply (covered_mono _ _ _ _ _ (S m)) in Hy; [|lia].
      destruct (IH _ Hy) as [?|(e & ? & ?)]; [by left|right].
      exists e. split; [done|]. cbn [length].
      pose proof (is_walk_length _ _ _ _ Hw). lia.
    + right. exists (x, p). split; [done|]. simpl. lia.
Qed.

Lemma fp_inv_init : fp_inv (λ _, 0) ∅ [(a, [a])].
Proof.
  split.
  - intros v p Hin%list_elem_of_singleton. simplify_eq. apply walk_here.
  - intros i j e e' Hi%list_lookup_singleton_Some Hj%list_lookup_singleton_Some _.
    destruct Hi as [_ <-], Hj as [_ <-]. done.
  - intros e e' ->%list_elem_of_singleton ->%list_elem_of_singleton. lia.
  - intros v e Hv. set_solver.
  - set_solver.
  - intros v n Hv. set_solver.
  - right. exists [a]. split; [left|]. simpl. lia.
Qed.

Lemma head_shortest dep visited v p queue e :
  fp_inv dep visited ((v, p) :: queue) → e ∈ (v, p) :: queue →
  length p ≤ length e.2.
Proof.
  intros Hinv [j Hj]%list_elem_of_lookup.
  apply (inv_sorted _ _ _ Hinv 0 j (v, p) e); [done|done|lia].
Qed.

Lemma covered_pop_visited dep visited v p queue n m :
  v ∈ visited → dep v ≤ length p →
  covered dep visited ((v, p) :: queue) n m → covered dep visited queue n m.
Proof.
  intros Hv Hd [?|(p0 & Hin & Hl)]; [by left|].
  apply elem_of_cons in Hin as [Heq|Hin].
  - simplify_eq. left. split; [done|lia].
  - right. by exists p0.
Qed.

Lemma fp_inv_pop_visited dep visited v p queue :
  fp_inv dep visited ((v, p) :: queue) → v ∈ visited →
  fp_inv dep visited queue.
Proof.
  intros Hinv Hv.
  assert (Hd : dep v ≤ length p).
  { apply (inv_level _ _ _ Hinv v (v, p)); [done|left]. }
  split.
  - intros v' p' Hin. apply (inv_walk _ _ _ Hinv). by right.
  - intros i j e e' Hi Hj Hij.
    apply (inv_sorted _ _ _ Hinv (S i) (S j)); [done|done|lia].
  - intros e e' He He'. apply (inv_tight _ _ _ Hinv); by right.
  - intros v' e Hv' He. apply (inv_level _ _ _ Hinv); [done|by right].
  - apply (inv_not_end _ _ _ Hinv).
  - intros v' n Hv' He. apply (covered_pop_visited dep visited v p); [done..|].
    by apply (inv_cover _ _ _ Hinv).
  - apply (covered_pop_visited dep visited v p); [done..|].
    apply (inv_start _ _ _ Hinv).
Qed.

(** The queue entries added when [v] is visited with path [p]. *)
Definition pushed (visited' : gset string) (v : string) (p : list string)
  : list (string * list string) :=
  (λ neighbor, (neighbor, p ++ [neighbor])) <$>
    filter (λ neighbor, neighbor ∉ visited') (dict_keys (get_neighbors g v)).

Lemma elem_of_pushed visited' v p e :
  e ∈ pushed visited' v p ↔
  ∃ n, e = (n, p ++ [n]) ∧ n ∉ visited' ∧ has_edge g v n.
Proof.
  unfold pushed. rewrite list_elem_of_fmap. unfold has_edge.
  split; intros (n & -> & Hn); exists n; (split; [done|]).
  - by apply list_elem_of_filter in Hn.
  - by apply list_elem_of_filter.
Qed.

Lemma pushed_length visited' v p e :
  e ∈ pushed visited' v p → length e.2 = S (length p).
Proof.
  intros (n & -> & _)%elem_of_pushed. simpl. rewrite length_app. simpl. lia.
Qed.

Definition visit_level (dep : string → nat) (v : string) (p : list string)
  : string → nat :=
  λ x, if decide (x = v) then length p else dep x.

Lemma covered_pop_fresh dep visited v p queue n m :
  v ∉ visited →
  covered dep visited ((v, p) :: queue) n m →
  covered (visit_level dep v p) ({[v]} ∪ visited)
          (queue ++ pushed ({[v]} ∪ visited) v p) n m.
Proof.
  intros Hv [[Hn Hd]|(p0 & Hin & Hl)].
  - left. split; [set_solver|]. unfold visit_level.
    rewrite decide_False; [done|]. intros ->. done.
  - apply elem_of_cons in Hin as [Heq|Hin].
    + simplify_eq. left. split; [set_solver|]. unfold visit_level.
      by rewrite decide_True.
    + right. exists p0. split; [|done]. apply elem_of_app. by left.
Qed.

Lemma fp_inv_pop_fresh dep visited v p queue :
  fp_inv dep visited ((v, p) :: queue) → v ∉ visited → v ≠ b →
  fp_inv (visit_level dep v p) ({[v]} ∪ visited)
         (queue ++ pushed ({[v]} ∪ visited) v p).
Proof.
  intros Hinv Hv Hvb.
  assert (Hhead : ∀ e, e ∈ queue → length p ≤ length e.2).
  { intros e He. apply (head_shortest dep visited v p queue e Hinv). by right. }
  assert (Htight : ∀ e, e ∈ queue → length e.2 ≤ S (length p)).
  { intros e He. apply (inv_tight _ _ _ Hinv (v, p) e); [left|by right]. }
  assert (Hlevel : ∀ u, u ∈ visited → dep u ≤ length p).
  { intros u Hu. apply (inv_level _ _ _ Hinv u (v, p)); [done|left]. }
  split.
  - intros v' p' [Hin|Hin]%elem_of_app.
    + apply (inv_walk _ _ _ Hinv). by right.
    + apply elem_of_pushed in Hin as (n & Heq & _ & He). simplify_eq.
      eapply is_walk_snoc; [|done]. apply (inv_walk _ _ _ Hinv). left.
  - intros i j e e' Hi Hj Hij.
    apply lookup_app_Some in Hi as [Hi|[Hli Hi]];
      apply lookup_app_Some in Hj as [Hj|[Hlj Hj]].
    + apply (inv_sorted _ _ _ Hinv (S i) (S j)); [done|done|lia].
    + apply list_elem_of_lookup_2 in Hi, Hj.
      rewrite (pushed_length _ _ _ _ Hj). by apply Htight.
    + apply lookup_lt_Some in Hj. lia.
    + apply list_elem_of_lookup_2 in Hi, Hj.
      by rewrite (pushed_length _ _ _ _ Hi), (pushed_length _ _ _ _ Hj).
  - intros e e' [He|He]%elem_of_app [He'|He']%elem_of_app.
    + apply (inv_tight _ _ _ Hinv); by right.
    + rewrite (pushed_length _ _ _ _ He'). apply Hhead in He. lia.
    + rewrite (pushed_length _ _ _ _ He). apply Htight in He'. lia.
    + rewrite (pushed_length _ _ _ _ He), (pushed_length _ _ _ _ He'). lia.
  - intros u e Hu He. unfold visit_level.
    assert (Hp : length p ≤ length e.2).
    { apply elem_of_app in He as [He|He]; [by apply Hhead|].
      rewrite (pushed_length _ _ _ _ He). lia. }
    destruct (decide (u = v)) as [->|Hne]; [done|].
    assert (u ∈ visited) by set_solver. etrans; [by apply Hlevel|done].
  - pose proof (inv_not_end _ _ _ Hinv). set_solver.
  - intros u n Hu He. destruct (decide (u = v)) as [->|Hne].
    + assert (Hvl : visit_level dep v p v = length p).
      { unfold visit_level. by rewrite decide_True. }
      unfold covered. rewrite Hvl.
      destruct (decide (n ∈ {[v]} ∪ visited)) as [Hn|Hn].
      * left. split; [done|]. unfold visit_level.
        destruct (decide (n = v)); [lia|].
        assert (n ∈ visited) by set_solver. etrans; [by apply Hlevel|lia].
      * right. exists (p ++ [n]). split.
        -- apply elem_of_app. right. apply elem_of_pushed. by exists n.
        -- rewrite length_app. simpl. lia.
    + assert (Hu' : u ∈ visited) by set_solver.
      pose proof (inv_cover _ _ _ Hinv u n Hu' He) as Hc.
      apply (covered_pop_fresh _ _ _ _ _ _ _ Hv) in Hc.
      assert (Hvl : visit_level dep v p u = dep u).
      { unfold visit_level. by rewrite decide_False. }
      by rewrite Hvl.
  - apply covered_pop_fresh; [done|]. apply (inv_start _ _ _ Hinv).
Qed.

Lemma find_path_loop_spec fuel :
  ∀ dep visited queue,
    fp_inv dep visited queue →
    length queue + unvisited_size (graph g) visited < fuel →
    ∃ r, find_path_loop g b fuel visited queue = Done r
         ∧ (∀ p, r = Some p →
              is_walk g a p b ∧ ∀ q, is_walk g a q b → length p ≤ length q)
         ∧ (r = None → ∀ q, ¬ is_walk g a q b).
Proof.
  induction fuel as [|fuel IH]; intros dep visited queue Hinv Hfuel; [lia|].
  destruct queue as [|[v p] queue]; cbn [find_path_loop].
  { exists None. split; [done|]. split; [done|]. intros _ q Hq.
    destruct (walk_reaches_frontier _ _ _ _ _ _ _ Hinv Hq (inv_start _ _ _ Hinv))
      as [Hb|(e & He & _)].
    - by apply (inv_not_end _ _ _ Hinv).
    - by apply elem_of_nil in He. }
  cbn [length] in Hfuel.
  destruct (decide (v = b)) as [->|Hvb].
  { exists (Some p). split; [done|]. split; [|done].
    intros p' [= <-]. split.
    - apply (inv_walk _ _ _ Hinv). left.
    - intros q Hq.
      destruct (walk_reaches_frontier _ _ _ _ _ _ _ Hinv Hq
                  (inv_start _ _ _ Hinv)) as [Hb|(e & He & Hl)].
      + by apply (inv_not_end _ _ _ Hinv) in Hb.
      + pose proof (head_shortest _ _ _ _ _ _ Hinv He).
        pose proof (is_walk_length _ _ _ _ Hq). lia. }
  destruct (decide (v ∈ visited)) as [Hv|Hv].
  { apply (IH dep); [by eapply fp_inv_pop_visited|lia]. }
  apply (IH (visit_level dep v p)).
  - by apply fp_inv_pop_fresh.
  - fold (pushed ({[v]} ∪ visited) v p). rewrite length_app.
    unfold pushed. rewrite length_fmap.
    pose proof (length_unvisited_neighbors g v ({[v]} ∪ visited)).
    pose proof (unvisited_size_visit g v visited Hv). lia.
Qed.

Lemma find_path_spec :
  ∃ r, find_path g a b = Done r
       ∧ (a ∉ nodes g ∨ b ∉ nodes g → r = None)
       ∧ (∀ p, r = Some p →
            is_walk g a p b ∧ ∀ q, is_walk g a q b → length p ≤ length q).
Proof.
  unfold find_path, get_all_nodes.
  destruct (decide (a ∈ nodes g)) as [Ha|Ha];
    [destruct (decide (b ∈ nodes g)) as [Hb|Hb]|].
  - destruct (find_path_loop_spec (loop_fuel g) _ _ _ fp_inv_init)
      as (r & Hr & Hsome & _).
    { unfold loop_fuel. rewrite unvisited_size_empty. simpl. lia. }
    exists r. split; [done|]. split; [|done]. intros [?|?]; done.
  - exists None. done.
  - exists None. done.
Qed.

(** With both endpoints in the node set, [None] is returned only when no
    walk joins them. *)
Lemma find_path_none_unreachable :
  a ∈ nodes g → b ∈ nodes g → find_path g a b = Done None →
  ∀ q, ¬ is_walk g a q b.
Proof.
  intros Ha Hb. unfold find_path, get_all_nodes.
  rewrite !decide_True by done. intros Hnone.
  destruct (find_path_loop_spec (loop_fuel g) _ _ _ fp_inv_init)
    as (r & Hr & _ & Hn).
  { unfold loop_fuel. rewrite unvisited_size_empty. simpl. lia. }
  rewrite Hnone in Hr. apply Hn. by simplify_eq.
Qed.

End find_path_invariant.

(** C5: [find_path] returns; it is none exactly when [is_connected] is
    false, in particular when an endpoint is not a node; and a returned path
    is a walk from [a] to [b] with the fewest edges among all such walks. *)
Theorem find_path_shortest (g : ProductGraph) (a b : string) :
  ∃ r, find_path g a b = Done r
       ∧ (r = None ↔ is_connected g a b = Done false)
       ∧ (a ∉ nodes g ∨ b ∉ nodes g → r = None)
       ∧ (∀ p, r = Some p →
            is_walk g a p b
            ∧ ∀ q, is_walk g a q b → path_edges p ≤ path_edges q).
Proof.
  destruct (find_path_spec g a b) as (r & Hr & Hnodes & Hmin).
  exists r. split; [done|]. split; [|split; [done|]].
  - unfold is_connected. rewrite Hr. destruct r; split; intros; simplify_eq.
    + done.
    + done.
  - intros p Hp. destruct (Hmin p Hp) as [Hw Hle]. split; [done|].
    intros q Hq. specialize (Hle q Hq). unfold path_edges. lia.
Qed.

(** ** Counting tables *)

Section counting.
Context {K : Type} `{EqDecision K}.
Implicit Types (k : K) (d : list (K * nat)) (ks : list K).

(** [d.get(k, 0)] on a table of counts. *)
Definition count_of (k : K) (d : list (K * nat)) : nat :=
  default 0 (dict_get k d).

(** The number of times [k] occurs in a list of keys. *)
Definition occurrences (k : K) (ks : list K) : nat :=
  length (filter (λ x, x = k) ks).

(** Incrementing the count of each key of a list in turn. *)
Definition incr_all (ks : list K) (d : list (K * nat)) : list (K * nat) :=
  foldl (λ d x, dict_incr x d) d ks.

(** Keys of a table are distinct and every stored count is positive. *)
Definition count_table (d : list (K * nat)) : Prop :=
  NoDup (dict_keys d) ∧ ∀ k c, dict_get k d = Some c → 0 < c.

Lemma occurrences_cons k x ks :
  occurrences k (x :: ks) = (if decide (x = k) then 1 else 0) + occurrences k ks.
Proof. unfold occurrences. rewrite filter_cons. by case_decide. Qed.

Lemma occurrences_app k ks1 ks2 :
  occurrences k (ks1 ++ ks2) = occurrences k ks1 + occurrences k ks2.
Proof. unfold occurrences. by rewrite filter_app, length_app. Qed.

Lemma occurrences_pos k ks : k ∈ ks → 0 < occurrences k ks.
Proof.
  induction 1 as [k ks|k x ks _ IH]; rewrite occurrences_cons.
  - rewrite decide_True by done. lia.
  - lia.
Qed.

Lemma occurrences_elem k ks : 0 < occurrences k ks → k ∈ ks.
Proof.
  unfold occurrences. intros Hp.
  destruct (filter (λ x, x = k) ks) as [|y l] eqn:E; [simpl in Hp; lia|].
  assert (Hy : y ∈ filter (λ x, x = k) ks) by (rewrite E; left).
  apply list_elem_of_filter in Hy as [-> ?]. done.
Qed.

Lemma count_of_incr k d k' :
  count_of k' (dict_incr k d)
  = count_of k' d + (if decide (k = k') then 1 else 0).
Proof.
  unfold count_of, dict_incr. rewrite dict_get_set.
  case_decide; subst; simpl; lia.
Qed.

Lemma count_of_incr_all k ks d :
  count_of k (incr_all ks d) = count_of k d + occurrences k ks.
Proof.
  unfold incr_all. revert d. induction ks as [|x ks IH]; intros d; simpl.
  - unfold occurrences. simpl. lia.
  - rewrite IH, count_of_incr, occurrences_cons. lia.
Qed.

Lemma dict_keys_set {V} k (v : V) (d : list (K * V)) :
  dict_keys (dict_set k v d)
  = if decide (k ∈ dict_keys d) then dict_keys d else dict_keys d ++ [k].
Proof.
  unfold dict_keys. induction d as [|[k0 v0] d IH]; cbn [dict_set].
  - case_decide as Hd; [by apply elem_of_nil in Hd|done].
  - destruct (decide (k0 = k)) as [->|Hne]; cbn [fmap list_fmap fst].
    + clear IH. case_decide as Hd; [done|]. exfalso. apply Hd. left.
    + rewrite IH. clear IH.
      destruct (decide (k ∈ d.*1)) as [Hin|Hnin]; case_decide as Hd.
      * done.
      * exfalso. apply Hd. by right.
      * apply elem_of_cons in Hd as [?|?]; congruence.
      * done.
Qed.

Lemma count_table_nil : count_table [].
Proof. split; [apply NoDup_nil_2|]. intros k c. done. Qed.

Lemma count_table_incr k d : count_table d → count_table (dict_incr k d).
Proof.
  intros [Hnd Hpos]. unfold dict_incr. split.
  - rewrite dict_keys_set. case_decide; [done|].
    apply NoDup_app. split; [done|]. split; [|apply NoDup_singleton].
    intros x Hx ->%list_elem_of_singleton. done.
  - intros k' c. rewrite dict_get_set. case_decide.
    + intros [= <-]. lia.
    + apply Hpos.
Qed.

Lemma count_table_incr_all ks d : count_table d → count_table (incr_all ks d).
Proof.
  unfold incr_all. revert d. induction ks as [|x ks IH]; intros d Hd; simpl.
  - done.
  - by apply IH, count_table_incr.
Qed.

Lemma count_table_get k c d :
  count_table d → (k, c) ∈ d ↔ dict_get k d = Some c.
Proof.
  intros [Hnd _]. split; [|apply dict_get_Some_elem].
  unfold dict_keys in Hnd. induction d as [|[k0 c0] d IH]; simpl.
  - by intros ?%elem_of_nil.
  - apply NoDup_cons in Hnd as [Hk0 Hnd].
    intros [Heq|Hin]%elem_of_cons.
    + simplify_eq. by rewrite decide_True.
    + rewrite decide_False; [by apply IH|].
      intros ->. apply Hk0. apply list_elem_of_fmap. by exists (k, c).
Qed.

Lemma count_table_count_of k d :
  count_table d → 0 < count_of k d → dict_get k d = Some (count_of k d).
Proof.
  intros _. unfold count_of. destruct (dict_get k d); simpl; [done|lia].
Qed.

Lemma dict_get_filter (P : K * nat → Prop) `{∀ x, Decision (P x)} k d :
  NoDup (dict_keys d) →
  dict_get k (filter P d)
  = dict_get k d ≫= λ c, if decide (P (k, c)) then Some c else None.
Proof.
  unfold dict_keys. induction d as [|[k0 c0] d IH]; intros Hnd; [done|].
  apply NoDup_cons in Hnd as [Hk0 Hnd]. specialize (IH Hnd).
  rewrite filter_cons. cbn [dict_get].
  destruct (decide (k0 = k)) as [->|Hne].
  - cbn [mbind option_bind].
    destruct (decide (P (k, c0))) as [HP|HP].
    + cbn [dict_get]. by rewrite decide_True.
    + rewrite IH. destruct (dict_get k d) as [c|] eqn:Hc; [|done].
      exfalso. apply Hk0. apply list_elem_of_fmap. exists (k, c).
      split; [done|]. by apply dict_get_Some_elem.
  - destruct (decide (P (k0, c0))); [|done].
    cbn [dict_get]. by rewrite decide_False.
Qed.

(** A table filled transaction by transaction is the table of all keys. *)
Lemma foldl_incr_all {T} (step : list (K * nat) → T → list (K * nat))
    (keys_of : T → list K) (ts : list T) d :
  (∀ d t, step d t = incr_all (keys_of t) d) →
  foldl step d ts = incr_all (ts ≫= keys_of) d.
Proof.
  intros Hstep. revert d. induction ts as [|t ts IH]; intros d; [done|].
  cbn [foldl]. rewrite bind_cons, IH, Hstep. unfold incr_all.
  by rewrite foldl_app.
Qed.


Lemma occurrences_fmap_none {A} (f : A → K) k (l : list A) :
  (∀ x, x ∈ l → f x ≠ k) → occurrences k (f <$> l) = 0.
Proof.
  induction l as [|x l IH]; intros Hne; [done|].
  cbn [fmap list_fmap]. rewrite occurrences_cons.
  rewrite IH by (intros y Hy; apply Hne; by right).
  rewrite decide_False; [done|]. apply Hne. left.
Qed.

End counting.

Lemma occurrences_bind_le {T K K'} `{EqDecision K, EqDecision K'} (f : T → list K)
    (f' : T → list K') k (k' : K') (ts : list T) :
  (∀ t, t ∈ ts → occurrences k (f t) ≤ occurrences k' (f' t)) →
  occurrences k (ts ≫= f) ≤ occurrences k' (ts ≫= f').
Proof.
  induction ts as [|t ts IH]; intros Hle; [done|].
  rewrite !bind_cons. unfold occurrences in *.
  rewrite !filter_app, !length_app.
  pose proof (Hle t ltac:(left)).
  assert (∀ t0, t0 ∈ ts →
            length (filter (λ x, x = k) (f t0))
            ≤ length (filter (λ x, x = k') (f' t0))).
  { intros t0 Ht0. apply Hle. by right. }
  specialize (IH ltac:(done)). lia.
Qed.

Lemma occurrences_fmap_equiv {A K K'} `{EqDecision K, EqDecision K'} (f : A → K)
    (f' : A → K') k (k' : K') (l : list A) :
  (∀ x, x ∈ l → f x = k ↔ f' x = k') →
  occurrences k (f <$> l) = occurrences k' (f' <$> l).
Proof.
  induction l as [|x l IH]; intros Heq; [done|].
  cbn [fmap list_fmap]. rewrite !occurrences_cons.
  rewrite IH by (intros y Hy; apply Heq; by right).
  pose proof (Heq x ltac:(left)).
  repeat case_decide; naive_solver.
Qed.

Lemma occurrences_omap_le {A K K'} `{EqDecision K, EqDecision K'} (f : A → option K)
    (f' : A → K') k (k' : K') (l : list A) :
  (∀ x, x ∈ l → f x = Some k → f' x = k') →
  occurrences k (omap f l) ≤ occurrences k' (f' <$> l).
Proof.
  induction l as [|x l IH]; intros Himp; [done|].
  cbn [omap list_omap fmap list_fmap].
  assert (IH' : occurrences k (omap f l) ≤ occurrences k' (f' <$> l)).
  { apply IH. intros y Hy. apply Himp. by right. }
  pose proof (Himp x ltac:(left)) as Hx.
  rewrite (occurrences_cons k' (f' x)).
  destruct (f x) as [y|] eqn:Hfx.
  - rewrite occurrences_cons. destruct (decide (y = k)) as [->|Hne].
    + rewrite decide_True by auto. lia.
    + case_decide; lia.
  - case_decide; lia.
Qed.


(** ** Sorting and combinations *)

Lemma stable_insert_perm {A} (before : A → A → bool) x l :
  stable_insert before x l ≡ₚ x :: l.
Proof.
  induction l as [|y l IH]; cbn [stable_insert]; [done|].
  destruct (before x y); [done|]. rewrite IH. apply Permutation_swap.
Qed.

Lemma stable_sort_perm {A} (before : A → A → bool) l :
  stable_sort before l ≡ₚ l.
Proof.
  unfold stable_sort. induction l as [|x l IH]; cbn [foldr]; [done|].
  by rewrite stable_insert_perm, IH.
Qed.

Lemma py_sorted_perm l : py_sorted l ≡ₚ l.
Proof. apply stable_sort_perm. Qed.

Lemma combinations_0 {A} (l : list A) : combinations l 0 = [[]].
Proof. by destruct l. Qed.

Lemma combinations_elem {A} (l : list A) k c x :
  c ∈ combinations l k → x ∈ c → x ∈ l.
Proof.
  revert k c. induction l as [|y l IH]; intros k c Hc Hx.
  - destruct k; cbn [combinations] in Hc.
    + apply list_elem_of_singleton in Hc as ->. done.
    + by apply elem_of_nil in Hc.
  - destruct k as [|k]; cbn [combinations] in Hc.
    + apply list_elem_of_singleton in Hc as ->. by apply elem_of_nil in Hx.
    + apply elem_of_app in Hc as [Hc|Hc].
      * apply list_elem_of_fmap in Hc as (c' & -> & Hc').
        apply elem_of_cons in Hx as [->|Hx]; [left|right]. by eapply IH.
      * right. by eapply IH.
Qed.

Lemma combinations_sublist {A} (c l : list A) :
  c `sublist_of` l → c ∈ combinations l (length c).
Proof.
  induction 1 as [|x c l Hs IH|x c l Hs IH].
  - left.
  - cbn [length combinations]. apply elem_of_app. left.
    by apply list_elem_of_fmap_2.
  - destruct c as [|y c].
    + rewrite combinations_0. left.
    + cbn [length combinations]. apply elem_of_app. by right.
Qed.

Lemma sublist_with_elem {A} (x : A) l j :
  x ∈ l → 1 ≤ j ≤ length l →
  ∃ c, c `sublist_of` l ∧ length c = j ∧ x ∈ c.
Proof.
  induction l as [|y l IH]; intros Hx Hj; [by apply elem_of_nil in Hx|].
  cbn [length] in Hj. apply elem_of_cons in Hx as [->|Hx].
  - exists (y :: take (j - 1) l). split; [|split; [|left]].
    + apply sublist_skip, sublist_take.
    + cbn [length]. rewrite length_take. lia.
  - destruct (decide (j ≤ length l)) as [Hle|Hgt].
    + destruct IH as (c & Hc & Hlen & Hin); [done|lia|].
      exists c. split; [by apply sublist_cons|done].
    + exists (y :: l). split; [done|]. split; [cbn [length]; lia|by right].
Qed.

Lemma sublist_with_repeat (l : list string) k :
  ¬ NoDup l → 2 ≤ k ≤ length l →
  ∃ c, c `sublist_of` l ∧ length c = k ∧ ¬ NoDup c.
Proof.
  induction l as [|x l IH]; intros Hdup Hk.
  { exfalso. apply Hdup. apply NoDup_nil_2. }
  cbn [length] in Hk. destruct (decide (x ∈ l)) as [Hx|Hx].
  - destruct (sublist_with_elem x l (k - 1) Hx) as (c & Hc & Hlen & Hin);
      [lia|].
    exists (x :: c). split; [by apply sublist_skip|].
    split; [cbn [length]; lia|]. intros [? _]%NoDup_cons. done.
  - assert (Hl : ¬ NoDup l).
    { intros Hnd. apply Hdup. by apply NoDup_cons. }
    destruct (decide (k ≤ length l)) as [Hle|Hgt].
    + destruct IH as (c & Hc & Hlen & Hnd); [done|lia|].
      exists c. split; [by apply sublist_cons|done].
    + exists (x :: l). split; [done|]. split; [cbn [length]; lia|done].
Qed.

Lemma size_list_to_set_le (c : list string) :
  size (list_to_set c : gset string) ≤ length c.
Proof.
  induction c as [|x c IH]; [by rewrite list_to_set_nil, size_empty|].
  rewrite list_to_set_cons, size_union_alt, size_singleton. cbn [length].
  pose proof (subseteq_size (list_to_set c ∖ {[x]}) (list_to_set c : gset string)
                ltac:(set_solver)). lia.
Qed.

Lemma size_list_to_set_repeat (c : list string) :
  ¬ NoDup c → size (list_to_set c : gset string) < length c.
Proof.
  induction c as [|x c IH]; intros Hdup.
  { exfalso. apply Hdup. apply NoDup_nil_2. }
  rewrite list_to_set_cons. cbn [length].
  destruct (decide (x ∈ c)) as [Hx|Hx].
  - assert (Heq : {[x]} ∪ list_to_set c = (list_to_set c : gset string)).
    { apply (elem_of_list_to_set (C := gset string)) in Hx. set_solver. }
    rewrite Heq. pose proof (size_list_to_set_le c). lia.
  - assert (Hc : ¬ NoDup c).
    { intros Hnd. apply Hdup. by apply NoDup_cons. }
    specialize (IH Hc). rewrite size_union_alt, size_singleton.
    pose proof (subseteq_size (list_to_set c ∖ {[x]})
                  (list_to_set c : gset string) ltac:(set_solver)). lia.
Qed.

(** In a duplicate-free list at most one combination has a given item set. *)
Lemma combinations_set_once (l : list string) k (S : gset string) :
  NoDup l →
  occurrences S ((list_to_set (C := gset string)) <$> combinations l k) ≤ 1.
Proof.
  intros Hnd. revert k S. induction Hnd as [|x l Hx Hnd IH]; intros k S.
  { destruct k; cbn [combinations fmap list_fmap]; unfold occurrences.
    - etrans; [apply length_filter|]. done.
    - cbn. lia. }
  destruct k as [|k]; cbn [combinations].
  { unfold occurrences. etrans; [apply length_filter|]. done. }
  rewrite fmap_app, occurrences_app, <-list_fmap_compose.
  destruct (decide (x ∈ S)) as [HxS|HxS].
  - rewrite (occurrences_fmap_none _ S (combinations l (Datatypes.S k))).
    2:{ intros c Hc Heq. apply Hx.
        apply (combinations_elem l (Datatypes.S k) c); [done|].
        apply (elem_of_list_to_set (C := gset string)). by rewrite Heq. }
    rewrite (occurrences_fmap_equiv _ (list_to_set (C := gset string))
               S (S ∖ {[x]})).
    + specialize (IH k (S ∖ {[x]})). lia.
    + intros c Hc. cbn [compose]. rewrite list_to_set_cons.
      assert (Hxc : x ∉ (list_to_set c : gset string)).
      { intros Hin%elem_of_list_to_set. apply Hx.
        by apply (combinations_elem l k c). }
      clear IH. generalize dependent (list_to_set c : gset string).
      intros C HxC. split; intros Heq.
      * subst S. apply set_eq. intros y. set_solver.
      * subst C. apply set_eq. intros y.
        destruct (decide (y = x)) as [->|Hne]; set_solver.
  - rewrite (occurrences_fmap_none _ S (combinations l k)).
    2:{ intros c Hc Heq. apply HxS. rewrite <-Heq. cbn [compose].
        rewrite list_to_set_cons. set_solver. }
    specialize (IH (Datatypes.S k) S). lia.
Qed.

(** Every set of [j] items of a list is the item set of a combination. *)
Lemma combinations_set_exists (l : list string) j (T : gset string) :
  (∀ y, y ∈ T → y ∈ l) → size T = j →
  ∃ c, c ∈ combinations l j ∧ list_to_set c = T.
Proof.
  revert j T. induction l as [|x l IH]; intros j T Hsub Hsize.
  - assert (T = ∅) as ->.
    { apply set_eq. intros y. split; [|set_solver].
      intros Hy%Hsub. by apply elem_of_nil in Hy. }
    rewrite size_empty in Hsize. subst j. exists []. split; [left|done].
  - destruct (decide (x ∈ T)) as [HxT|HxT].
    + assert (Hs : size (T ∖ {[x]}) = j - 1).
      { rewrite size_difference by set_solver. by rewrite size_singleton, Hsize. }
      assert (Hj : size T ≠ 0).
      { intros Hz%size_empty_iff. set_solver. }
      destruct (IH (j - 1) (T ∖ {[x]})) as (c & Hc & Hset); [|done|].
      { intros y [Hy Hne]%elem_of_difference.
        apply Hsub in Hy. apply elem_of_cons in Hy as [->|Hy]; [|done].
        set_solver. }
      exists (x :: c). split.
      * destruct j as [|j]; [lia|]. cbn [combinations].
        apply elem_of_app. left. apply list_elem_of_fmap_2.
        by replace j with (Datatypes.S j - 1) by lia.
      * rewrite list_to_set_cons, Hset. apply set_eq. intros y.
        destruct (decide (y = x)); set_solver.
    + destruct (IH j T) as (c & Hc & Hset); [|done|].
      { intros y Hy. pose proof (Hsub y Hy) as Hin.
        apply elem_of_cons in Hin as [->|Hin]; done. }
      exists c. split; [|done]. destruct j as [|j].
      * rewrite combinations_0 in *. done.
      * cbn [combinations]. apply elem_of_app. by right.
Qed.

(** ** The mining tables as counts of occurrences *)

(** The keys one transaction contributes to each table. *)
Definition item_keys (t : list string) : list (gset string) :=
  (λ item, {[item]}) <$> t.

Definition pair_of (c : list string) : option (string * string) :=
  match c with
  | [item1; item2] => Some (item1, item2)
  | _ => None
  end.

Definition pair_keys (t : list string) : list (string * string) :=
  if bool_decide (2 ≤ length t)
  then omap pair_of (combinations (py_sorted t) 2) else [].

Definition itemset_keys (k : nat) (t : list string) : list (gset string) :=
  if bool_decide (k ≤ length t)
  then list_to_set <$> combinations (py_sorted t) k else [].

Lemma item_counts_eq ts : item_counts ts = incr_all (ts ≫= item_keys) [].
Proof.
  unfold item_counts. apply foldl_incr_all. intros d t.
  unfold incr_all, item_keys. by rewrite foldl_fmap.
Qed.

Lemma pair_counts_eq ts : pair_counts ts = incr_all (ts ≫= pair_keys) [].
Proof.
  unfold pair_counts. apply foldl_incr_all. intros d t.
  unfold pair_keys. case_bool_decide; [|done].
  generalize (combinations (py_sorted t) 2). intros cs. revert d.
  induction cs as [|c cs IH]; intros d; [done|].
  cbn [foldl omap list_omap]. rewrite IH.
  by destruct c as [|a [|b [|? ?]]].
Qed.

Lemma itemset_counts_eq ts k :
  itemset_counts ts k = incr_all (ts ≫= itemset_keys k) [].
Proof.
  unfold itemset_counts. apply foldl_incr_all. intros d t.
  unfold itemset_keys. case_bool_decide; [|done].
  unfold incr_all. by rewrite foldl_fmap.
Qed.

Lemma count_of_incr_all_nil {K} `{EqDecision K} (k : K) ks :
  count_of k (incr_all ks []) = occurrences k ks.
Proof. by rewrite count_of_incr_all. Qed.

Lemma count_table_incr_all_nil {K} `{EqDecision K} (ks : list K) :
  count_table (incr_all ks []).
Proof. apply count_table_incr_all, count_table_nil. Qed.

(** Membership in a table filtered by [count >= min_support_count]. *)
Lemma frequent_key_iff {K} `{EqDecision K} (m : FrequentItemsetMiner)
    (k : K) (d : list (K * nat)) :
  count_table d → (1 ≤ min_support_count m)%Z →
  k ∈ dict_keys (filter (λ entry, is_frequent m entry) d)
  ↔ (min_support_count m ≤ Z.of_nat (count_of k d))%Z.
Proof.
  intros Hd Hm. unfold dict_keys. rewrite list_elem_of_fmap. split.
  - intros ([k' c] & -> & [Hf Hin]%list_elem_of_filter). cbn [fst].
    apply (count_table_get _ _ _ Hd) in Hin. unfold count_of. rewrite Hin.
    unfold is_frequent in Hf. by apply bool_decide_unpack in Hf.
  - intros Hc. exists (k, count_of k d). split; [done|].
    apply list_elem_of_filter. split.
    + unfold is_frequent. by apply bool_decide_pack.
    + apply (count_table_get _ _ _ Hd). apply count_table_count_of; [done|lia].
Qed.


Lemma frequent_k_itemsets_key ts ms c k (X : gset string) :
  1 ≤ k →
  X ∈ dict_keys (find_frequent_k_itemsets (miner_with_count ts ms c) k)
  ↔ (min_support_count (miner_with_count ts ms c)
     ≤ Z.of_nat (occurrences X (ts ≫= itemset_keys k)))%Z.
Proof.
  intros Hk. unfold find_frequent_k_itemsets.
  rewrite bool_decide_eq_false_2 by lia.
  change (transactions (miner_with_count ts ms c)) with ts.
  rewrite itemset_counts_eq, frequent_key_iff.
  - by rewrite count_of_incr_all_nil.
  - apply count_table_incr_all_nil.
  - apply miner_with_count_pos.
Qed.

Lemma frequent_1_itemsets_key ts ms c (X : gset string) :
  X ∈ dict_keys (find_frequent_1_itemsets (miner_with_count ts ms c))
  ↔ (min_support_count (miner_with_count ts ms c)
     ≤ Z.of_nat (occurrences X (ts ≫= item_keys)))%Z.
Proof.
  unfold find_frequent_1_itemsets.
  change (transactions (miner_with_count ts ms c)) with ts.
  rewrite item_counts_eq, frequent_key_iff.
  - by rewrite count_of_incr_all_nil.
  - apply count_table_incr_all_nil.
  - apply miner_with_count_pos.
Qed.

Lemma elem_of_itemset_keys k t (X : gset string) :
  X ∈ itemset_keys k t ↔
  k ≤ length t ∧ ∃ c, c ∈ combinations (py_sorted t) k ∧ list_to_set c = X.
Proof.
  unfold itemset_keys. case_bool_decide.
  - rewrite list_elem_of_fmap. naive_solver.
  - split; [by intros ?%elem_of_nil|]. intros [? _]. lia.
Qed.

(** C10: when a transaction of at least [k >= 2] items repeats an item and
    one occurrence suffices for support, [find_frequent_k_itemsets(k)] has a
    key with fewer than [k] elements: the combination holding both copies
    collapses when turned into a frozenset. *)
Theorem k_itemsets_key_smaller_than_k (ts : list (list string)) (ms : float)
    (m : FrequentItemsetMiner) (k : nat) (t : list string) :
  new_miner ts ms = Ok m →
  2 ≤ k → t ∈ ts → k ≤ length t → ¬ NoDup t →
  (min_support_count m ≤ 1)%Z →
  ∃ X : gset string,
    X ∈ dict_keys (find_frequent_k_itemsets m k)
    ∧ size X < k.
Proof.
  intros (n0 & c0 & _ & _ & ->)%new_miner_Ok Hk Ht Hlen Hdup Hms.
  assert (Hdup' : ¬ NoDup (py_sorted t)) by (by rewrite py_sorted_perm).
  assert (Hlen' : 2 ≤ k ≤ length (py_sorted t)).
  { by rewrite py_sorted_perm. }
  destruct (sublist_with_repeat _ k Hdup' Hlen') as (c & Hc & Hcl & Hcd).
  apply combinations_sublist in Hc. rewrite Hcl in Hc.
  exists (list_to_set c). split.
  - apply frequent_k_itemsets_key; [lia|].
    assert (0 < occurrences (list_to_set c : gset string)
                            (ts ≫= itemset_keys k)); [|lia].
    apply occurrences_pos, list_elem_of_bind. exists t. split; [|done].
    apply elem_of_itemset_keys. split; [done|]. by exists c.
  - rewrite <-Hcl. by apply size_list_to_set_repeat.
Qed.

(** With [min_support = 0.0]. *)
Lemma k_itemsets_key_smaller_than_k_witness :
  ∃ m, new_miner [["a"; "a"; "b"]]%string float_zero = Ok m
       ∧ ∃ X : gset string,
           X ∈ dict_keys (find_frequent_k_itemsets m 2)
           ∧ size X < 2.
Proof.
  exists (miner_with_count [["a"; "a"; "b"]]%string float_zero 0).
  split; [vm_compute; reflexivity|].
  apply (k_itemsets_key_smaller_than_k
           [["a"; "a"; "b"]]%string float_zero _ 2 ["a"; "a"; "b"]%string).
  - vm_compute; reflexivity.
  - lia.
  - left.
  - simpl. lia.
  - intros Hnd. apply NoDup_cons in Hnd as [Hin _]. apply Hin. left.
  - vm_compute. discriminate.
Defined.

(** C3, for transactions without repeated items: a frequent [k]-itemset has
    all its [(k-1)]-subsets among the frequent [(k-1)]-itemsets, and for
    [k = 2] among the frequent 1-itemsets. *)
Theorem apriori_monotonicity_nodup (ts : list (list string)) (ms : float)
    (m : FrequentItemsetMiner) (k : nat) (X Y : gset string) :
  new_miner ts ms = Ok m →
  Forall NoDup ts → 2 ≤ k →
  X ∈ dict_keys (find_frequent_k_itemsets m k) →
  Y ⊆ X → size Y = k - 1 →
  Y ∈ dict_keys (find_frequent_k_itemsets m (k - 1))
  ∧ (k = 2 → Y ∈ dict_keys (find_frequent_1_itemsets m)).
Proof.
  intros (n0 & c0 & _ & _ & ->)%new_miner_Ok Hnd Hk HX HYX HY.
  apply frequent_k_itemsets_key in HX; [|lia].
  assert (Hsub : ∀ t, t ∈ ts → 0 < occurrences X (itemset_keys k t) →
            occurrences X (itemset_keys k t) ≤ 1
            ∧ X ∈ itemset_keys k t ∧ ∀ y, y ∈ Y → y ∈ py_sorted t).
  { intros t Ht Hpos. apply occurrences_elem in Hpos as HXt.
    split; [|split; [done|]].
    - unfold itemset_keys. case_bool_decide; [|cbn; lia].
      apply combinations_set_once. rewrite py_sorted_perm.
      by eapply Forall_forall in Hnd.
    - apply elem_of_itemset_keys in HXt as (_ & c & Hc & <-).
      intros y Hy. apply (combinations_elem _ k c); [done|].
      apply (elem_of_list_to_set (C := gset string)). by apply HYX. }
  split.
  - apply frequent_k_itemsets_key; [lia|].
    assert (occurrences X (ts ≫= itemset_keys k)
            ≤ occurrences Y (ts ≫= itemset_keys (k - 1))); [|lia].
    apply occurrences_bind_le. intros t Ht.
    destruct (decide (0 < occurrences X (itemset_keys k t))) as [Hpos|]; [|lia].
    destruct (Hsub t Ht Hpos) as (Hle & HXt & HYt).
    assert (0 < occurrences Y (itemset_keys (k - 1) t)); [|lia].
    apply occurrences_pos, elem_of_itemset_keys.
    apply elem_of_itemset_keys in HXt as [Hlen _].
    split; [lia|]. by apply combinations_set_exists.
  - intros ->. apply frequent_1_itemsets_key.
    assert (occurrences X (ts ≫= itemset_keys 2)
            ≤ occurrences Y (ts ≫= item_keys)); [|lia].
    apply occurrences_bind_le. intros t Ht.
    destruct (decide (0 < occurrences X (itemset_keys 2 t))) as [Hpos|]; [|lia].
    destruct (Hsub t Ht Hpos) as (Hle & HXt & HYt).
    assert (0 < occurrences Y (item_keys t)); [|lia].
    apply size_1_elem_of in HY as [y Hy%leibniz_equiv].
    apply occurrences_pos. unfold item_keys. apply list_elem_of_fmap.
    exists y. split; [done|]. rewrite <-py_sorted_perm. apply HYt.
    rewrite Hy. by apply elem_of_singleton.
Qed.

(** With [min_support = 0.4], the float [7205759403792794 * 2^-54]. *)
Lemma apriori_monotonicity_nodup_witness :
  let ts := [["Bread"; "Milk"; "Eggs"]; ["Bread"; "Butter"]; ["Milk"; "Eggs"];
             ["Bread"; "Milk"; "Butter"]; ["Bread"; "Eggs"]]%string in
  ∃ m, new_miner ts (float_lit 7205759403792794 (-54)) = Ok m
       ∧ min_support_count m = 2%Z
       ∧ {["Bread"]}%string
           ∈ dict_keys (find_frequent_k_itemsets m (2 - 1))
       ∧ (2 = 2 → {["Bread"]}%string
                    ∈ dict_keys (find_frequent_1_itemsets m)).
Proof.
  intros ts.
  exists (miner_with_count ts (float_lit 7205759403792794 (-54)) 2).
  split; [vm_compute; reflexivity|]. split; [reflexivity|].
  apply (apriori_monotonicity_nodup ts (float_lit 7205759403792794 (-54)) _ 2
           {["Bread"; "Milk"]}%string {["Bread"]}%string).
  - vm_compute; reflexivity.
  - repeat constructor; set_solver.
  - lia.
  - apply (bool_decide_unpack _). by vm_compute.
  - set_solver.
  - by vm_compute.
Defined.

(** ** Association rules over duplicate-free transactions *)

Lemma Q_of_nat_pos n : 0 < n → (0 < Q_of_nat n)%Q.
Proof. intros Hn. unfold Q_of_nat, Qlt; simpl. lia. Qed.

Lemma Q_of_nat_le a b : a ≤ b → (Q_of_nat a <= Q_of_nat b)%Q.
Proof. intros Hab. unfold Q_of_nat, Qle; simpl. lia. Qed.




Lemma pair_of_Some c a b : pair_of c = Some (a, b) → c = [a; b].
Proof.
  destruct c as [|x [|y [|? ?]]]; cbn [pair_of]; intros; by simplify_eq.
Qed.

Lemma pair_keys_once t a b :
  NoDup t → occurrences (a, b) (pair_keys t) ≤ 1.
Proof.
  intros Hnd. unfold pair_keys. case_bool_decide; [|cbn; lia].
  etrans; [|apply (combinations_set_once (py_sorted t) 2 (list_to_set [a; b]))].
  - apply occurrences_omap_le. by intros c _ ->%pair_of_Some.
  - by rewrite py_sorted_perm.
Qed.

Lemma pair_keys_items t a b : (a, b) ∈ pair_keys t → a ∈ t ∧ b ∈ t.
Proof.
  unfold pair_keys. case_bool_decide; [|by intros ?%elem_of_nil].
  intros (c & Hc & ->%pair_of_Some)%list_elem_of_omap.
  rewrite <-(py_sorted_perm t).
  split; apply (combinations_elem _ 2 [a; b]); [done| |done|].
  - left.
  - right. left.
Qed.












(** * Further properties of the graph *)

(** [add_edge] between two different items adds [w] to the weight in both
    directions and leaves every other weight as it was; the two [add_node]
    calls it makes do not touch weights. *)
Theorem add_edge_accumulates (g : ProductGraph) (a b : string) (w : Z)
    (x y : string) :
  a ≠ b →
  get_edge_weight (add_edge g a b w) x y
  = if decide ((x = a ∧ y = b) ∨ (x = b ∧ y = a))
    then (get_edge_weight g x y + w)%Z
    else get_edge_weight g x y.
Proof.
  intros Hab. rewrite !get_edge_weight_lookup2, add_edge_lookup2. cbn zeta.
  rewrite !add_half_edge_lookup2, !add_node_lookup2.
  repeat case_decide; destruct_and?; destruct_or?; destruct_and?;
    simplify_eq; try done; exfalso; naive_solver.
Qed.

Lemma add_edge_accumulates_witness :
  let g := add_edge empty_graph "Bread" "Milk" 5 in
  "Bread"%string ≠ "Milk"%string
  ∧ get_edge_weight (add_edge g "Bread" "Milk" 2) "Milk" "Bread"
    = if decide (("Milk"%string = "Bread"%string ∧ "Bread"%string = "Milk"%string)
                 ∨ ("Milk"%string = "Milk"%string ∧ "Bread"%string = "Bread"%string))
      then (get_edge_weight g "Milk" "Bread" + 2)%Z
      else get_edge_weight g "Milk" "Bread".
Proof.
  intros g. assert (Hne : "Bread"%string ≠ "Milk"%string) by discriminate.
  split; [exact Hne|].
  exact (add_edge_accumulates g "Bread" "Milk" 2 "Milk" "Bread" Hne).
Defined.

(** [add_node] is idempotent, makes the item a node, keeps the other nodes
    and changes no edge weight. *)
Theorem add_node_idempotent (g : ProductGraph) (item : string) :
  add_node (add_node g item) item = add_node g item
  ∧ nodes (add_node g item) = {[item]} ∪ nodes g
  ∧ ∀ a b, get_edge_weight (add_node g item) a b = get_edge_weight g a b.
Proof.
  split; [|split].
  - unfold add_node at 1. rewrite decide_True; [done|].
    rewrite add_node_nodes. set_solver.
  - apply add_node_nodes.
  - intros a b. by rewrite !get_edge_weight_lookup2, add_node_lookup2.
Qed.

Lemma remove_node_lookup2 g item a b :
  graph_wf g → item ∈ nodes g →
  lookup2 (graph (remove_node g item)) a b
  = if decide (a = item ∨ b = item) then None else lookup2 (graph g) a b.
Proof.
  intros [Hn Hs] Hin. unfold remove_node. rewrite decide_True by done.
  apply Hn in Hin as [d Hd]. unfold dd_getitem. rewrite Hd. cbn [graph].
  rewrite dict_del_lookup2, remove_back_edges_lookup2.
  assert (Hd' : ∀ z, z ∉ dict_keys d → lookup2 (graph g) z item = None).
  { intros z Hz. rewrite Hs. unfold lookup2. rewrite Hd. simpl.
    by apply dict_get_None_keys. }
  repeat case_decide; destruct_and?; destruct_or?; simplify_eq; try done;
    first [ by apply Hd'; naive_solver
          | by symmetry; apply Hd'; naive_solver
          | by exfalso; naive_solver ].
Qed.

(** In a graph built through the public interface, [remove_node] takes the
    item out of the node set, leaves no edge to or from it, and keeps every
    weight between other items; for an item that is not a node it does
    nothing. *)
Theorem remove_node_effect (g : ProductGraph) (item : string) :
  reachable_graph g →
  nodes (remove_node g item) = nodes g ∖ {[item]}
  ∧ (∀ y, get_edge_weight (remove_node g item) item y = 0%Z
          ∧ get_edge_weight (remove_node g item) y item = 0%Z)
  ∧ (∀ a b, a ≠ item → b ≠ item →
       get_edge_weight (remove_node g item) a b = get_edge_weight g a b)
  ∧ (item ∉ nodes g → remove_node g item = g).
Proof.
  intros Hwf%reachable_graph_wf.
  destruct (decide (item ∈ nodes g)) as [Hin|Hnin].
  - pose proof (remove_node_lookup2 g item) as Hl.
    split; [|split; [|split]].
    + unfold remove_node. rewrite decide_True by done.
      unfold dd_getitem. by destruct (dict_get item (graph g)).
    + intros y. rewrite !get_edge_weight_lookup2, !Hl by done.
      rewrite !decide_True by auto. done.
    + intros a b Ha Hb. rewrite !get_edge_weight_lookup2, Hl by done.
      rewrite decide_False by naive_solver. done.
    + done.
  - assert (Heq : remove_node g item = g).
    { unfold remove_node. by rewrite decide_False. }
    rewrite Heq. split; [set_solver|]. split; [|done].
    intros y. destruct Hwf as [Hn Hs].
    assert (Hnone : dict_get item (graph g) = None).
    { apply eq_None_not_Some. by rewrite <-Hn. }
    rewrite !get_edge_weight_lookup2. rewrite (Hs y item).
    unfold lookup2. rewrite Hnone. done.
Qed.

Lemma remove_node_effect_witness :
  let g := run_ops [OpAddEdge "Bread" "Milk" 5; OpAddEdge "Milk" "Eggs" 4] in
  reachable_graph g
  ∧ nodes (remove_node g "Milk") = nodes g ∖ {["Milk"%string]}
  ∧ (∀ y, get_edge_weight (remove_node g "Milk") "Milk" y = 0%Z
          ∧ get_edge_weight (remove_node g "Milk") y "Milk" = 0%Z)
  ∧ (∀ a b, a ≠ "Milk"%string → b ≠ "Milk"%string →
       get_edge_weight (remove_node g "Milk") a b = get_edge_weight g a b)
  ∧ ("Milk"%string ∉ nodes g → remove_node g "Milk" = g).
Proof.
  intros g. assert (Hr : reachable_graph g) by (eexists; reflexivity).
  split; [exact Hr|]. exact (remove_node_effect g "Milk" Hr).
Defined.

Lemma has_edge_lookup2 g a b :
  has_edge g a b ↔ is_Some (lookup2 (graph g) a b).
Proof.
  unfold has_edge, get_neighbors, lookup2.
  destruct (dict_get a (graph g)) as [d|]; cbn [mbind option_bind].
  - apply dict_keys_get.
  - split; [by intros ?%elem_of_nil|by intros [? ?]].
Qed.

Lemma graph_wf_has_edge_sym g a b : graph_wf g → has_edge g a b → has_edge g b a.
Proof.
  intros [_ Hs]. rewrite !has_edge_lookup2. by rewrite Hs.
Qed.

Lemma graph_wf_edge_source g a b : graph_wf g → has_edge g a b → a ∈ nodes g.
Proof.
  intros Hwf He. apply (graph_wf_edge_node g b a); [done|].
  by apply graph_wf_has_edge_sym.
Qed.

(** In a graph built through the public interface the node set is the key
    set of the adjacency dict, both endpoints of every adjacency entry are
    nodes, and adjacency is symmetric. *)
Theorem reachable_graph_adjacency (g : ProductGraph) :
  reachable_graph g →
  (∀ a, a ∈ nodes g ↔ is_Some (dict_get a (graph g)))
  ∧ (∀ a b, has_edge g a b → a ∈ nodes g ∧ b ∈ nodes g ∧ has_edge g b a).
Proof.
  intros Hwf%reachable_graph_wf. split; [apply Hwf|].
  intros a b He. split; [by eapply graph_wf_edge_source|].
  split; [by eapply graph_wf_edge_node|by apply graph_wf_has_edge_sym].
Qed.

Lemma reachable_graph_adjacency_witness :
  let g := run_ops [OpAddEdge "Bread" "Milk" 5; OpAddNode "Tea";
                    OpRemoveNode "Bread"] in
  reachable_graph g
  ∧ (∀ a, a ∈ nodes g ↔ is_Some (dict_get a (graph g)))
  ∧ (∀ a b, has_edge g a b → a ∈ nodes g ∧ b ∈ nodes g ∧ has_edge g b a).
Proof.
  intros g. assert (Hr : reachable_graph g) by (eexists; reflexivity).
  split; [exact Hr|]. exact (reachable_graph_adjacency g Hr).
Defined.

Lemma get_graph_info_nonempty_witness :
  let g := run_ops [OpAddEdge "Bread" "Milk" 5; OpAddEdge "Bread" "Butter" 3] in
  size (nodes g) ≠ 0
  ∧ ∃ info, get_graph_info g = Ok info
    ∧ dict_keys info = ["num_nodes"; "num_edges"; "avg_degree"; "max_degree";
                        "min_degree"; "density"]%string
    ∧ dict_get "density"%string info =
        Some (if bool_decide (1 < size (nodes g))
              then (Q_of_nat (2 * get_edge_count g)
                    / Q_of_nat (size (nodes g) * (size (nodes g) - 1)))%Q
              else 0%Q).
Proof.
  intros g. assert (Hne : size (nodes g) ≠ 0) by (vm_compute; discriminate).
  split; [exact Hne|]. exact (get_graph_info_nonempty g Hne).
Defined.

(** * Further properties of the traversals *)

Lemma is_walk_reverse g a p b :
  graph_wf g → is_walk g a p b → is_walk g b (reverse p) a.
Proof.
  intros Hwf. induction 1 as [a|a y p b He Hw IH].
  - apply walk_here.
  - rewrite reverse_cons. apply (is_walk_snoc g b (reverse p) y a); [done|].
    by apply graph_wf_has_edge_sym.
Qed.

Lemma is_walk_closed g (X : string → Prop) a q x :
  (∀ v n, X v → has_edge g v n → X n) → X a → is_walk g a q x → X x.
Proof.
  intros Hcl Ha Hw. induction Hw as [a|a y p b He Hw IH]; [done|].
  apply IH. by apply (Hcl a).
Qed.

Lemma is_connected_walk g a b :
  a ∈ nodes g → b ∈ nodes g →
  is_connected g a b = Done true ↔ ∃ q, is_walk g a q b.
Proof.
  intros Ha Hb. destruct (find_path_spec g a b) as (r & Hr & _ & Hsome).
  unfold is_connected. rewrite Hr. split.
  - intros [= Hne%bool_decide_eq_true]. destruct r as [p|]; [|done].
    exists p. by apply Hsome.
  - intros [q Hq]. f_equal. apply bool_decide_eq_true. intros ->.
    by apply (find_path_none_unreachable g a b Ha Hb Hr q).
Qed.

Lemma is_connected_done g a b : ∃ v, is_connected g a b = Done v.
Proof.
  destruct (find_path_spec g a b) as (r & Hr & _).
  unfold is_connected. rewrite Hr. eauto.
Qed.

Lemma is_connected_unknown g a b :
  a ∉ nodes g ∨ b ∉ nodes g → is_connected g a b = Done false.
Proof.
  intros Hn. destruct (find_path_spec g a b) as (r & Hr & Hnone & _).
  unfold is_connected. rewrite Hr, (Hnone Hn). done.
Qed.

(** For two nodes, [is_connected] is true exactly when some walk along
    adjacency entries joins them; it is false as soon as one item is not a
    node. *)
Theorem is_connected_iff_walk (g : ProductGraph) (a b : string) :
  (a ∈ nodes g → b ∈ nodes g →
   is_connected g a b = Done true ↔ ∃ q, is_walk g a q b)
  ∧ (a ∉ nodes g ∨ b ∉ nodes g → is_connected g a b = Done false).
Proof.
  split; [apply is_connected_walk|apply is_connected_unknown].
Qed.

Lemma is_connected_iff_walk_witness :
  let g := run_ops [OpAddEdge "Bread" "Milk" 5; OpAddEdge "Milk" "Eggs" 4;
                    OpAddNode "Tea"] in
  ("Bread"%string ∈ nodes g → "Eggs"%string ∈ nodes g →
   is_connected g "Bread" "Eggs" = Done true
   ↔ ∃ q, is_walk g "Bread" q "Eggs")
  ∧ ("Bread"%string ∉ nodes g ∨ "Eggs"%string ∉ nodes g →
     is_connected g "Bread" "Eggs" = Done false).
Proof. intros g. exact (is_connected_iff_walk g "Bread" "Eggs"). Defined.

(** In a graph built through the public interface [is_connected] is
    symmetric. *)
Theorem is_connected_symmetric (g : ProductGraph) (a b : string) :
  reachable_graph g → is_connected g a b = is_connected g b a.
Proof.
  intros Hwf%reachable_graph_wf.
  destruct (decide (a ∈ nodes g)) as [Ha|Ha]; last first.
  { rewrite !is_connected_unknown by auto. done. }
  destruct (decide (b ∈ nodes g)) as [Hb|Hb]; last first.
  { rewrite !is_connected_unknown by auto. done. }
  destruct (is_connected_done g a b) as [v Hv].
  destruct (is_connected_done g b a) as [v' Hv'].
  rewrite Hv, Hv'. f_equal.
  pose proof (is_connected_walk g a b Ha Hb) as Hab.
  pose proof (is_connected_walk g b a Hb Ha) as Hba.
  rewrite Hv in Hab. rewrite Hv' in Hba.
  assert (Hiff : v = true ↔ v' = true).
  { split; intros ->.
    - assert (Hw : ∃ q, is_walk g a q b) by (by apply Hab).
      destruct Hw as [q Hq]. assert (Done v' = Done true); [|by simplify_eq].
      apply Hba. exists (reverse q). by apply is_walk_reverse.
    - assert (Hw : ∃ q, is_walk g b q a) by (by apply Hba).
      destruct Hw as [q Hq]. assert (Done v = Done true); [|by simplify_eq].
      apply Hab. exists (reverse q). by apply is_walk_reverse. }
  destruct v, v'; naive_solver.
Qed.

Lemma is_connected_symmetric_witness :
  let g := run_ops [OpAddEdge "Bread" "Milk" 5; OpAddEdge "Milk" "Eggs" 4;
                    OpAddNode "Tea"] in
  reachable_graph g
  ∧ is_connected g "Bread" "Eggs" = is_connected g "Eggs" "Bread".
Proof.
  intros g. assert (Hr : reachable_graph g) by (eexists; reflexivity).
  split; [exact Hr|]. exact (is_connected_symmetric g "Bread" "Eggs" Hr).
Defined.

(** The unbounded [bfs] loop ends with every item it was given and every
    neighbour of an item of its result in the result. *)
Lemma bfs_loop_closed g fuel :
  ∀ visited queue result r,
    (∀ x, x ∈ visited ↔ x ∈ result) →
    (∀ v n, v ∈ visited → has_edge g v n → n ∈ visited ∨ n ∈ queue.*1) →
    bfs_loop g None fuel visited queue result = Done r →
    (∀ x, x ∈ result ∨ x ∈ queue.*1 → x ∈ r)
    ∧ (∀ v n, v ∈ r → has_edge g v n → n ∈ r).
Proof.
  induction fuel as [|fuel IH]; intros visited queue result r Hvr Hcl Hr;
    [done|].
  destruct queue as [|[cur depth] queue]; cbn [bfs_loop] in Hr.
  { simplify_eq. split.
    - intros x [Hx|Hx]; [done|]. by apply elem_of_nil in Hx.
    - intros v n Hv He. apply Hvr.
      destruct (Hcl v n) as [?|Hq]; [by apply Hvr|done|done|].
      by apply elem_of_nil in Hq. }
  destruct (decide (cur ∈ visited)) as [Hin|Hnin].
  { destruct (IH visited queue result r Hvr) as [Hsub Hclr]; [|done|].
    - intros v n Hv He. destruct (Hcl v n Hv He) as [?|Hq]; [by left|].
      cbn [fmap list_fmap fst] in Hq.
      apply elem_of_cons in Hq as [->|Hq]; [by left|by right].
    - split; [|done]. intros x [Hx|Hx]; [apply Hsub; by left|].
      cbn [fmap list_fmap fst] in Hx.
      apply elem_of_cons in Hx as [->|Hx].
      + apply Hsub. left. by apply Hvr.
      + apply Hsub. by right. }
  cbn [depth_exceeded] in Hr.
  apply IH in Hr as [Hsub Hclr].
  - split; [|done]. intros x [Hx|Hx].
    + apply Hsub. left. apply elem_of_app. by left.
    + cbn [fmap list_fmap fst] in Hx. apply elem_of_cons in Hx as [->|Hx].
      * apply Hsub. left. apply elem_of_app. right. left.
      * apply Hsub. right. rewrite fmap_app. apply elem_of_app. by left.
  - intros x. rewrite elem_of_app, list_elem_of_singleton, <-Hvr. set_solver.
  - intros v n Hv He.
    destruct (decide (n ∈ {[cur]} ∪ visited)) as [?|Hn]; [by left|right].
    rewrite fmap_app. apply elem_of_app.
    apply elem_of_union in Hv as [->%elem_of_singleton|Hv].
    + right. rewrite <-list_fmap_compose. apply list_elem_of_fmap.
      exists n. split; [done|]. by apply list_elem_of_filter.
    + left. destruct (Hcl v n Hv He) as [?|Hq]; [set_solver|].
      cbn [fmap list_fmap fst] in Hq.
      apply elem_of_cons in Hq as [->|Hq]; [set_solver|done].
Qed.

(** [bfs(start)] without a depth limit returns exactly the items that a
    walk from [start] reaches, whatever the state of the graph object. *)
Theorem bfs_reaches_exactly (g : ProductGraph) (start_item : string) :
  start_item ∈ nodes g →
  ∃ r, bfs g start_item None = Done r
       ∧ ∀ x, x ∈ r ↔ ∃ q, is_walk g start_item q x.
Proof.
  intros Hin. unfold bfs, get_all_nodes. rewrite decide_True by done.
  destruct (bfs_loop_spec g None (λ x, ∃ q, is_walk g start_item q x))
    with (fuel := loop_fuel g) (visited := (∅ : gset string))
         (queue := [(start_item, 0%Z)]) (result := @nil string)
    as (r & Hr & _ & _ & Hall).
  - intros x y [q Hq] He. exists (q ++ [y]). by eapply is_walk_snoc.
  - unfold loop_fuel. rewrite unvisited_size_empty. simpl. lia.
  - apply NoDup_nil_2.
  - intros x Hx. by apply elem_of_nil in Hx.
  - done.
  - apply Forall_singleton. exists [start_item]. apply walk_here.
  - exists r. split; [done|]. intros x. split.
    + intros Hx. by eapply Forall_forall in Hall.
    + intros [q Hq].
      destruct (bfs_loop_closed g (loop_fuel g) ∅ [(start_item, 0%Z)] [] r)
        as [Hsub Hcl]; [set_solver|set_solver|done|].
      apply (is_walk_closed g (λ x, x ∈ r) start_item q x); [done| |done].
      apply Hsub. right. left.
Qed.

Lemma bfs_reaches_exactly_witness :
  let g := run_ops [OpAddEdge "Bread" "Milk" 5; OpAddEdge "Milk" "Eggs" 4;
                    OpAddNode "Tea"] in
  "Bread"%string ∈ nodes g
  ∧ ∃ r, bfs g "Bread" None = Done r
         ∧ ∀ x, x ∈ r ↔ ∃ q, is_walk g "Bread" q x.
Proof.
  intros g. assert (Hin : "Bread"%string ∈ nodes g).
  { apply (bool_decide_unpack _). by vm_compute. }
  split; [exact Hin|]. exact (bfs_reaches_exactly g "Bread" Hin).
Defined.

(** ** [get_items_within_distance] *)

Fixpoint within_distance_loop (g : ProductGraph) (distance : Z) (fuel : nat)
    (visited : gset string) (queue : list (string * Z))
  : outcome (gset string) :=
  match fuel with
  | 0 => OutOfFuel
  | S fuel' =>
      match queue with
      | [] => Done visited
      | (current_item, current_dist) :: queue' =>
          if decide (current_item ∈ visited) then
            within_distance_loop g distance fuel' visited queue'
          else if bool_decide (distance < current_dist)%Z then
            within_distance_loop g distance fuel' visited queue'
          else
            let visited' := {[current_item]} ∪ visited in
            let neighbors := dict_keys (get_neighbors g current_item) in
            within_distance_loop g distance fuel' visited'
              (queue' ++ ((λ neighbor, (neighbor, (current_dist + 1)%Z)) <$>
                           filter (λ neighbor, neighbor ∉ visited') neighbors))
      end
  end.

Definition get_items_within_distance (g : ProductGraph) (start_item : string)
    (distance : Z) : outcome (gset string) :=
  if decide (start_item ∈ get_all_nodes g) then
    within_distance_loop g distance (loop_fuel g) ∅ [(start_item, 0%Z)]
  else Done ∅.

(** The two loops make the same moves: the distance loop returns the set of
    the items the depth-limited [bfs] loop lists. *)
Lemma within_distance_loop_bfs g distance fuel :
  ∀ visited queue result,
    list_to_set result = visited →
    within_distance_loop g distance fuel visited queue
    = match bfs_loop g (Some distance) fuel visited queue result with
      | Done r => Done (list_to_set r)
      | OutOfFuel => OutOfFuel
      end.
Proof.
  induction fuel as [|fuel IH]; intros visited queue result Hset; [done|].
  destruct queue as [|[cur dist] queue];
    cbn [within_distance_loop bfs_loop depth_exceeded].
  { by rewrite Hset. }
  destruct (decide (cur ∈ visited)); [by apply IH|].
  destruct (bool_decide (distance < dist)%Z); [by apply IH|].
  apply IH. rewrite list_to_set_app_L, Hset. set_solver.
Qed.

Lemma bfs_done g start_item max_depth :
  ∃ r, bfs g start_item max_depth = Done r.
Proof.
  unfold bfs. destruct (decide (start_item ∈ get_all_nodes g)); [|by eexists].
  destruct (bfs_loop_spec g max_depth (λ _, True))
    with (fuel := loop_fuel g) (visited := (∅ : gset string))
         (queue := [(start_item, 0%Z)]) (result := @nil string)
    as (r & Hr & _).
  - done.
  - unfold loop_fuel. rewrite unvisited_size_empty. simpl. lia.
  - apply NoDup_nil_2.
  - intros x Hx. by apply elem_of_nil in Hx.
  - done.
  - by apply Forall_singleton.
  - by exists r.
Qed.

Lemma within_distance_as_bfs g start_item distance :
  ∃ r, bfs g start_item (Some distance) = Done r
       ∧ get_items_within_distance g start_item distance
         = Done (list_to_set r).
Proof.
  destruct (bfs_done g start_item (Some distance)) as [r Hr].
  exists r. split; [done|]. revert Hr.
  unfold bfs, get_items_within_distance.
  destruct (decide (start_item ∈ get_all_nodes g)).
  - intros Hr. rewrite (within_distance_loop_bfs g distance _ ∅ _ []) by done.
    by rewrite Hr.
  - by intros [= <-].
Qed.

(** [get_items_within_distance(start, d)] is the set of the items of
    [bfs(start, max_depth=d)], for every graph state, start item and [d]. *)
Theorem items_within_distance_bfs (g : ProductGraph) (start_item : string)
    (distance : Z) :
  ∃ r, bfs g start_item (Some distance) = Done r
       ∧ get_items_within_distance g start_item distance
         = Done (list_to_set r).
Proof. apply within_distance_as_bfs. Qed.

(** Items listed by the depth-limited loop are reached by walks of at most
    [d] edges from the start item. *)
Lemma bfs_loop_depth g start_item d fuel :
  ∀ visited queue result r,
    (∀ n dep, (n, dep) ∈ queue →
       ∃ q, is_walk g start_item q n ∧ Z.of_nat (path_edges q) = dep) →
    (∀ x, x ∈ result →
       ∃ q, is_walk g start_item q x ∧ (Z.of_nat (path_edges q) ≤ d)%Z) →
    bfs_loop g (Some d) fuel visited queue result = Done r →
    ∀ x, x ∈ r →
      ∃ q, is_walk g start_item q x ∧ (Z.of_nat (path_edges q) ≤ d)%Z.
Proof.
  induction fuel as [|fuel IH]; intros visited queue result r Hq Hres Hr;
    [done|].
  destruct queue as [|[cur dep] queue]; cbn [bfs_loop depth_exceeded] in Hr.
  { by simplify_eq. }
  assert (Hq' : ∀ n dep0, (n, dep0) ∈ queue →
            ∃ q, is_walk g start_item q n ∧ Z.of_nat (path_edges q) = dep0).
  { intros n dep0 Hin. apply Hq. by right. }
  destruct (decide (cur ∈ visited)) as [Hcur|Hcur]; [by eapply IH|].
  destruct (bool_decide (d < dep)%Z) eqn:Hd; [by eapply IH|].
  apply bool_decide_eq_false in Hd.
  destruct (Hq cur dep) as (qc & Hqc & Hlen); [left|].
  eapply IH; [| |exact Hr].
  - intros n dep0 [Hin|Hin]%elem_of_app; [by apply Hq'|].
    apply list_elem_of_fmap in Hin as (n' & Heq & Hn).
    apply list_elem_of_filter in Hn as [_ Hn]. simplify_eq.
    eexists (qc ++ [_]). split; [by eapply is_walk_snoc|].
    pose proof (is_walk_length _ _ _ _ Hqc).
    unfold path_edges in *. rewrite length_app. cbn [length]. lia.
  - intros x [Hx| ->%list_elem_of_singleton]%elem_of_app; [by apply Hres|].
    exists qc. split; [done|lia].
Qed.

(** Every item of [get_items_within_distance(start, d)] is reached from
    [start] by a walk of at most [d] edges; [start] itself is in the set
    exactly when it is a node and [d >= 0]; an unknown start item gives the
    empty set. *)
Theorem items_within_distance_sound (g : ProductGraph) (start_item : string)
    (distance : Z) :
  ∃ V, get_items_within_distance g start_item distance = Done V
       ∧ (∀ x, x ∈ V →
            ∃ q, is_walk g start_item q x
                 ∧ (Z.of_nat (path_edges q) ≤ distance)%Z)
       ∧ (start_item ∈ V ↔ start_item ∈ nodes g ∧ (0 ≤ distance)%Z)
       ∧ (start_item ∉ nodes g → V = ∅).
Proof.
  destruct (within_distance_as_bfs g start_item distance)
    as (r & Hbfs & Hw).
  exists (list_to_set r). split; [done|].
  assert (Hsound : ∀ x, x ∈ r →
            ∃ q, is_walk g start_item q x
                 ∧ (Z.of_nat (path_edges q) ≤ distance)%Z).
  { revert Hbfs. unfold bfs.
    destruct (decide (start_item ∈ get_all_nodes g));
      [|by intros [= <-] x ?%elem_of_nil].
    apply bfs_loop_depth.
    - intros n dep Hin%list_elem_of_singleton. simplify_eq.
      exists [start_item]. split; [apply walk_here|done].
    - by intros x ?%elem_of_nil. }
  split; [|split].
  - intros x Hx%elem_of_list_to_set. by apply Hsound.
  - rewrite elem_of_list_to_set. split.
    + intros Hin. destruct (Hsound _ Hin) as (q & _ & Hd).
      split; [|lia]. revert Hbfs Hin. unfold bfs, get_all_nodes.
      destruct (decide (start_item ∈ nodes g)); [done|].
      by intros [= <-] ?%elem_of_nil.
    + intros [Hin Hd]. revert Hbfs. unfold bfs, get_all_nodes.
      rewrite decide_True by done.
      change (loop_fuel g) with (S (S (adjacency_size (graph g)))).
      cbn [bfs_loop depth_exceeded]. rewrite decide_False by set_solver.
      rewrite bool_decide_eq_false_2 by lia. intros Hr.
      destruct (bfs_loop_spec g (Some distance) (λ _, True))
        with (fuel := S (adjacency_size (graph g)))
             (visited := {[start_item]} ∪ (∅ : gset string))
             (queue := [] ++ ((λ neighbor, (neighbor, (0 + 1)%Z)) <$>
                 filter (λ neighbor, neighbor ∉ {[start_item]} ∪ (∅ : gset string))
                        (dict_keys (get_neighbors g start_item))))
             (result := [] ++ [start_item])
        as (r' & Hr' & _ & Hpre & _).
      * done.
      * cbn [app]. rewrite length_fmap.
        pose proof (length_unvisited_neighbors g start_item
                      ({[start_item]} ∪ ∅)).
        assert (Hfresh : start_item ∉ (∅ : gset string)) by set_solver.
        pose proof (unvisited_size_visit g start_item ∅ Hfresh) as Hv.
        rewrite unvisited_size_empty in Hv. lia.
      * apply NoDup_singleton.
      * intros x ->%list_elem_of_singleton. set_solver.
      * by apply Forall_singleton.
      * by apply Forall_forall.
      * assert (Heq : Done r = Done r').
        { etrans; [symmetry; exact Hr|exact Hr']. }
        simplify_eq. destruct Hpre as [k ->]. left.
  - intros Hnin. revert Hbfs. unfold bfs, get_all_nodes.
    rewrite decide_False by done. by intros [= <-].
Qed.

(** ** [dfs] *)

(** The state the recursive helper shares: [visited] and [result]. *)
Definition dfs_state : Type := gset string * list string.

(** The [for neighbor in neighbors] loop of [dfs_recursive]; [visit] is the
    recursive call. *)
Fixpoint dfs_neighbors (visit : string → dfs_state → outcome dfs_state)
    (neighbors : list string) (st : dfs_state) : outcome dfs_state :=
  match neighbors with
  | [] => Done st
  | neighbor :: rest =>
      if decide (neighbor ∈ st.1) then dfs_neighbors visit rest st
      else match visit neighbor st with
           | Done st' => dfs_neighbors visit rest st'
           | OutOfFuel => OutOfFuel
           end
  end.

(** [dfs_recursive(item, depth)]; [fuel] bounds the depth of the recursion
    (the interpreter's own recursion limit is not modelled). *)
Fixpoint dfs_recursive (g : ProductGraph) (max_depth : option Z) (fuel : nat)
    (item : string) (depth : Z) (st : dfs_state) : outcome dfs_state :=
  match fuel with
  | 0 => OutOfFuel
  | S fuel' =>
      if decide (item ∈ st.1) then Done st
      else if depth_exceeded max_depth depth then Done st
      else
        dfs_neighbors
          (λ neighbor st',
             dfs_recursive g max_depth fuel' neighbor (depth + 1)%Z st')
          (dict_keys (get_neighbors g item))
          ({[item]} ∪ st.1, st.2 ++ [item])
  end.

Definition dfs_fuel (g : ProductGraph) : nat := S (length (graph g)).

Definition dfs (g : ProductGraph) (start_item : string) (max_depth : option Z)
  : outcome (list string) :=
  if decide (start_item ∈ get_all_nodes g) then
    match dfs_recursive g max_depth (dfs_fuel g) start_item 0%Z (∅, []) with
    | Done st => Done st.2
    | OutOfFuel => OutOfFuel
    end
  else Done [].

(** The keys of the adjacency dict, as a set. *)
Definition graph_keys (g : ProductGraph) : gset string :=
  list_to_set (dict_keys (graph g)).

(** What holds of the shared state between calls. *)
Definition dfs_inv (P : string → Prop) (st : dfs_state) : Prop :=
  NoDup st.2 ∧ (∀ x, x ∈ st.2 ↔ x ∈ st.1) ∧ Forall P st.2.

(** What one call, or one loop, does to the state. *)
Definition dfs_grows (P : string → Prop) (st st' : dfs_state) : Prop :=
  dfs_inv P st' ∧ st.1 ⊆ st'.1 ∧ st.2 `prefix_of` st'.2.

Lemma dfs_grows_refl P st : dfs_inv P st → dfs_grows P st st.
Proof. intros Hinv. split; [done|]. split; done. Qed.

Lemma dfs_grows_trans P st1 st2 st3 :
  dfs_grows P st1 st2 → dfs_grows P st2 st3 → dfs_grows P st1 st3.
Proof.
  intros (_ & Hs1 & Hp1) (Hinv & Hs2 & Hp2). split; [done|]. split.
  - set_solver.
  - by etrans.
Qed.

Lemma dfs_neighbors_spec P visit (V0 : gset string) neighbors :
  (∀ n st, V0 ⊆ st.1 → dfs_inv P st → P n →
     ∃ st', visit n st = Done st' ∧ dfs_grows P st st') →
  ∀ st, V0 ⊆ st.1 → dfs_inv P st → Forall P neighbors →
    ∃ st', dfs_neighbors visit neighbors st = Done st' ∧ dfs_grows P st st'.
Proof.
  intros Hvisit. induction neighbors as [|n ns IH]; intros st HV0 Hinv HP.
  { exists st. split; [done|]. by apply dfs_grows_refl. }
  apply Forall_cons in HP as [HPn HPns]. cbn [dfs_neighbors].
  destruct (decide (n ∈ st.1)); [by apply IH|].
  destruct (Hvisit n st HV0 Hinv HPn) as (st1 & -> & Hg1).
  destruct (IH st1) as (st2 & Hst2 & Hg2); [|apply Hg1|done|].
  { destruct Hg1 as (_ & ? & _). set_solver. }
  exists st2. split; [done|]. by eapply dfs_grows_trans.
Qed.

Lemma graph_keys_neighbors g item :
  item ∉ graph_keys g → get_neighbors g item = [].
Proof.
  unfold graph_keys, get_neighbors. rewrite elem_of_list_to_set.
  intros Hk%dict_get_None_keys. by rewrite Hk.
Qed.

Lemma dfs_recursive_spec g max_depth (P : string → Prop) :
  (∀ x y, P x → has_edge g x y → P y) →
  ∀ fuel item depth st,
    size (graph_keys g ∖ st.1) < fuel → dfs_inv P st → P item →
    ∃ st', dfs_recursive g max_depth fuel item depth st = Done st'
           ∧ dfs_grows P st st'
           ∧ (item ∉ st.1 → depth_exceeded max_depth depth = false →
              (st.2 ++ [item]) `prefix_of` st'.2).
Proof.
  intros HP. induction fuel as [|fuel IH];
    intros item depth [V res] Hfuel Hinv HPi; [lia|].
  cbn [dfs_recursive fst snd] in *.
  destruct (decide (item ∈ V)) as [Hin|Hnin].
  { eexists. split; [done|]. split; [by apply dfs_grows_refl|done]. }
  destruct (depth_exceeded max_depth depth).
  { eexists. split; [done|]. split; [by apply dfs_grows_refl|done]. }
  destruct Hinv as (Hnd & Hvr & Hall). cbn [fst snd] in *.
  assert (Hinv1 : dfs_inv P ({[item]} ∪ V, res ++ [item])).
  { split; [|split]; cbn [fst snd].
    - apply NoDup_app. split; [done|]. split; [|apply NoDup_singleton].
      intros x Hx ->%list_elem_of_singleton. by apply Hnin, Hvr.
    - intros x. rewrite elem_of_app, list_elem_of_singleton, Hvr. set_solver.
    - apply Forall_app. split; [done|]. by apply Forall_singleton. }
  assert (Hnbrs : Forall P (dict_keys (get_neighbors g item))).
  { apply Forall_forall. intros n Hn. by apply (HP item). }
  destruct (decide (item ∈ graph_keys g)) as [Hk|Hk]; last first.
  { rewrite (graph_keys_neighbors g item Hk). cbn [dict_keys fmap list_fmap
      dfs_neighbors]. eexists. split; [done|]. split; [|done].
    split; [done|]. cbn [fst snd]. split; [set_solver|by apply prefix_app_r]. }
  destruct (dfs_neighbors_spec P
              (λ neighbor st',
                 dfs_recursive g max_depth fuel neighbor (depth + 1)%Z st')
              ({[item]} ∪ V) (dict_keys (get_neighbors g item)))
    with (st := ({[item]} ∪ V, res ++ [item])) as (st' & Hst' & Hg);
    [|done|done|done|].
  - intros n st HV0 Hinvst HPn.
    destruct (IH n (depth + 1)%Z st) as (st1 & Hst1 & Hg1 & _);
      [|done|done|by exists st1].
    assert (Hlt : size (graph_keys g ∖ ({[item]} ∪ V))
                  < size (graph_keys g ∖ V)).
    { apply subset_size. set_solver. }
    assert (Hle : size (graph_keys g ∖ st.1)
                  ≤ size (graph_keys g ∖ ({[item]} ∪ V))).
    { apply subseteq_size. set_solver. }
    lia.
  - exists st'. split; [done|]. destruct Hg as (Hinv' & Hsub & Hpre).
    cbn [fst snd] in *. split; [|done].
    split; [done|]. split; [set_solver|]. by eapply prefix_app_l.
Qed.

Lemma graph_keys_size g : size (graph_keys g) ≤ length (graph g).
Proof.
  unfold graph_keys. etrans; [apply size_list_to_set_le|].
  unfold dict_keys. by rewrite length_fmap.
Qed.

Lemma dfs_inv_init P : dfs_inv P (∅, []).
Proof.
  split; [apply NoDup_nil_2|]. split; [|done].
  intros x. cbn [fst snd]. set_solver.
Qed.

Lemma dfs_recursive_init g max_depth P start_item :
  (∀ x y, P x → has_edge g x y → P y) → P start_item →
  ∃ st, dfs_recursive g max_depth (dfs_fuel g) start_item 0%Z (∅, []) = Done st
        ∧ dfs_inv P st
        ∧ (depth_exceeded max_depth 0 = false → [start_item] `prefix_of` st.2)
        ∧ (depth_exceeded max_depth 0 = true → st.2 = []).
Proof.
  intros HP HPs.
  destruct (dfs_recursive_spec g max_depth P HP (dfs_fuel g) start_item 0%Z
              (∅, [])) as (st & Hst & (Hinv & _) & Hpre);
    [|apply dfs_inv_init|done|].
  { cbn [fst]. unfold dfs_fuel. pose proof (graph_keys_size g).
    assert (size (graph_keys g ∖ ∅) ≤ size (graph_keys g)).
    { apply subseteq_size. set_solver. }
    lia. }
  exists st. split; [done|]. split; [done|]. split.
  - intros Hd. apply Hpre; [cbn [fst]; set_solver|done].
  - intros Hd. revert Hst. unfold dfs_fuel. cbn [dfs_recursive fst].
    rewrite decide_False by set_solver. rewrite Hd. by intros [= <-].
Qed.

(** In a graph built through the public interface, [dfs] from a node
    returns: the result has no item twice, holds only nodes, is no longer
    than the node count, and begins with the start item unless the depth
    limit is negative, in which case it is empty. An unknown start item
    gives the empty list. *)
Theorem dfs_properties (g : ProductGraph) (start_item : string)
    (max_depth : option Z) :
  reachable_graph g →
  (start_item ∈ nodes g →
   ∃ r, dfs g start_item max_depth = Done r
        ∧ NoDup r ∧ Forall (λ x, x ∈ nodes g) r
        ∧ length r ≤ get_node_count g
        ∧ head r = if depth_exceeded max_depth 0 then None
                   else Some start_item)
  ∧ (start_item ∉ nodes g → dfs g start_item max_depth = Done []).
Proof.
  intros Hwf%reachable_graph_wf. split; last first.
  { intros Hnin. unfold dfs, get_all_nodes. by rewrite decide_False. }
  intros Hin. unfold dfs, get_all_nodes. rewrite decide_True by done.
  destruct (dfs_recursive_init g max_depth (λ x, x ∈ nodes g) start_item)
    as (st & -> & (Hnd & _ & Hall) & Hpre & Hnil); [|done|].
  { intros x y _ He. by apply (graph_wf_edge_node g x y). }
  exists st.2. split; [done|]. split; [done|]. split; [done|].
  split; [by apply NoDup_length_le_size|].
  destruct (depth_exceeded max_depth 0).
  - by rewrite Hnil.
  - destruct Hpre as [k ->]; done.
Qed.

Lemma dfs_properties_witness :
  let g := run_ops [OpAddEdge "Bread" "Milk" 5; OpAddEdge "Bread" "Butter" 3;
                    OpAddEdge "Milk" "Eggs" 4; OpAddEdge "Bread" "Eggs" 2] in
  reachable_graph g
  ∧ (("Bread"%string ∈ nodes g →
      ∃ r, dfs g "Bread" (Some 1%Z) = Done r
           ∧ NoDup r ∧ Forall (λ x, x ∈ nodes g) r
           ∧ length r ≤ get_node_count g
           ∧ head r = if depth_exceeded (Some 1%Z) 0 then None
                      else Some "Bread"%string)
     ∧ ("Bread"%string ∉ nodes g → dfs g "Bread" (Some 1%Z) = Done [])).
Proof.
  intros g. assert (Hr : reachable_graph g) by (eexists; reflexivity).
  split; [exact Hr|]. exact (dfs_properties g "Bread" (Some 1%Z) Hr).
Defined.

(** Without a depth limit, a call leaves every neighbour of a newly visited
    item visited. *)
Definition dfs_closes (g : ProductGraph) (V V' : gset string) : Prop :=
  V ⊆ V' ∧ ∀ v n, v ∈ V' → v ∉ V → has_edge g v n → n ∈ V'.

Lemma dfs_neighbors_closed g visit neighbors :
  (∀ n st st', visit n st = Done st' →
     n ∈ st'.1 ∧ dfs_closes g st.1 st'.1) →
  ∀ st st', dfs_neighbors visit neighbors st = Done st' →
    (∀ n, n ∈ neighbors → n ∈ st'.1) ∧ dfs_closes g st.1 st'.1.
Proof.
  intros Hvisit. induction neighbors as [|n ns IH]; intros st st' Hst.
  { cbn [dfs_neighbors] in Hst. simplify_eq. split.
    - by intros n ?%elem_of_nil.
    - split; [done|]. intros v n Hv Hnv. done. }
  cbn [dfs_neighbors] in Hst. destruct (decide (n ∈ st.1)) as [Hn|Hn].
  - destruct (IH st st' Hst) as [Hall Hcl]. split; [|done].
    intros x [->|Hx]%elem_of_cons; [|by apply Hall].
    destruct Hcl as [Hsub _]. set_solver.
  - destruct (visit n st) as [st1|] eqn:Hv; [|done].
    destruct (Hvisit n st st1 Hv) as [Hn1 [Hsub1 Hcl1]].
    destruct (IH st1 st' Hst) as [Hall [Hsub2 Hcl2]]. split.
    + intros x [->|Hx]%elem_of_cons; [set_solver|by apply Hall].
    + split; [set_solver|]. intros v x Hv' Hnv He.
      destruct (decide (v ∈ st1.1)) as [Hv1|Hv1].
      * apply Hsub2. by apply (Hcl1 v x).
      * by apply (Hcl2 v x).
Qed.

Lemma dfs_recursive_closed g fuel :
  ∀ item depth st st',
    dfs_recursive g None fuel item depth st = Done st' →
    item ∈ st'.1 ∧ dfs_closes g st.1 st'.1.
Proof.
  induction fuel as [|fuel IH]; intros item depth st st' Hst; [done|].
  cbn [dfs_recursive depth_exceeded] in Hst.
  destruct (decide (item ∈ st.1)) as [Hin|Hnin].
  { simplify_eq. split; [done|]. split; [done|]. intros v n Hv Hnv. done. }
  apply (dfs_neighbors_closed g) in Hst as [Hall [Hsub Hcl]].
  - cbn [fst] in *. split; [set_solver|]. split; [set_solver|].
    intros v n Hv Hnv He. destruct (decide (v = item)) as [->|Hne].
    + by apply Hall.
    + apply (Hcl v n); [done|set_solver|done].
  - intros n st0 st1 Hv. by apply (IH n (depth + 1)%Z).
Qed.

(** [dfs(start)] without a depth limit returns exactly the items that a walk
    from [start] reaches, whatever the state of the graph object. *)
Theorem dfs_reaches_exactly (g : ProductGraph) (start_item : string) :
  start_item ∈ nodes g →
  ∃ r, dfs g start_item None = Done r
       ∧ ∀ x, x ∈ r ↔ ∃ q, is_walk g start_item q x.
Proof.
  intros Hin. unfold dfs, get_all_nodes. rewrite decide_True by done.
  destruct (dfs_recursive_init g None (λ x, ∃ q, is_walk g start_item q x)
              start_item) as (st & Hst & (Hnd & Hvr & Hall) & _).
  { intros x y [q Hq] He. exists (q ++ [y]). by eapply is_walk_snoc. }
  { exists [start_item]. apply walk_here. }
  rewrite Hst. exists st.2. split; [done|]. intros x. split.
  - intros Hx. by eapply Forall_forall in Hall.
  - intros [q Hq]. apply Hvr.
    apply dfs_recursive_closed in Hst as [Hs [_ Hcl]]. cbn [fst] in Hcl.
    apply (is_walk_closed g (λ x, x ∈ st.1) start_item q x); [|done|done].
    intros v n Hv He. apply (Hcl v n); [done|set_solver|done].
Qed.

Lemma dfs_reaches_exactly_witness :
  let g := run_ops [OpAddEdge "Bread" "Milk" 5; OpAddEdge "Milk" "Eggs" 4;
                    OpAddNode "Tea"] in
  "Bread"%string ∈ nodes g
  ∧ ∃ r, dfs g "Bread" None = Done r
         ∧ ∀ x, x ∈ r ↔ ∃ q, is_walk g "Bread" q x.
Proof.
  intros g. assert (Hin : "Bread"%string ∈ nodes g).
  { apply (bool_decide_unpack _). by vm_compute. }
  split; [exact Hin|]. exact (dfs_reaches_exactly g "Bread" Hin).
Defined.

(** ** Rankings: [get_top_connections] and the sorts by weight *)

(** [l[:n]] for an [int] [n]: a negative [n] counts from the end of [l]. *)
Definition py_slice_to {A} (n : Z) (l : list A) : list A :=
  if bool_decide (n < 0)%Z then take (length l - Z.to_nat (- n)) l
  else take (Z.to_nat n) l.

(** The order of [sorted(..., key=lambda x: x[1], reverse=True)]. *)
Definition by_weight_desc {K} (x y : K * Z) : bool :=
  bool_decide (y.2 ≤ x.2)%Z.

(** [graph.py], [get_top_connections] *)
Definition get_top_connections (g : ProductGraph) (item : string) (n : Z)
  : list (string * Z) :=
  match dict_get item (graph g) with
  | None => []
  | Some neighbors =>
      let sorted_neighbors := stable_sort by_weight_desc neighbors in
      py_slice_to n sorted_neighbors
  end.

(** [algorithms.py], [find_strongest_connections] *)
Definition find_strongest_connections (g : ProductGraph) (item : string)
    (n : Z) : list (string * Z) :=
  get_top_connections g item n.

Section stable_sort_facts.
Context {A : Type} (before : A → A → bool).
Hypothesis before_total : ∀ x y, before x y = true ∨ before y x = true.
Hypothesis before_trans :
  ∀ x y z, before x y = true → before y z = true → before x z = true.

Lemma stable_insert_sorted x l :
  StronglySorted (λ a b, before a b = true) l →
  StronglySorted (λ a b, before a b = true) (stable_insert before x l).
Proof.
  induction 1 as [|y l Hl IH Hy]; cbn [stable_insert].
  { repeat constructor. }
  destruct (before x y) eqn:Hxy.
  - constructor; [by constructor|]. constructor; [done|].
    eapply Forall_impl; [exact Hy|]. intros z Hz. by eapply before_trans.
  - constructor; [done|]. rewrite stable_insert_perm. constructor; [|done].
    destruct (before_total x y) as [Ht|Ht]; [congruence|done].
Qed.

Lemma stable_sort_sorted l :
  StronglySorted (λ a b, before a b = true) (stable_sort before l).
Proof.
  unfold stable_sort. induction l as [|x l IH]; cbn [foldr]; [constructor|].
  by apply stable_insert_sorted.
Qed.

End stable_sort_facts.

Lemma StronglySorted_weaken {A} (R1 R2 : relation A) (l : list A) :
  (∀ x y, R1 x y → R2 x y) → StronglySorted R1 l → StronglySorted R2 l.
Proof.
  intros HR. induction 1 as [|x l Hl IH Hx]; constructor; [done|].
  eapply Forall_impl; [exact Hx|]. intros y. apply HR.
Qed.

Lemma by_weight_desc_sorted {K} (l : list (K * Z)) :
  StronglySorted (λ x y, (y.2 ≤ x.2)%Z) (stable_sort by_weight_desc l).
Proof.
  eapply (StronglySorted_weaken (λ a b, by_weight_desc a b = true)).
  - intros x y Hxy. unfold by_weight_desc in Hxy.
    by apply bool_decide_eq_true in Hxy.
  - apply stable_sort_sorted.
    + intros x y. unfold by_weight_desc. rewrite !bool_decide_eq_true. lia.
    + intros x y z. unfold by_weight_desc. rewrite !bool_decide_eq_true. lia.
Qed.

Lemma py_slice_to_take {A} (n : Z) (l : list A) :
  ∃ k, py_slice_to n l = take k l
       ∧ ((0 ≤ n)%Z → k = Z.to_nat n)
       ∧ ((n < 0)%Z → k = length l - Z.to_nat (- n)).
Proof.
  unfold py_slice_to. case_bool_decide.
  - eexists. split; [done|]. split; [lia|done].
  - eexists. split; [done|]. split; [done|lia].
Qed.

(** A slice [l[:n]] of a list sorted by weight: what it leaves out is no
    heavier than what it keeps. *)
Lemma py_slice_to_sorted {K} (n : Z) (l : list (K * Z)) :
  StronglySorted (λ x y, (y.2 ≤ x.2)%Z) l →
  ∃ rest, py_slice_to n l ++ rest = l
          ∧ StronglySorted (λ x y, (y.2 ≤ x.2)%Z) (py_slice_to n l)
          ∧ ∀ x y, x ∈ py_slice_to n l → y ∈ rest → (y.2 ≤ x.2)%Z.
Proof.
  intros Hs. destruct (py_slice_to_take n l) as (k & -> & _).
  exists (drop k l). split; [apply take_drop|].
  rewrite <-(take_drop k l) in Hs. apply StronglySorted_app in Hs.
  destruct Hs as (H1 & H2 & H3). split; [done|]. intros x y Hx Hy.
  by apply H1.
Qed.

Lemma py_slice_to_length {A} (n : Z) (l : list A) :
  length (py_slice_to n l)
  = if bool_decide (n < 0)%Z then length l - Z.to_nat (- n)
    else Z.to_nat n `min` length l.
Proof.
  unfold py_slice_to. case_bool_decide; rewrite length_take; lia.
Qed.

Lemma get_top_connections_split g item n :
  ∃ rest, get_top_connections g item n ++ rest ≡ₚ get_neighbors g item
          ∧ StronglySorted (λ x y, (y.2 ≤ x.2)%Z) (get_top_connections g item n)
          ∧ ∀ x y, x ∈ get_top_connections g item n → y ∈ rest →
                   (y.2 ≤ x.2)%Z.
Proof.
  unfold get_top_connections, get_neighbors.
  destruct (dict_get item (graph g)) as [d|]; cbn zeta.
  - destruct (py_slice_to_sorted n (stable_sort by_weight_desc d))
      as (rest & Happ & Hs & Hle); [apply by_weight_desc_sorted|].
    exists rest. split; [|done]. rewrite Happ. apply stable_sort_perm.
  - exists []. split; [done|]. split; [constructor|].
    intros x y Hx. by apply elem_of_nil in Hx.
Qed.

(** [get_top_connections(item, n)] returns the neighbours of [item] in
    descending order of weight, cut to [n]: together with some remainder it
    is a rearrangement of the adjacency dict of [item], nothing left out is
    heavier than anything returned, and its length is [min(n, degree)] for
    [n >= 0] and [degree - |n|] (at least 0) for a negative [n]. An item
    without adjacency dict gives the empty list. *)
Theorem top_connections_heaviest (g : ProductGraph) (item : string) (n : Z) :
  let top := get_top_connections g item n in
  (∃ rest, top ++ rest ≡ₚ get_neighbors g item
           ∧ ∀ x y, x ∈ top → y ∈ rest → (y.2 ≤ x.2)%Z)
  ∧ StronglySorted (λ x y, (y.2 ≤ x.2)%Z) top
  ∧ length top = (if bool_decide (n < 0)%Z
                  then get_degree g item - Z.to_nat (- n)
                  else Z.to_nat n `min` get_degree g item).
Proof.
  cbn zeta. destruct (get_top_connections_split g item n)
    as (rest & Hperm & Hs & Hle).
  split; [by exists rest|]. split; [done|].
  unfold get_top_connections, get_degree.
  destruct (dict_get item (graph g)) as [d|]; cbn zeta.
  - rewrite py_slice_to_length, (Permutation_length (stable_sort_perm _ d)).
    done.
  - cbn. case_bool_decide; lia.
Qed.

(** ** Python dicts hold a key once *)

Lemma dict_set_keys_nodup {K V} `{EqDecision K} (k : K) (v : V) d :
  NoDup (dict_keys d) → NoDup (dict_keys (dict_set k v d)).
Proof.
  intros Hnd. rewrite dict_keys_set. case_decide as Hk; [done|].
  apply NoDup_app. split; [done|]. split; [|apply NoDup_singleton].
  intros x Hx ->%list_elem_of_singleton. done.
Qed.

Lemma dict_del_keys_nodup {K V} `{EqDecision K} (k : K) (d : list (K * V)) :
  NoDup (dict_keys d) → NoDup (dict_keys (dict_del k d)).
Proof.
  unfold dict_del, dict_keys. intros Hnd.
  eapply sublist_NoDup; [exact Hnd|]. apply fmap_sublist, sublist_filter.
Qed.

Lemma dict_set_Forall {K V} `{EqDecision K} (P : K * V → Prop) k v d :
  Forall P d → P (k, v) → Forall P (dict_set k v d).
Proof.
  intros Hd Hkv. induction Hd as [|[k0 v0] d Hp Hd IH]; cbn [dict_set].
  - by constructor.
  - case_decide; subst; constructor; done.
Qed.

Lemma dict_elem_get {K V} `{EqDecision K} (k : K) (v : V) d :
  NoDup (dict_keys d) → (k, v) ∈ d → dict_get k d = Some v.
Proof.
  unfold dict_keys. induction d as [|[k0 v0] d IH]; intros Hnd Hin.
  { by apply elem_of_nil in Hin. }
  cbn in Hnd. apply NoDup_cons in Hnd as [Hk0 Hnd]. cbn [dict_get].
  apply elem_of_cons in Hin as [Heq|Hin].
  - simplify_eq. by rewrite decide_True.
  - rewrite decide_False; [by apply IH|]. intros ->. apply Hk0.
    apply list_elem_of_fmap. by exists (k, v).
Qed.

(** The adjacency structure holds every item once, and every adjacency dict
    holds every neighbour once. *)
Definition adjacency_nodup (gr : list (string * list (string * Z))) : Prop :=
  NoDup (dict_keys gr) ∧ Forall (λ p, NoDup (dict_keys p.2)) gr.

Lemma adjacency_nodup_get gr a d :
  adjacency_nodup gr → dict_get a gr = Some d → NoDup (dict_keys d).
Proof.
  intros [_ Hall] Hd%dict_get_Some_elem.
  by eapply Forall_forall in Hall; [|exact Hd].
Qed.

Lemma adjacency_nodup_set gr a d :
  adjacency_nodup gr → NoDup (dict_keys d) → adjacency_nodup (dict_set a d gr).
Proof.
  intros [Hk Hall] Hd. split; [by apply dict_set_keys_nodup|].
  by apply dict_set_Forall.
Qed.

Lemma add_node_adjacency_nodup g item :
  adjacency_nodup (graph g) → adjacency_nodup (graph (add_node g item)).
Proof.
  intros Hg. unfold add_node. case_decide; [done|]. cbn [graph].
  destruct (dict_mem item (graph g)); [done|].
  apply adjacency_nodup_set; [done|constructor].
Qed.

Lemma add_half_edge_adjacency_nodup gr a b w :
  adjacency_nodup gr → adjacency_nodup (add_half_edge gr a b w).
Proof.
  intros Hg. unfold add_half_edge, dd_getitem.
  destruct (dict_get a gr) as [d|] eqn:Hd.
  - pose proof (adjacency_nodup_get _ _ _ Hg Hd) as Hnd.
    destruct (dict_get b d); apply adjacency_nodup_set; try done;
      by apply dict_set_keys_nodup.
  - cbn [dict_get]. apply adjacency_nodup_set.
    + apply adjacency_nodup_set; [done|constructor].
    + apply NoDup_singleton.
Qed.

Lemma add_edge_adjacency_nodup g a b w :
  adjacency_nodup (graph g) → adjacency_nodup (graph (add_edge g a b w)).
Proof.
  intros Hg. unfold add_edge. cbn [graph].
  by do 2 apply add_half_edge_adjacency_nodup; do 2 apply add_node_adjacency_nodup.
Qed.

Lemma remove_back_edge_adjacency_nodup item gr n :
  adjacency_nodup gr → adjacency_nodup (remove_back_edge item gr n).
Proof.
  intros Hg. unfold remove_back_edge.
  destruct (dict_get n gr) as [dn|] eqn:Hn; [|done].
  destruct (dict_mem item dn); [|done].
  apply adjacency_nodup_set; [done|]. apply dict_del_keys_nodup.
  by eapply adjacency_nodup_get.
Qed.

Lemma remove_node_adjacency_nodup g item :
  adjacency_nodup (graph g) → adjacency_nodup (graph (remove_node g item)).
Proof.
  intros Hg. unfold remove_node. case_decide; [|done].
  assert (adjacency_nodup (dd_getitem item (graph g)).2) as Hg0.
  { unfold dd_getitem. destruct (dict_get item (graph g)); [done|].
    apply adjacency_nodup_set; [done|constructor]. }
  destruct (dd_getitem item (graph g)) as [d gr0]. cbn [snd graph] in *.
  assert (adjacency_nodup (foldl (remove_back_edge item) gr0 (dict_keys d)))
    as [Hk Hall].
  { generalize (dict_keys d). intros ks. revert gr0 Hg0.
    induction ks as [|n ks IH]; intros gr0 Hg0; cbn [foldl]; [done|].
    by apply IH, remove_back_edge_adjacency_nodup. }
  split; [by apply dict_del_keys_nodup|]. unfold dict_del.
  apply Forall_forall. intros p [_ Hp]%list_elem_of_filter.
  by eapply Forall_forall in Hall.
Qed.

Lemma reachable_graph_adjacency_nodup g :
  reachable_graph g → adjacency_nodup (graph g).
Proof.
  intros [ops ->]. unfold run_ops.
  induction ops as [|op ops IH] using rev_ind.
  - split; constructor.
  - rewrite foldl_app. cbn [foldl]. destruct op; cbn [apply_op].
    + by apply add_node_adjacency_nodup.
    + by apply add_edge_adjacency_nodup.
    + by apply remove_node_adjacency_nodup.
Qed.

Lemma reachable_graph_neighbors_nodup g item :
  reachable_graph g → NoDup (dict_keys (get_neighbors g item)).
Proof.
  intros Hg%reachable_graph_adjacency_nodup. unfold get_neighbors.
  destruct (dict_get item (graph g)) as [d|] eqn:Hd; [|constructor].
  by eapply adjacency_nodup_get.
Qed.

Lemma neighbors_entry_weight g item nb w :
  NoDup (dict_keys (get_neighbors g item)) →
  (nb, w) ∈ get_neighbors g item →
  has_edge g item nb ∧ get_edge_weight g item nb = w.
Proof.
  intros Hnd Hin. split.
  - unfold has_edge, dict_keys. apply list_elem_of_fmap. by exists (nb, w).
  - apply dict_elem_get in Hin; [|done]. revert Hin.
    unfold get_edge_weight, get_neighbors.
    destruct (dict_get item (graph g)) as [d|]; [|done]. by intros ->.
Qed.

(** In a graph built through the public interface,
    [get_top_connections] names no neighbour twice, and every tuple it
    returns is a neighbour of [item] with the current weight of that edge. *)
Theorem top_connections_are_edges (g : ProductGraph) (item : string) (n : Z) :
  reachable_graph g →
  NoDup (get_top_connections g item n).*1
  ∧ ∀ nb w, (nb, w) ∈ get_top_connections g item n →
            has_edge g item nb ∧ get_edge_weight g item nb = w.
Proof.
  intros Hg.
  pose proof (reachable_graph_neighbors_nodup g item Hg) as Hnd.
  destruct (get_top_connections_split g item n) as (rest & Hperm & _).
  split.
  - eapply (NoDup_app ((get_top_connections g item n).*1) (rest.*1)).
    rewrite <-fmap_app. unfold dict_keys in Hnd. by rewrite Hperm.
  - intros nb w Hin. apply neighbors_entry_weight; [done|].
    rewrite <-Hperm. apply elem_of_app. by left.
Qed.

Lemma top_connections_are_edges_witness :
  let g := run_ops [OpAddEdge "Bread" "Milk" 5; OpAddEdge "Bread" "Butter" 3;
                    OpAddEdge "Milk" "Bread" 2] in
  get_top_connections g "Bread" 1 = [("Milk"%string, 7%Z)]
  ∧ NoDup (get_top_connections g "Bread" 1).*1
  ∧ ∀ nb w, (nb, w) ∈ get_top_connections g "Bread" 1 →
            has_edge g "Bread" nb ∧ get_edge_weight g "Bread" nb = w.
Proof.
  intros g. split; [reflexivity|].
  apply (top_connections_are_edges g "Bread" 1).
  by eexists.
Defined.

(** ** [recommender.py]: recommendations from the graph *)

(** [recommend_for_item(item, n, exclude_items)]; [None] is the default
    [exclude_items=None]. *)
Definition recommend_for_item (g : ProductGraph) (item : string) (n : Z)
    (exclude_items : option (gset string)) : list (string * Z) :=
  if decide (item ∈ get_all_nodes g) then
    let exclude_items := default ∅ exclude_items in
    let neighbors := get_neighbors g item in
    let recommendations :=
      filter (λ p : string * Z, p.1 ∉ exclude_items) neighbors in
    py_slice_to n (stable_sort by_weight_desc recommendations)
  else [].

Definition get_complementary_items (g : ProductGraph) (item : string) (n : Z)
  : list (string * Z) :=
  recommend_for_item g item n None.

(** The body of the inner loop of [recommend_for_basket]:
    [if rec_item not in all: all[rec_item] = 0] and then
    [all[rec_item] += weight]. *)
Definition add_score (all_recommendations : list (string * Z))
    (rec : string * Z) : list (string * Z) :=
  let '(rec_item, weight) := rec in
  let all_recommendations :=
    if dict_mem rec_item all_recommendations then all_recommendations
    else dict_set rec_item 0%Z all_recommendations in
  dict_set rec_item
    (default 0%Z (dict_get rec_item all_recommendations) + weight)%Z
    all_recommendations.

Definition recommend_for_basket (g : ProductGraph) (basket : list string)
    (n : Z) : list (string * Z) :=
  if bool_decide (basket = []) then []
  else
    let all_recommendations :=
      foldl (λ all_recommendations item,
               if decide (item ∈ get_all_nodes g) then
                 let item_recs :=
                   recommend_for_item g item 20
                     (Some (list_to_set basket)) in
                 foldl add_score all_recommendations item_recs
               else all_recommendations)
            [] basket in
    py_slice_to n (stable_sort by_weight_desc all_recommendations).

Lemma elem_of_py_slice_to {A} (n : Z) (l : list A) x :
  x ∈ py_slice_to n l → x ∈ l.
Proof.
  destruct (py_slice_to_take n l) as (k & -> & _).
  intros Hx. rewrite <-(take_drop k l). apply elem_of_app. by left.
Qed.

Lemma py_slice_to_sublist {A} (n : Z) (l : list A) :
  py_slice_to n l `sublist_of` l.
Proof.
  destruct (py_slice_to_take n l) as (k & -> & _). apply sublist_take.
Qed.

Lemma elem_of_ranked {K} (n : Z) (l : list (K * Z)) x :
  x ∈ py_slice_to n (stable_sort by_weight_desc l) → x ∈ l.
Proof.
  intros Hx%elem_of_py_slice_to. by rewrite stable_sort_perm in Hx.
Qed.

Lemma ranked_keys_nodup {K} (n : Z) (l : list (K * Z)) :
  NoDup l.*1 → NoDup (py_slice_to n (stable_sort by_weight_desc l)).*1.
Proof.
  intros Hnd. eapply sublist_NoDup.
  - rewrite <-(stable_sort_perm by_weight_desc l) in Hnd. exact Hnd.
  - apply fmap_sublist, py_slice_to_sublist.
Qed.

Lemma ranked_split {K} (n : Z) (l : list (K * Z)) :
  let top := py_slice_to n (stable_sort by_weight_desc l) in
  ∃ rest, top ++ rest ≡ₚ l
          ∧ StronglySorted (λ x y, (y.2 ≤ x.2)%Z) top
          ∧ ∀ x y, x ∈ top → y ∈ rest → (y.2 ≤ x.2)%Z.
Proof.
  cbn zeta. destruct (py_slice_to_sorted n (stable_sort by_weight_desc l))
    as (rest & Happ & Hs & Hle); [apply by_weight_desc_sorted|].
  exists rest. split; [|done]. rewrite Happ. apply stable_sort_perm.
Qed.

(** [recommend_for_item] ranks the neighbours of a node that are not
    excluded: together with some remainder its result is a rearrangement of
    those adjacency entries, the result is in descending order of weight,
    and nothing left out is heavier than anything returned. For an item that
    is not a node the result is empty. *)
Theorem recommend_for_item_ranked (g : ProductGraph) (item : string) (n : Z)
    (exclude_items : option (gset string)) :
  let recs := recommend_for_item g item n exclude_items in
  (item ∈ nodes g →
   ∃ rest,
     recs ++ rest
       ≡ₚ filter (λ p : string * Z, p.1 ∉ default ∅ exclude_items)
                 (get_neighbors g item)
     ∧ StronglySorted (λ x y, (y.2 ≤ x.2)%Z) recs
     ∧ ∀ x y, x ∈ recs → y ∈ rest → (y.2 ≤ x.2)%Z)
  ∧ (item ∉ nodes g → recs = []).
Proof.
  cbn zeta. unfold recommend_for_item, get_all_nodes. split; intros Hin.
  - rewrite decide_True by done. apply ranked_split.
  - by rewrite decide_False.
Qed.

Lemma recommend_for_item_ranked_witness :
  let g := run_ops [OpAddEdge "Bread" "Milk" 5; OpAddEdge "Bread" "Butter" 3;
                    OpAddEdge "Bread" "Eggs" 4] in
  let recs := recommend_for_item g "Bread" 1 (Some {["Milk"%string]}) in
  "Bread"%string ∈ nodes g
  ∧ recs = [("Eggs"%string, 4%Z)]
  ∧ ∃ rest,
     recs ++ rest
       ≡ₚ filter (λ p : string * Z,
                    p.1 ∉ default ∅ (Some ({["Milk"%string]} : gset string)))
                 (get_neighbors g "Bread")
     ∧ StronglySorted (λ x y, (y.2 ≤ x.2)%Z) recs
     ∧ ∀ x y, x ∈ recs → y ∈ rest → (y.2 ≤ x.2)%Z.
Proof.
  intros g recs. assert (Hin : "Bread"%string ∈ nodes g).
  { apply (bool_decide_unpack _). by vm_compute. }
  split; [exact Hin|]. split; [reflexivity|].
  exact (proj1 (recommend_for_item_ranked g "Bread" 1
                  (Some {["Milk"%string]})) Hin).
Defined.

Lemma filter_all {A} (P : A → Prop) `{∀ x, Decision (P x)} (l : list A) :
  (∀ x, x ∈ l → P x) → filter P l = l.
Proof.
  induction l as [|x l IH]; intros HP; [done|].
  rewrite filter_cons_True by (apply HP; left).
  f_equal. apply IH. intros y Hy. apply HP. by right.
Qed.

Lemma recommend_for_item_elem g item n exclude_items nb w :
  (nb, w) ∈ recommend_for_item g item n exclude_items →
  item ∈ nodes g ∧ (nb ∉ default ∅ exclude_items)
  ∧ (nb, w) ∈ get_neighbors g item.
Proof.
  unfold recommend_for_item, get_all_nodes. case_decide as Hin.
  - intros Hx%elem_of_ranked. apply list_elem_of_filter in Hx as [Hex Hx].
    done.
  - by intros ?%elem_of_nil.
Qed.

(** In a graph built through the public interface, every tuple that
    [recommend_for_item] returns names a neighbour of [item] that is not
    excluded, with the current weight of the edge; no item is recommended
    twice; and without exclusions the result is that of
    [get_top_connections]. *)
Theorem recommend_for_item_sound (g : ProductGraph) (item : string) (n : Z)
    (exclude_items : option (gset string)) :
  reachable_graph g →
  (∀ nb w, (nb, w) ∈ recommend_for_item g item n exclude_items →
           (nb ∉ default ∅ exclude_items)
           ∧ has_edge g item nb ∧ get_edge_weight g item nb = w)
  ∧ NoDup (recommend_for_item g item n exclude_items).*1
  ∧ get_complementary_items g item n = find_strongest_connections g item n.
Proof.
  intros Hg.
  pose proof (reachable_graph_neighbors_nodup g item Hg) as Hnd.
  split; [|split].
  - intros nb w (_ & Hex & Hin)%recommend_for_item_elem. split; [done|].
    by apply neighbors_entry_weight.
  - unfold recommend_for_item. case_decide; [|constructor].
    apply ranked_keys_nodup. eapply sublist_NoDup; [exact Hnd|].
    apply fmap_sublist, sublist_filter.
  - unfold get_complementary_items, find_strongest_connections,
      recommend_for_item, get_top_connections, get_all_nodes, get_neighbors.
    apply reachable_graph_wf in Hg as [Hn _].
    destruct (decide (item ∈ nodes g)) as [Hin|Hin].
    + apply Hn in Hin as [d ->]. cbn zeta. cbn [default].
      f_equal. f_equal. apply filter_all. intros x _. set_solver.
    + destruct (dict_get item (graph g)) as [d|] eqn:Hd; [|done].
      exfalso. apply Hin, Hn. by eexists.
Qed.

Lemma recommend_for_item_sound_witness :
  let g := run_ops [OpAddEdge "Bread" "Milk" 5; OpAddEdge "Bread" "Butter" 3;
                    OpAddEdge "Bread" "Eggs" 4] in
  (∀ nb w, (nb, w) ∈ recommend_for_item g "Bread" 2 (Some {["Milk"%string]}) →
           (nb ∉ default ∅ (Some ({["Milk"%string]} : gset string)))
           ∧ has_edge g "Bread" nb ∧ get_edge_weight g "Bread" nb = w)
  ∧ NoDup (recommend_for_item g "Bread" 2 (Some {["Milk"%string]})).*1
  ∧ get_complementary_items g "Bread" 2 = find_strongest_connections g "Bread" 2.
Proof.
  intros g.
  apply (recommend_for_item_sound g "Bread" 2 (Some {["Milk"%string]})).
  by eexists.
Defined.

Lemma add_score_keys all_recommendations rec :
  dict_keys (add_score all_recommendations rec)
  = if decide (rec.1 ∈ dict_keys all_recommendations)
    then dict_keys all_recommendations
    else dict_keys all_recommendations ++ [rec.1].
Proof.
  destruct rec as [rec_item weight]. cbn [add_score fst].
  destruct (dict_mem rec_item all_recommendations) eqn:Hm.
  - apply dict_mem_true, dict_keys_get in Hm. rewrite dict_keys_set.
    by rewrite !decide_True.
  - apply dict_mem_false, dict_get_None_keys in Hm.
    rewrite !dict_keys_set. rewrite (decide_False _ _ Hm).
    rewrite decide_True; [done|].
    apply elem_of_app. right. by apply list_elem_of_singleton.
Qed.

Lemma add_scores_keys (P : string → Prop) recs all_recommendations :
  (∀ rec, rec ∈ recs → P rec.1) →
  NoDup (dict_keys all_recommendations) →
  Forall P (dict_keys all_recommendations) →
  NoDup (dict_keys (foldl add_score all_recommendations recs))
  ∧ Forall P (dict_keys (foldl add_score all_recommendations recs)).
Proof.
  revert all_recommendations.
  induction recs as [|rec recs IH]; intros all_recs Hrecs Hnd Hall;
    cbn [foldl]; [done|].
  apply IH.
  - intros r Hr. apply Hrecs. by right.
  - rewrite add_score_keys. case_decide as Hk; [done|].
    apply NoDup_app. split; [done|]. split; [|apply NoDup_singleton].
    by intros x Hx ->%list_elem_of_singleton.
  - rewrite add_score_keys. case_decide as Hk; [done|].
    apply Forall_app. split; [done|]. apply Forall_singleton, Hrecs. left.
Qed.

(** [recommend_for_basket] never recommends an item of the basket; every
    item it recommends is a neighbour of some basket item that is a node;
    no item is recommended twice; and the result is in descending order of
    score. *)
Theorem recommend_for_basket_properties (g : ProductGraph)
    (basket : list string) (n : Z) :
  let recs := recommend_for_basket g basket n in
  (∀ x score, (x, score) ∈ recs →
     (x ∉ basket)
     ∧ ∃ item, item ∈ basket ∧ item ∈ nodes g ∧ has_edge g item x)
  ∧ NoDup recs.*1
  ∧ StronglySorted (λ x y, (y.2 ≤ x.2)%Z) recs.
Proof.
  cbn zeta. unfold recommend_for_basket. case_bool_decide as Hb.
  { split; [|split; constructor]. by intros x s ?%elem_of_nil. }
  set (P := λ x : string,
         (x ∉ basket)
         ∧ ∃ item, item ∈ basket ∧ item ∈ nodes g ∧ has_edge g item x).
  set (body := λ (all_recommendations : list (string * Z)) (item : string), _).
  assert (∀ items all_recs,
            (∀ i, i ∈ items → i ∈ basket) →
            NoDup (dict_keys all_recs) → Forall P (dict_keys all_recs) →
            NoDup (dict_keys (foldl body all_recs items))
            ∧ Forall P (dict_keys (foldl body all_recs items))) as Hloop.
  { induction items as [|item items IH]; intros all_recs Hitems Hnd Hall;
      cbn [foldl]; [done|].
    assert (NoDup (dict_keys (body all_recs item))
            ∧ Forall P (dict_keys (body all_recs item))) as [Hnd' Hall'].
    { unfold body. case_decide as Hin; [|done].
      apply add_scores_keys; [|done|done].
      intros [nb w] (_ & Hex & Hnb)%recommend_for_item_elem. cbn [fst].
      split.
      - cbn [default] in Hex. intros Hx. apply Hex.
        by apply elem_of_list_to_set.
      - exists item. split; [apply Hitems; left|]. split; [done|].
        unfold has_edge, dict_keys. apply list_elem_of_fmap.
        by exists (nb, w). }
    apply IH; [|done|done]. intros i Hi. apply Hitems. by right. }
  destruct (Hloop basket []) as [Hnd Hall]; [done|constructor|constructor|].
  split; [|split].
  - intros x s Hx%elem_of_ranked.
    eapply Forall_forall in Hall; [exact Hall|].
    unfold dict_keys. apply list_elem_of_fmap. by exists (x, s).
  - by apply ranked_keys_nodup.
  - by destruct (ranked_split n (foldl body [] basket)) as (? & ? & ? & ?).
Qed.

(** ** [mining.py]: rankings, levels and rules *)

(** [get_top_n_pairs(n)] *)
Definition get_top_n_pairs (m : FrequentItemsetMiner) (n : Z)
  : list ((string * string) * nat) :=
  let frequent_pairs := find_frequent_pairs m in
  py_slice_to n frequent_pairs.

(** The loop of [apriori] over [range(1, max_k + 1)]; an empty level breaks
    out of it. *)
Fixpoint apriori_loop (m : FrequentItemsetMiner) (ks : list nat)
    (all_frequent_itemsets : list (nat * list (gset string * nat)))
  : list (nat * list (gset string * nat)) :=
  match ks with
  | [] => all_frequent_itemsets
  | k :: ks' =>
      let frequent_k := find_frequent_k_itemsets m k in
      if bool_decide (frequent_k = []) then all_frequent_itemsets
      else apriori_loop m ks' (dict_set k frequent_k all_frequent_itemsets)
  end.

Definition apriori (m : FrequentItemsetMiner) (max_k : Z)
  : list (nat * list (gset string * nat)) :=
  apriori_loop m (seq 1 (Z.to_nat max_k)) [].

Lemma py_slice_to_sorted_by {A} (R : relation A) (n : Z) (l : list A) :
  StronglySorted R l →
  ∃ rest, py_slice_to n l ++ rest = l
          ∧ StronglySorted R (py_slice_to n l)
          ∧ ∀ x y, x ∈ py_slice_to n l → y ∈ rest → R x y.
Proof.
  intros Hs. destruct (py_slice_to_take n l) as (k & -> & _).
  exists (drop k l). split; [apply take_drop|].
  rewrite <-(take_drop k l) in Hs. apply StronglySorted_app in Hs.
  destruct Hs as (H1 & H2 & H3). split; [done|]. intros x y Hx Hy.
  by apply H1.
Qed.

Lemma find_frequent_pairs_sorted m :
  StronglySorted (λ x y, y.2 ≤ x.2) (find_frequent_pairs m).
Proof.
  unfold find_frequent_pairs.
  eapply (StronglySorted_weaken
            (λ a b, (λ x y : (string * string) * nat,
                       bool_decide (y.2 ≤ x.2)) a b = true)).
  - intros x y Hxy. by apply bool_decide_eq_true in Hxy.
  - apply stable_sort_sorted.
    + intros x y. rewrite !bool_decide_eq_true. lia.
    + intros x y z. rewrite !bool_decide_eq_true. lia.
Qed.

Lemma find_frequent_pairs_elem m pair count :
  (pair, count) ∈ find_frequent_pairs m →
  (min_support_count m ≤ Z.of_nat count)%Z
  ∧ count = occurrences pair (transactions m ≫= pair_keys).
Proof.
  unfold find_frequent_pairs. rewrite stable_sort_perm.
  intros [Hf Hin]%list_elem_of_filter. split.
  - unfold is_frequent in Hf. by apply bool_decide_unpack in Hf.
  - rewrite pair_counts_eq in Hin.
    apply count_table_get in Hin; [|apply count_table_incr_all_nil].
    rewrite <-count_of_incr_all_nil. unfold count_of. by rewrite Hin.
Qed.

Lemma find_frequent_pairs_nodup m : NoDup (find_frequent_pairs m).*1.
Proof.
  unfold find_frequent_pairs. rewrite stable_sort_perm.
  eapply sublist_NoDup; [|apply fmap_sublist, sublist_filter].
  rewrite pair_counts_eq. apply (count_table_incr_all_nil _).
Qed.

(** [find_frequent_pairs] lists every pair once, in descending order of
    count, each with a count of at least [min_support_count] that is the
    number of times [combinations(sorted(t), 2)] yields the pair over all
    transactions [t]; [get_top_n_pairs(n)] is the slice [[:n]] of that list,
    so nothing it leaves out has a larger count than anything it returns. *)
Theorem top_n_pairs_properties (m : FrequentItemsetMiner) (n : Z) :
  let top := get_top_n_pairs m n in
  (∃ rest, top ++ rest = find_frequent_pairs m
           ∧ ∀ x y, x ∈ top → y ∈ rest → y.2 ≤ x.2)
  ∧ StronglySorted (λ x y, y.2 ≤ x.2) (find_frequent_pairs m)
  ∧ NoDup (find_frequent_pairs m).*1
  ∧ ∀ pair count, (pair, count) ∈ find_frequent_pairs m →
      (min_support_count m ≤ Z.of_nat count)%Z
      ∧ count = occurrences pair (transactions m ≫= pair_keys).
Proof.
  cbn zeta. unfold get_top_n_pairs.
  pose proof (find_frequent_pairs_sorted m) as Hs.
  destruct (py_slice_to_sorted_by _ n _ Hs) as (rest & Happ & _ & Hle).
  split; [by exists rest|]. split; [done|].
  split; [apply find_frequent_pairs_nodup|].
  apply find_frequent_pairs_elem.
Qed.

(** *** Rules *)

Lemma Qle_bool_total x y : Qle_bool x y = true ∨ Qle_bool y x = true.
Proof.
  rewrite !Qle_bool_iff. destruct (Qlt_le_dec x y) as [Hlt|Hle]; [|by right].
  left. by apply Qlt_le_weak.
Qed.

Lemma py_div_inv a b q : py_div a b = Ok q → q = (a / b)%Q.
Proof. unfold py_div. destruct (Qeq_bool b 0); [done|]. by intros [= <-]. Qed.

Lemma rule_direction_confident m min_confidence ante cons pc ac oc rules rules' :
  rule_direction m min_confidence ante cons pc ac oc rules = Ok rules' →
  Forall (λ r, (min_confidence <= confidence r)%Q) rules →
  Forall (λ r, (min_confidence <= confidence r)%Q) rules'.
Proof.
  unfold rule_direction. case_bool_decide; [|by intros [= <-]].
  destruct (py_div (Q_of_nat pc) (Q_of_nat ac)) as [conf|] eqn:Hconf;
    cbn [mbind result_bind]; [|done].
  destruct (Qle_bool min_confidence conf) eqn:Hle; [|by intros [= <-]].
  repeat match goal with
         | |- context [py_div ?a ?b] =>
             destruct (py_div a b); cbn [mbind result_bind]; [|done]
         end.
  intros [= <-] Hall. apply Forall_app. split; [done|].
  apply Forall_singleton. cbn [confidence]. by apply Qle_bool_iff.
Qed.

Lemma rules_loop_confident m min_confidence f1 pairs rules rules' :
  rules_loop m min_confidence f1 pairs rules = Ok rules' →
  Forall (λ r, (min_confidence <= confidence r)%Q) rules →
  Forall (λ r, (min_confidence <= confidence r)%Q) rules'.
Proof.
  revert rules. induction pairs as [|[[item1 item2] pc] pairs IH];
    intros rules; cbn [rules_loop]; [by intros [= <-]|].
  destruct (rule_direction m min_confidence item1 item2 pc _ _ rules)
    as [rules1|] eqn:H1; cbn [mbind result_bind]; [|done].
  destruct (rule_direction m min_confidence item2 item1 pc _ _ rules1)
    as [rules2|] eqn:H2; cbn [mbind result_bind]; [|done].
  intros Hloop Hall. apply (IH rules2 Hloop).
  eapply rule_direction_confident; [exact H2|].
  eapply rule_direction_confident; [exact H1|done].
Qed.

(** Whenever [get_association_rules(min_confidence)] returns, every rule it
    returns has a confidence of at least [min_confidence], and the rules are
    in descending order of confidence. *)
Theorem association_rules_sorted_confident (m : FrequentItemsetMiner)
    (min_confidence : Q) (rules : list rule) :
  get_association_rules m min_confidence = Ok rules →
  Forall (λ r, (min_confidence <= confidence r)%Q) rules
  ∧ StronglySorted (λ x y, (confidence y <= confidence x)%Q) rules.
Proof.
  unfold get_association_rules.
  destruct (rules_loop m min_confidence _ _ []) as [rules0|] eqn:Hloop;
    cbn [mbind result_bind]; [|done].
  intros [= <-]. split.
  - apply Forall_forall. intros r Hr. rewrite stable_sort_perm in Hr.
    apply rules_loop_confident in Hloop; [|constructor].
    by eapply Forall_forall in Hloop.
  - eapply (StronglySorted_weaken
              (λ a b, (λ x y, Qle_bool (confidence y) (confidence x)) a b
                      = true)).
    + intros x y Hxy. by apply Qle_bool_iff.
    + apply stable_sort_sorted.
      * intros x y. apply Qle_bool_total.
      * intros x y z. rewrite !Qle_bool_iff. intros Hxy Hyz.
        by eapply Qle_trans.
Qed.

(** With [min_support = 0.5], the float [4503599627370496 * 2^-53]. *)
Lemma association_rules_sorted_confident_witness :
  ∃ m, new_miner [["Bread"; "Milk"]; ["Bread"; "Milk"]; ["Bread"]]%string
         (float_lit 4503599627370496 (-53)) = Ok m
  ∧ ∃ rules, get_association_rules m (3 # 4) = Ok rules
           ∧ length rules = 1
           ∧ Forall (λ r, (3 # 4 <= confidence r)%Q) rules
           ∧ StronglySorted (λ x y, (confidence y <= confidence x)%Q) rules.
Proof.
  set (m := miner_with_count
              [["Bread"; "Milk"]; ["Bread"; "Milk"]; ["Bread"]]%string
              (float_lit 4503599627370496 (-53)) 1).
  exists m. split; [vm_compute; reflexivity|].
  eexists. split; [by vm_compute|]. split; [reflexivity|].
  apply (association_rules_sorted_confident m (3 # 4)). by vm_compute.
Defined.

(** *** Levels *)

Lemma apriori_loop_below m n start all_sets k :
  k < start →
  dict_get k (apriori_loop m (seq start n) all_sets) = dict_get k all_sets.
Proof.
  revert start all_sets. induction n as [|n IH]; intros start all_sets Hk;
    cbn [seq apriori_loop]; [done|].
  case_bool_decide; [done|].
  rewrite IH by lia. rewrite dict_get_set_ne by lia. done.
Qed.

Lemma apriori_loop_from m n start all_sets k fk :
  start ≤ k → dict_get k all_sets = None →
  dict_get k (apriori_loop m (seq start n) all_sets) = Some fk
  ↔ k < start + n ∧ fk = find_frequent_k_itemsets m k
    ∧ ∀ j, start ≤ j ≤ k → find_frequent_k_itemsets m j ≠ [].
Proof.
  revert start all_sets. induction n as [|n IH]; intros start all_sets Hk Hnone;
    cbn [seq apriori_loop].
  { rewrite Hnone. split; [done|]. intros [? _]. lia. }
  case_bool_decide as Hempty.
  { rewrite Hnone. split; [done|]. intros (_ & _ & Hall).
    exfalso. apply (Hall start); [lia|done]. }
  destruct (decide (k = start)) as [->|Hne].
  - rewrite apriori_loop_below by lia. rewrite dict_get_set_eq. split.
    + intros [= <-]. split; [lia|]. split; [done|].
      intros j Hj. by replace j with start by lia.
    + intros (_ & -> & _). done.
  - rewrite IH; [|lia|by rewrite dict_get_set_ne].
    split; intros (Hlt & -> & Hall); (split; [lia|]); (split; [done|]).
    + intros j Hj. destruct (decide (j = start)) as [->|?]; [done|].
      apply Hall. lia.
    + intros j Hj. apply Hall. lia.
Qed.

(** [apriori(max_k)] holds level [k] exactly when [1 <= k <= max_k] and
    every level from 1 to [k] is non-empty, and then level [k] is
    [find_frequent_k_itemsets(k)]: the levels are contiguous from 1, none is
    empty, and nothing is stored after the first empty level. *)
Theorem apriori_levels (m : FrequentItemsetMiner) (max_k : Z) (k : nat)
    (frequent_k : list (gset string * nat)) :
  dict_get k (apriori m max_k) = Some frequent_k
  ↔ (1 ≤ k ∧ (Z.of_nat k ≤ max_k)%Z)
    ∧ frequent_k = find_frequent_k_itemsets m k
    ∧ ∀ j, 1 ≤ j ≤ k → find_frequent_k_itemsets m j ≠ [].
Proof.
  unfold apriori. destruct (decide (1 ≤ k)) as [Hk|Hk].
  - rewrite apriori_loop_from by done. split.
    + intros (Hlt & -> & Hall). split; [lia|done].
    + intros ([_ Hle] & -> & Hall). split; [lia|done].
  - rewrite apriori_loop_below by lia. cbn [dict_get]. split; [done|].
    intros ([? _] & _). lia.
Qed.

(** *** Level 1 computed twice *)

Lemma combinations_1 {A} (l : list A) :
  combinations l 1 = (λ x, [x]) <$> l.
Proof.
  induction l as [|x l IH]; [done|].
  cbn [combinations]. rewrite combinations_0, IH. done.
Qed.

Lemma occurrences_perm {K} `{EqDecision K} (k : K) ks1 ks2 :
  ks1 ≡ₚ ks2 → occurrences k ks1 = occurrences k ks2.
Proof. unfold occurrences. by intros ->. Qed.

Lemma itemset_keys_1 X t :
  occurrences X (itemset_keys 1 t) = occurrences X (item_keys t).
Proof.
  unfold itemset_keys, item_keys. case_bool_decide as Hlen.
  - rewrite combinations_1, <-list_fmap_compose.
    rewrite (occurrences_perm X (_ <$> py_sorted t)
               ((list_to_set ∘ (λ x, [x])) <$> t))
      by (by rewrite py_sorted_perm).
    apply occurrences_fmap_equiv. intros x _. cbn [compose list_to_set].
    by rewrite (right_id_L ∅ (∪)).
  - destruct t; [done|]. cbn [length] in Hlen. lia.
Qed.

Lemma occurrences_bind_eq {T K} `{EqDecision K} (f f' : T → list K) k ts :
  (∀ t, occurrences k (f t) = occurrences k (f' t)) →
  occurrences k (ts ≫= f) = occurrences k (ts ≫= f').
Proof.
  intros Heq. induction ts as [|t ts IH]; [done|].
  by rewrite !bind_cons, !occurrences_app, IH, Heq.
Qed.

Lemma count_table_dict_get {K} `{EqDecision K} (k : K) ks :
  dict_get k (incr_all ks [])
  = if decide (occurrences k ks = 0) then None else Some (occurrences k ks).
Proof.
  pose proof (count_table_incr_all_nil ks) as [_ Hpos].
  pose proof (count_of_incr_all_nil k ks) as Hc. unfold count_of in Hc.
  destruct (dict_get k (incr_all ks [])) as [c|] eqn:Hget; cbn in Hc.
  - apply Hpos in Hget. subst c. rewrite decide_False by lia. done.
  - by rewrite decide_True.
Qed.

(** [find_frequent_k_itemsets(1)] and [find_frequent_1_itemsets()] are equal
    as dicts: they hold the same itemsets with the same counts (the order of
    their entries may differ), and each holds an itemset once. *)
Theorem frequent_level_1_agrees (m : FrequentItemsetMiner) :
  (∀ X, dict_get X (find_frequent_k_itemsets m 1)
        = dict_get X (find_frequent_1_itemsets m))
  ∧ NoDup (dict_keys (find_frequent_k_itemsets m 1))
  ∧ NoDup (dict_keys (find_frequent_1_itemsets m)).
Proof.
  unfold find_frequent_k_itemsets, find_frequent_1_itemsets.
  rewrite bool_decide_eq_false_2 by lia.
  rewrite itemset_counts_eq, item_counts_eq.
  split; [|split].
  - intros X.
    rewrite !dict_get_filter by apply (count_table_incr_all_nil _).
    rewrite !count_table_dict_get.
    by rewrite (occurrences_bind_eq (itemset_keys 1) item_keys X)
      by (intros t; apply itemset_keys_1).
  - eapply sublist_NoDup; [|apply fmap_sublist, sublist_filter].
    apply (count_table_incr_all_nil _).
  - eapply sublist_NoDup; [|apply fmap_sublist, sublist_filter].
    apply (count_table_incr_all_nil _).
Qed.

(** *** Pairs are stored in one orientation *)

Lemma string_leb_trans (s1 s2 s3 : string) :
  String.leb s1 s2 = true → String.leb s2 s3 = true →
  String.leb s1 s3 = true.
Proof.
  unfold String.leb. revert s2 s3.
  induction s1 as [|c1 s1 IH]; intros [|c2 s2] [|c3 s3];
    cbn [String.compare]; try done.
  unfold Ascii.compare.
  destruct (N.compare_spec (Ascii.N_of_ascii c1) (Ascii.N_of_ascii c2))
    as [H12|H12|H12];
    destruct (N.compare_spec (Ascii.N_of_ascii c2) (Ascii.N_of_ascii c3))
      as [H23|H23|H23];
    destruct (N.compare_spec (Ascii.N_of_ascii c1) (Ascii.N_of_ascii c3))
      as [H13|H13|H13];
    try done; try lia.
  apply IH.
Qed.

Lemma py_sorted_sorted (l : list string) :
  StronglySorted (λ a b, String.leb a b = true) (py_sorted l).
Proof.
  apply stable_sort_sorted; [apply String.leb_total|apply string_leb_trans].
Qed.

Lemma StronglySorted_sublist {A} (R : relation A) (l1 l2 : list A) :
  l1 `sublist_of` l2 → StronglySorted R l2 → StronglySorted R l1.
Proof.
  induction 1 as [|x l1 l2 Hsub IH|x l1 l2 Hsub IH]; intros Hs; [done| |].
  - apply StronglySorted_inv in Hs as [Hs Hx]. constructor; [by apply IH|].
    apply Forall_forall. intros y Hy. eapply Forall_forall in Hx; [done|].
    by eapply elem_of_sublist.
  - apply StronglySorted_inv in Hs as [Hs _]. by apply IH.
Qed.

Lemma combinations_is_sublist {A} (l : list A) k c :
  c ∈ combinations l k → c `sublist_of` l.
Proof.
  revert k c. induction l as [|x l IH]; intros [|k] c; cbn [combinations].
  - intros ->%list_elem_of_singleton. constructor.
  - by intros ?%elem_of_nil.
  - intros ->%list_elem_of_singleton. apply sublist_nil_l.
  - intros [Hc|Hc]%elem_of_app.
    + apply list_elem_of_fmap in Hc as (c' & -> & Hc').
      apply sublist_skip. by eapply IH.
    + apply sublist_cons. by eapply IH.
Qed.

Lemma pair_keys_ordered t a b :
  (a, b) ∈ pair_keys t → String.leb a b = true.
Proof.
  unfold pair_keys. case_bool_decide; [|by intros ?%elem_of_nil].
  intros (c & Hc & Hp)%list_elem_of_omap. apply pair_of_Some in Hp as ->.
  apply combinations_is_sublist in Hc.
  pose proof (StronglySorted_sublist _ _ _ Hc (py_sorted_sorted t)) as Hs.
  apply StronglySorted_inv in Hs as [_ Hab].
  by apply Forall_cons in Hab as [Hab _].
Qed.

Lemma find_frequent_pairs_key m a b c :
  ((a, b), c) ∈ find_frequent_pairs m →
  ∃ t, t ∈ transactions m ∧ (a, b) ∈ pair_keys t.
Proof.
  unfold find_frequent_pairs. rewrite stable_sort_perm.
  intros [_ Hin]%list_elem_of_filter. rewrite pair_counts_eq in Hin.
  pose proof (count_table_incr_all_nil (transactions m ≫= pair_keys))
    as Htab.
  apply (count_table_get _ _ _ Htab) in Hin. pose proof Hin as Hc.
  apply Htab in Hc.
  assert (occurrences (a, b) (transactions m ≫= pair_keys) = c) as Hocc.
  { rewrite <-count_of_incr_all_nil. unfold count_of. by rewrite Hin. }
  rewrite <-Hocc in Hc. apply occurrences_elem in Hc.
  apply list_elem_of_bind in Hc as (t & Hab & Ht). by exists t.
Qed.

(** Every frequent pair [(item1, item2)] has [item1 <= item2] in string
    order, so two different items are never listed in both orientations. *)
Theorem frequent_pairs_ordered (m : FrequentItemsetMiner) :
  Forall (λ e, String.leb e.1.1 e.1.2 = true) (find_frequent_pairs m)
  ∧ ∀ a b c c', a ≠ b → ((a, b), c) ∈ find_frequent_pairs m →
                ((b, a), c') ∉ find_frequent_pairs m.
Proof.
  assert (∀ a b c, ((a, b), c) ∈ find_frequent_pairs m →
                   String.leb a b = true) as Hord.
  { intros a b c (t & _ & Hab)%find_frequent_pairs_key.
    by eapply pair_keys_ordered. }
  split.
  - apply Forall_forall. intros [[a b] c] Hin. by eapply Hord.
  - intros a b c c' Hne Hab Hba. apply Hne, String.leb_antisym; by eapply Hord.
Qed.

(** ** [get_clustering_coefficient] *)

#[export] Instance has_edge_dec g item1 item2 :
  Decision (has_edge g item1 item2).
Proof. unfold has_edge. apply _. Defined.

(** The double loop over [enumerate(neighbors)] and [neighbors[i+1:]]:
    the number of pairs of positions [i < j] with
    [has_edge(neighbors[i], neighbors[j])]. *)
Fixpoint edges_between (g : ProductGraph) (neighbors : list string) : nat :=
  match neighbors with
  | [] => 0
  | neighbor1 :: rest =>
      length (filter (λ neighbor2, has_edge g neighbor1 neighbor2) rest)
      + edges_between g rest
  end.

Definition get_clustering_coefficient (g : ProductGraph) (item : string)
  : result Q :=
  let neighbors := dict_keys (get_neighbors g item) in
  if bool_decide (length neighbors < 2) then Ok 0%Q
  else
    let edges_between_neighbors := edges_between g neighbors in
    max_possible_edges ←
      py_div (Q_of_nat (length neighbors * (length neighbors - 1))) 2;
    if Qeq_bool max_possible_edges 0 then Ok 0%Q
    else py_div (Q_of_nat edges_between_neighbors) max_possible_edges.

Lemma edges_between_le g neighbors :
  2 * edges_between g neighbors ≤ length neighbors * (length neighbors - 1).
Proof.
  induction neighbors as [|x l IH]; cbn [edges_between length]; [lia|].
  pose proof (length_filter (λ y, has_edge g x y) l). nia.
Qed.

(** [get_clustering_coefficient] never raises and returns a number between
    0 and 1; it is 0 for an item with fewer than two neighbours (in
    particular for an unknown item). *)
Theorem clustering_coefficient_bounds (g : ProductGraph) (item : string) :
  ∃ c, get_clustering_coefficient g item = Ok c
       ∧ (0 <= c)%Q ∧ (c <= 1)%Q
       ∧ (get_degree g item < 2 → c = 0%Q).
Proof.
  unfold get_clustering_coefficient.
  assert (length (dict_keys (get_neighbors g item)) = get_degree g item)
    as Hdeg.
  { unfold get_neighbors, get_degree, dict_keys. rewrite length_fmap.
    by destruct (dict_get item (graph g)). }
  rewrite Hdeg. set (n := get_degree g item).
  pose proof (edges_between_le g (dict_keys (get_neighbors g item))) as He.
  rewrite Hdeg in He. fold n in He.
  set (e := edges_between g (dict_keys (get_neighbors g item))) in *.
  case_bool_decide as Hn.
  { exists 0%Q. split; [done|]. split; [done|]. split; [done|]. done. }
  assert (2 ≤ n * (n - 1)) as HN by nia.
  assert (0 < Q_of_nat (n * (n - 1)) / 2)%Q as Hpos.
  { apply Qlt_shift_div_l; [done|]. rewrite Qmult_0_l.
    apply Q_of_nat_pos. lia. }
  rewrite py_div_Ok by done. cbn [mbind result_bind].
  destruct (Qeq_bool (Q_of_nat (n * (n - 1)) / 2) 0) eqn:Hz.
  { apply Qeq_bool_eq in Hz. rewrite Hz in Hpos. by apply Qlt_irrefl in Hpos. }
  rewrite py_div_Ok by (intros Hz'; rewrite Hz' in Hpos; by apply Qlt_irrefl in Hpos).
  eexists. split; [done|]. split; [|split; [|lia]].
  - apply Qle_shift_div_l; [done|]. rewrite Qmult_0_l.
    apply (Q_of_nat_le 0 e). lia.
  - apply Qle_shift_div_r; [done|]. rewrite Qmult_1_l.
    apply Qle_shift_div_l; [done|].
    unfold Qle, Q_of_nat. cbn. lia.
Qed.

(** ** [find_connected_components] *)

(** The loop [for node in all_nodes]; [all_nodes] lists the set of nodes in
    the order in which the set is iterated. *)
Fixpoint components_loop (g : ProductGraph) (all_nodes : list string)
    (visited : gset string) (components : list (gset string))
  : outcome (list (gset string)) :=
  match all_nodes with
  | [] => Done components
  | node :: rest =>
      if decide (node ∈ visited) then
        components_loop g rest visited components
      else
        match bfs g node None with
        | Done r =>
            let component : gset string := list_to_set r in
            components_loop g rest (visited ∪ component)
              (components ++ [component])
        | OutOfFuel => OutOfFuel
        end
  end.

Definition find_connected_components (g : ProductGraph)
    (all_nodes : list string) : outcome (list (gset string)) :=
  components_loop g all_nodes ∅ [].

Lemma bfs_unbounded_reach g start_item :
  start_item ∈ nodes g →
  ∃ r, bfs g start_item None = Done r
       ∧ ∀ x, x ∈ r ↔ ∃ q, is_walk g start_item q x.
Proof.
  intros Hin. unfold bfs, get_all_nodes. rewrite decide_True by done.
  destruct (bfs_loop_spec g None (λ x, ∃ q, is_walk g start_item q x))
    with (fuel := loop_fuel g) (visited := (∅ : gset string))
         (queue := [(start_item, 0%Z)]) (result := @nil string)
    as (r & Hr & _ & _ & Hall).
  - intros x y [q Hq] He. exists (q ++ [y]). by eapply is_walk_snoc.
  - unfold loop_fuel. rewrite unvisited_size_empty. simpl. lia.
  - apply NoDup_nil_2.
  - intros x Hx. by apply elem_of_nil in Hx.
  - done.
  - apply Forall_singleton. exists [start_item]. apply walk_here.
  - exists r. split; [done|]. intros x. split.
    + intros Hx. by eapply Forall_forall in Hall.
    + intros [q Hq].
      destruct (bfs_loop_closed g (loop_fuel g) ∅ [(start_item, 0%Z)] [] r)
        as [Hsub Hcl]; [set_solver|set_solver|done|].
      apply (is_walk_closed g (λ x, x ∈ r) start_item q x); [done| |done].
      apply Hsub. right. left.
Qed.

Lemma is_walk_trans g a p b q c :
  is_walk g a p b → is_walk g b q c → ∃ r, is_walk g a r c.
Proof.
  intros Hab Hbc.
  apply (is_walk_closed g (λ v, ∃ r, is_walk g a r v) b q c); [|by eexists|done].
  intros v n [r Hr] He. exists (r ++ [n]). by eapply is_walk_snoc.
Qed.

Lemma is_walk_node g a p b :
  graph_wf g → a ∈ nodes g → is_walk g a p b → b ∈ nodes g.
Proof.
  intros Hwf Ha Hw.
  apply (is_walk_closed g (λ v, v ∈ nodes g) a p b); [|done|done].
  intros v n _ He. by eapply graph_wf_edge_node.
Qed.

(** What the loop keeps: [visited] is the union of the components found,
    every component is the set of items that walks from one node reach, and
    no component is listed twice. *)
Definition components_inv (g : ProductGraph) (visited : gset string)
    (components : list (gset string)) : Prop :=
  (∀ x, x ∈ visited ↔ ∃ C, C ∈ components ∧ x ∈ C)
  ∧ (∀ C, C ∈ components →
       ∃ r, r ∈ nodes g ∧ ∀ y, y ∈ C ↔ ∃ q, is_walk g r q y)
  ∧ NoDup components.

Lemma components_loop_spec g all_nodes :
  graph_wf g →
  ∀ visited components,
    (∀ x, x ∈ all_nodes → x ∈ nodes g) →
    components_inv g visited components →
    ∃ visited' components',
      components_loop g all_nodes visited components = Done components'
      ∧ components_inv g visited' components'
      ∧ (∀ x, x ∈ visited ∨ x ∈ all_nodes → x ∈ visited').
Proof.
  intros Hwf. induction all_nodes as [|node rest IH];
    intros visited components Hnodes Hinv; cbn [components_loop].
  { exists visited, components. split; [done|]. split; [done|].
    intros x [Hx|Hx]; [done|]. by apply elem_of_nil in Hx. }
  destruct (decide (node ∈ visited)) as [Hin|Hnin].
  { destruct (IH visited components) as (v' & c' & Hr & Hinv' & Hsub);
      [intros x Hx; apply Hnodes; by right|done|].
    exists v', c'. split; [done|]. split; [done|].
    intros x [Hx|[->|Hx]%elem_of_cons]; apply Hsub; auto. }
  destruct (bfs_unbounded_reach g node) as (r & -> & Hreach);
    [apply Hnodes; left|]. cbn zeta.
  destruct Hinv as (Hvis & Hcomp & Hnd).
  destruct (IH (visited ∪ list_to_set r) (components ++ [list_to_set r]))
    as (v' & c' & Hr & Hinv' & Hsub).
  - intros x Hx. apply Hnodes. by right.
  - split; [|split].
    + intros x. rewrite elem_of_union, Hvis. split.
      * intros [(C & HC & Hx)|Hx].
        -- exists C. split; [|done]. apply elem_of_app. by left.
        -- exists (list_to_set r). split; [|done].
           apply elem_of_app. right. by apply list_elem_of_singleton.
      * intros (C & [HC| ->%list_elem_of_singleton]%elem_of_app & Hx).
        -- left. by exists C.
        -- by right.
    + intros C [HC| ->%list_elem_of_singleton]%elem_of_app; [by apply Hcomp|].
      exists node. split; [apply Hnodes; left|].
      intros y. by rewrite elem_of_list_to_set.
    + apply NoDup_app. split; [done|]. split; [|apply NoDup_singleton].
      intros C HC ->%list_elem_of_singleton. apply Hnin, Hvis.
      exists (list_to_set r). split; [done|].
      apply elem_of_list_to_set, Hreach. exists [node]. apply walk_here.
  - exists v', c'. split; [done|]. split; [done|].
    intros x [Hx|[->|Hx]%elem_of_cons]; apply Hsub.
    + left. set_solver.
    + left. apply elem_of_union. right.
      apply elem_of_list_to_set, Hreach. exists [node]. apply walk_here.
    + by right.
Qed.

(** In a graph built through the public interface,
    [find_connected_components] returns, whatever the order in which the
    node set is iterated: every node lies in some component and components
    hold only nodes; a component is exactly the set of items that walks
    from any of its members reach; no component is listed twice, different
    components are disjoint, and none is empty. *)
Theorem connected_components_partition (g : ProductGraph)
    (all_nodes : list string) :
  reachable_graph g →
  all_nodes ≡ₚ elements (nodes g) →
  ∃ components,
    find_connected_components g all_nodes = Done components
    ∧ (∀ x, x ∈ nodes g ↔ ∃ C, C ∈ components ∧ x ∈ C)
    ∧ (∀ C x, C ∈ components → x ∈ C →
         ∀ y, y ∈ C ↔ ∃ q, is_walk g x q y)
    ∧ NoDup components
    ∧ (∀ C D, C ∈ components → D ∈ components → C ≠ D → C ## D)
    ∧ (∀ C, C ∈ components → C ≠ ∅).
Proof.
  intros Hwf%reachable_graph_wf Hperm.
  assert (∀ x, x ∈ all_nodes ↔ x ∈ nodes g) as Hall.
  { intros x. by rewrite Hperm, elem_of_elements. }
  destruct (components_loop_spec g all_nodes Hwf ∅ [])
    as (visited & components & Hr & (Hvis & Hcomp & Hnd) & Hsub).
  { intros x. apply Hall. }
  { split; [|split; [|constructor]].
    - intros x. split; [set_solver|]. by intros (C & ?%elem_of_nil & _).
    - by intros C ?%elem_of_nil. }
  assert (∀ C x, C ∈ components → x ∈ C →
            ∀ y, y ∈ C ↔ ∃ q, is_walk g x q y) as Hsame.
  { intros C x HC Hx y. destruct (Hcomp C HC) as (r & Hrn & HrC).
    apply HrC in Hx as [p Hp]. rewrite HrC. split.
    - intros [q Hq]. apply (is_walk_reverse g r p x Hwf) in Hp.
      exact (is_walk_trans g x _ r _ y Hp Hq).
    - intros [q Hq]. exact (is_walk_trans g r _ x _ y Hp Hq). }
  exists components. split; [done|]. split; [|split; [done|split; [done|split]]].
  - intros x. split.
    + intros Hx. apply Hvis, Hsub. right. by apply Hall.
    + intros (C & HC & Hx). destruct (Hcomp C HC) as (r & Hrn & HrC).
      destruct (proj1 (HrC x) Hx) as [q Hq].
      exact (is_walk_node g r q x Hwf Hrn Hq).
  - intros C D HC HD Hne. apply elem_of_disjoint. intros x HxC HxD.
    apply Hne, set_eq. intros y.
    by rewrite (Hsame C x HC HxC y), (Hsame D x HD HxD y).
  - intros C HC ->. destruct (Hcomp ∅ HC) as (r & _ & Hr0).
    assert (r ∈ (∅ : gset string)) as Hbad; [|set_solver].
    apply Hr0. exists [r]. apply walk_here.
Qed.

Lemma connected_components_partition_witness :
  let g := run_ops [OpAddEdge "Bread" "Milk" 5; OpAddEdge "Tea" "Sugar" 2;
                    OpAddNode "Salt"] in
  ∃ components,
    find_connected_components g (elements (nodes g)) = Done components
    ∧ length components = 3
    ∧ (∀ x, x ∈ nodes g ↔ ∃ C, C ∈ components ∧ x ∈ C)
    ∧ (∀ C x, C ∈ components → x ∈ C →
         ∀ y, y ∈ C ↔ ∃ q, is_walk g x q y)
    ∧ NoDup components
    ∧ (∀ C D, C ∈ components → D ∈ components → C ≠ D → C ## D)
    ∧ (∀ C, C ∈ components → C ≠ ∅).
Proof.
  intros g.
  destruct (connected_components_partition g (elements (nodes g)))
    as (components & Hr & Hrest); [by eexists|done|].
  exists components. split; [exact Hr|]. split; [|exact Hrest].
  assert (Done components
          = find_connected_components g (elements (nodes g))) as Heq
    by (symmetry; exact Hr).
  vm_compute in Heq. by injection Heq as ->.
Defined.

(** ** [transaction_loader.py]: building the graph *)

(** The pairs [(transaction[i], transaction[j])] for [i < j], in the order
    of the two nested loops. *)
Fixpoint item_pairs (transaction : list string) : list (string * string) :=
  match transaction with
  | [] => []
  | item1 :: rest =>
      ((λ item2, (item1, item2)) <$> rest) ++ item_pairs rest
  end.

(** [build_graph_from_transactions]; [g] is [self.graph] when the method is
    called (the empty graph for a fresh loader) and the result is
    [self.graph] afterwards, which the method also returns. *)
Definition build_graph_from_transactions (g : ProductGraph)
    (loaded : list (list string)) : ProductGraph :=
  if bool_decide (loaded = []) then g
  else
    foldl (λ g transaction,
             foldl (λ g '(item1, item2), add_edge g item1 item2 1%Z) g
                   (item_pairs transaction))
          g loaded.

(** How often an edge between [x] and [y] is touched by a list of
    [add_edge] calls: once for each orientation that matches. *)
Fixpoint edge_hits (x y : string) (pairs : list (string * string)) : nat :=
  match pairs with
  | [] => 0
  | (item1, item2) :: pairs' =>
      (if decide (x = item1 ∧ y = item2) then 1 else 0)
      + (if decide (x = item2 ∧ y = item1) then 1 else 0)
      + edge_hits x y pairs'
  end.

Lemma add_edge_weight g a b w x y :
  get_edge_weight (add_edge g a b w) x y
  = (get_edge_weight g x y
     + (if decide (x = a ∧ y = b) then w else 0)
     + (if decide (x = b ∧ y = a) then w else 0))%Z.
Proof.
  rewrite !get_edge_weight_lookup2, add_edge_lookup2. cbn zeta.
  rewrite !add_half_edge_lookup2, !add_node_lookup2.
  repeat case_decide; destruct_and?; simplify_eq;
    cbn [default from_option id]; try lia; exfalso; tauto.
Qed.

Lemma edge_hits_app x y ps1 ps2 :
  edge_hits x y (ps1 ++ ps2) = edge_hits x y ps1 + edge_hits x y ps2.
Proof.
  induction ps1 as [|[a b] ps1 IH]; cbn [app edge_hits]; [done|].
  rewrite IH. lia.
Qed.

Lemma add_edges_weight g pairs x y :
  get_edge_weight
    (foldl (λ g '(item1, item2), add_edge g item1 item2 1%Z) g pairs) x y
  = (get_edge_weight g x y + Z.of_nat (edge_hits x y pairs))%Z.
Proof.
  revert g. induction pairs as [|[a b] pairs IH]; intros g;
    cbn [foldl edge_hits]; [lia|].
  rewrite IH, add_edge_weight. repeat case_decide; lia.
Qed.

Lemma add_edges_nodes g pairs :
  nodes (foldl (λ g '(item1, item2), add_edge g item1 item2 1%Z) g pairs)
  = nodes g ∪ list_to_set pairs.*1 ∪ list_to_set pairs.*2.
Proof.
  revert g. induction pairs as [|[a b] pairs IH]; intros g;
    cbn [foldl fmap list_fmap list_to_set fst snd]; [set_solver|].
  rewrite IH, add_edge_nodes. set_solver.
Qed.

Lemma add_edges_reachable g pairs :
  reachable_graph g →
  reachable_graph
    (foldl (λ g '(item1, item2), add_edge g item1 item2 1%Z) g pairs).
Proof.
  revert g. induction pairs as [|[a b] pairs IH]; intros g Hg;
    cbn [foldl]; [done|].
  apply IH. destruct Hg as [ops ->]. exists (ops ++ [OpAddEdge a b 1%Z]).
  unfold run_ops. by rewrite foldl_app.
Qed.

Lemma build_graph_eq g loaded :
  build_graph_from_transactions g loaded
  = foldl (λ g '(item1, item2), add_edge g item1 item2 1%Z) g
          (loaded ≫= item_pairs).
Proof.
  unfold build_graph_from_transactions. case_bool_decide as Hl; [by subst|].
  clear Hl. revert g. induction loaded as [|t ts IH]; intros g; [done|].
  cbn [foldl]. by rewrite bind_cons, foldl_app, IH.
Qed.

Lemma elem_of_item_pairs t a b :
  (a, b) ∈ item_pairs t → a ∈ t ∧ b ∈ t ∧ 2 ≤ length t.
Proof.
  induction t as [|h t IH]; cbn [item_pairs]; [by intros ?%elem_of_nil|].
  intros [Hin|Hin]%elem_of_app.
  - apply list_elem_of_fmap in Hin as (c & [= -> ->] & Hc).
    split; [left|]. split; [by right|].
    destruct t; [by apply elem_of_nil in Hc|cbn; lia].
  - destruct (IH Hin) as (Ha & Hb & Hlen).
    split; [by right|]. split; [by right|]. cbn [length]. lia.
Qed.

Lemma item_pairs_covers t x :
  x ∈ t → 2 ≤ length t → x ∈ (item_pairs t).*1 ∨ x ∈ (item_pairs t).*2.
Proof.
  destruct t as [|h [|h2 t]]; cbn [length]; [lia|lia|]. intros Hx _.
  apply elem_of_cons in Hx as [->|Hx].
  - left. cbn. left.
  - right. cbn [item_pairs]. rewrite fmap_app, <-list_fmap_compose.
    apply elem_of_app. left. apply list_elem_of_fmap. by exists x.
Qed.

(** [build_graph_from_transactions] keeps the graph one that the public
    interface builds, and its nodes afterwards are the nodes before together
    with the items of the transactions that hold at least two items: an item
    that only occurs in one-item transactions does not become a node. *)
Theorem build_graph_nodes (g : ProductGraph) (loaded : list (list string)) :
  reachable_graph g →
  reachable_graph (build_graph_from_transactions g loaded)
  ∧ ∀ x, x ∈ nodes (build_graph_from_transactions g loaded)
         ↔ x ∈ nodes g ∨ ∃ t, t ∈ loaded ∧ x ∈ t ∧ 2 ≤ length t.
Proof.
  intros Hg. rewrite build_graph_eq. split; [by apply add_edges_reachable|].
  intros x. rewrite add_edges_nodes, !elem_of_union, !elem_of_list_to_set.
  split.
  - intros [[Hx|Hx]|Hx]; [by left| |]; right;
      apply list_elem_of_fmap in Hx as ([a b] & -> & Hp);
      apply list_elem_of_bind in Hp as (t & Hp & Ht);
      apply elem_of_item_pairs in Hp as (Ha & Hb & Hlen); by exists t.
  - intros [Hx|(t & Ht & Hx & Hlen)]; [by left; left|].
    destruct (item_pairs_covers t x Hx Hlen) as [Hp|Hp].
    + left. right. apply list_elem_of_fmap in Hp as (p & -> & Hp).
      apply list_elem_of_fmap. exists p. split; [done|].
      apply list_elem_of_bind. by exists t.
    + right. apply list_elem_of_fmap in Hp as (p & -> & Hp).
      apply list_elem_of_fmap. exists p. split; [done|].
      apply list_elem_of_bind. by exists t.
Qed.

Lemma build_graph_nodes_witness :
  let g := build_graph_from_transactions empty_graph
             [["Bread"; "Milk"]; ["Tea"]]%string in
  reachable_graph g
  ∧ ∀ x, x ∈ nodes g
         ↔ x ∈ nodes empty_graph
           ∨ ∃ t, t ∈ [["Bread"; "Milk"]; ["Tea"]]%string
                  ∧ x ∈ t ∧ 2 ≤ length t.
Proof.
  intros g. apply (build_graph_nodes empty_graph). by exists [].
Defined.

Lemma edge_hits_none x y pairs :
  (∀ a b, (a, b) ∈ pairs → ¬ (x = a ∧ y = b) ∧ ¬ (x = b ∧ y = a)) →
  edge_hits x y pairs = 0.
Proof.
  induction pairs as [|[a b] pairs IH]; intros Hno; cbn [edge_hits]; [done|].
  destruct (Hno a b) as [H1 H2]; [left|].
  rewrite !decide_False by done. rewrite IH; [done|].
  intros a' b' Hin. apply Hno. by right.
Qed.

Lemma edge_hits_head h x y rest :
  x ≠ y → NoDup rest →
  edge_hits x y ((λ item2, (h, item2)) <$> rest)
  = if decide ((h = x ∧ y ∈ rest) ∨ (h = y ∧ x ∈ rest)) then 1 else 0.
Proof.
  intros Hxy. induction rest as [|r rest IH]; intros Hnd;
    cbn [fmap list_fmap edge_hits].
  { rewrite decide_False; [done|]. intros [[_ H]|[_ H]];
      by apply elem_of_nil in H. }
  apply NoDup_cons in Hnd as [Hr Hnd]. rewrite IH by done.
  repeat case_decide; destruct_and?; destruct_or?; destruct_and?;
    simplify_eq; try done; exfalso;
    repeat match goal with
           | H : ¬ (_ ∨ _) |- _ => apply Decidable.not_or in H as [? ?]
           | H : _ ∈ _ :: _ |- _ => apply elem_of_cons in H as [?|?]
           end; simplify_eq; set_solver.
Qed.

Lemma edge_hits_transaction x y t :
  x ≠ y → NoDup t →
  edge_hits x y (item_pairs t) = if decide (x ∈ t ∧ y ∈ t) then 1 else 0.
Proof.
  intros Hxy. induction t as [|h t IH]; intros Hnd; cbn [item_pairs].
  { cbn. rewrite decide_False; [done|]. intros [H _].
    by apply elem_of_nil in H. }
  apply NoDup_cons in Hnd as [Hh Hnd].
  rewrite edge_hits_app, edge_hits_head, IH by done.
  repeat case_decide; destruct_and?; destruct_or?; destruct_and?;
    simplify_eq; try done; exfalso; set_solver.
Qed.

Lemma edge_hits_transactions x y ts :
  x ≠ y → Forall NoDup ts →
  edge_hits x y (ts ≫= item_pairs)
  = length (filter (λ t, x ∈ t ∧ y ∈ t) ts).
Proof.
  intros Hxy. induction 1 as [|t ts Ht Hts IH]; [done|].
  rewrite bind_cons, edge_hits_app, IH, edge_hits_transaction by done.
  rewrite filter_cons. by case_decide.
Qed.

(** Built from nothing out of transactions without repeated items, the
    graph gives two different items the number of transactions that hold
    both as their edge weight, in both directions. *)
Theorem build_graph_cooccurrence (loaded : list (list string))
    (x y : string) :
  Forall NoDup loaded → x ≠ y →
  get_edge_weight (build_graph_from_transactions empty_graph loaded) x y
  = Z.of_nat (length (filter (λ t, x ∈ t ∧ y ∈ t) loaded)).
Proof.
  intros Hnd Hxy. rewrite build_graph_eq, add_edges_weight.
  rewrite edge_hits_transactions by done. done.
Qed.

Lemma build_graph_cooccurrence_witness :
  let loaded := [["Bread"; "Milk"; "Eggs"]; ["Milk"; "Bread"]; ["Eggs"]]%string
  in
  get_edge_weight (build_graph_from_transactions empty_graph loaded)
    "Milk" "Bread" = 2%Z
  ∧ get_edge_weight (build_graph_from_transactions empty_graph loaded)
      "Milk" "Bread"
    = Z.of_nat (length (filter (λ t, "Milk"%string ∈ t ∧ "Bread"%string ∈ t)
                               loaded)).
Proof.
  intros loaded. split; [reflexivity|].
  apply (build_graph_cooccurrence loaded "Milk" "Bread"); [|done].
  unfold loaded. repeat constructor; set_solver.
Defined.

(** ** The graph and the miner count the same thing *)

Lemma sorted_pair_sublist (l : list string) a b :
  StronglySorted (λ x y, String.leb x y = true) l →
  a ∈ l → b ∈ l → a ≠ b → String.leb a b = true → [a; b] `sublist_of` l.
Proof.
  intros Hs Ha Hb Hne Hab.
  apply list_elem_of_split in Ha as (l1 & l2 & ->).
  apply elem_of_app in Hb as [Hb|Hb].
  - exfalso. apply Hne, String.leb_antisym; [done|].
    apply (StronglySorted_app_1_elem_of _ l1 (a :: l2) b a Hs); [done|left].
  - apply elem_of_cons in Hb as [->|Hb]; [done|].
    apply sublist_inserts_l, sublist_skip. by apply singleton_sublist_l.
Qed.

Lemma pair_keys_complete t a b :
  a ∈ t → b ∈ t → a ≠ b → String.leb a b = true → (a, b) ∈ pair_keys t.
Proof.
  intros Ha Hb Hne Hab. unfold pair_keys.
  assert ([a; b] `sublist_of` py_sorted t) as Hsub.
  { apply sorted_pair_sublist; [apply py_sorted_sorted| | |done|done];
      by rewrite py_sorted_perm. }
  rewrite bool_decide_eq_true_2.
  - apply list_elem_of_omap. exists [a; b]. split; [|done].
    by apply (combinations_sublist [a; b]) in Hsub.
  - apply sublist_length in Hsub. cbn [length] in Hsub.
    by rewrite (Permutation_length (py_sorted_perm t)) in Hsub.
Qed.

Lemma pair_keys_distinct t a b :
  NoDup t → (a, b) ∈ pair_keys t → a ≠ b.
Proof.
  intros Hnd. unfold pair_keys. case_bool_decide; [|by intros ?%elem_of_nil].
  intros (c & Hc & Hp)%list_elem_of_omap. apply pair_of_Some in Hp as ->.
  apply combinations_is_sublist in Hc.
  assert (NoDup [a; b]) as Hab.
  { eapply sublist_NoDup; [|exact Hc]. by rewrite py_sorted_perm. }
  apply NoDup_cons in Hab as [Hab _]. intros ->. apply Hab. left.
Qed.

Lemma pair_keys_count t a b :
  NoDup t → a ≠ b → String.leb a b = true →
  occurrences (a, b) (pair_keys t) = if decide (a ∈ t ∧ b ∈ t) then 1 else 0.
Proof.
  intros Hnd Hne Hab. pose proof (pair_keys_once t a b Hnd) as Hle.
  case_decide as Hin.
  - destruct Hin as [Ha Hb].
    pose proof (occurrences_pos _ _ (pair_keys_complete t a b Ha Hb Hne Hab)).
    lia.
  - destruct (decide (0 < occurrences (a, b) (pair_keys t))) as [Hpos|]; [|lia].
    by apply occurrences_elem, pair_keys_items in Hpos.
Qed.

Lemma pair_keys_count_all ts a b :
  Forall NoDup ts → a ≠ b → String.leb a b = true →
  occurrences (a, b) (ts ≫= pair_keys)
  = length (filter (λ t, a ∈ t ∧ b ∈ t) ts).
Proof.
  intros Hnd Hne Hab. induction Hnd as [|t ts Ht Hts IH]; [done|].
  rewrite bind_cons, occurrences_app, IH, pair_keys_count by done.
  rewrite filter_cons. by case_decide.
Qed.

(** For transactions without repeated items, the count that
    [find_frequent_pairs] reports for a pair is the weight of the edge
    between the two items in the graph that [build_graph_from_transactions]
    builds from the same transactions, and both are the number of
    transactions that hold both items. *)
Theorem frequent_pair_count_is_edge_weight (m : FrequentItemsetMiner)
    (a b : string) (count : nat) :
  Forall NoDup (transactions m) →
  ((a, b), count) ∈ find_frequent_pairs m →
  count = length (filter (λ t, a ∈ t ∧ b ∈ t) (transactions m))
  ∧ get_edge_weight
      (build_graph_from_transactions empty_graph (transactions m)) a b
    = Z.of_nat count
  ∧ get_edge_weight
      (build_graph_from_transactions empty_graph (transactions m)) b a
    = Z.of_nat count.
Proof.
  intros Hnd Hin. pose proof Hin as (t & Ht & Hab)%find_frequent_pairs_key.
  assert (NoDup t) as Hndt by (by eapply Forall_forall in Hnd).
  pose proof (pair_keys_distinct t a b Hndt Hab) as Hne.
  pose proof (pair_keys_ordered t a b Hab) as Hle.
  apply find_frequent_pairs_elem in Hin as [_ ->].
  rewrite pair_keys_count_all by done. split; [done|].
  rewrite !build_graph_eq, !add_edges_weight.
  change (get_edge_weight empty_graph a b) with 0%Z.
  change (get_edge_weight empty_graph b a) with 0%Z.
  rewrite (edge_hits_transactions a b) by done.
  rewrite (edge_hits_transactions b a) by done.
  rewrite !Z.add_0_l. split; [done|].
  do 2 f_equal. apply list_filter_iff. intros t'. tauto.
Qed.

(** With [min_support = 0.5], the float [4503599627370496 * 2^-53]. *)
Lemma frequent_pair_count_is_edge_weight_witness :
  ∃ m, new_miner [["Milk"; "Bread"; "Eggs"]; ["Bread"; "Milk"]; ["Eggs"]]%string
         (float_lit 4503599627370496 (-53)) = Ok m
  ∧ ∃ count,
    (("Bread", "Milk")%string, count) ∈ find_frequent_pairs m
    ∧ count = 2
    ∧ count = length (filter (λ t, "Bread"%string ∈ t ∧ "Milk"%string ∈ t)
                             (transactions m))
    ∧ get_edge_weight
        (build_graph_from_transactions empty_graph (transactions m))
        "Bread" "Milk"
      = Z.of_nat count
    ∧ get_edge_weight
        (build_graph_from_transactions empty_graph (transactions m))
        "Milk" "Bread"
      = Z.of_nat count.
Proof.
  set (m := miner_with_count
              [["Milk"; "Bread"; "Eggs"]; ["Bread"; "Milk"]; ["Eggs"]]%string
              (float_lit 4503599627370496 (-53)) 1).
  exists m. split; [vm_compute; reflexivity|]. exists 2.
  assert ((("Bread", "Milk")%string, 2) ∈ find_frequent_pairs m) as Hin.
  { vm_compute. left. }
  split; [exact Hin|]. split; [reflexivity|].
  apply (frequent_pair_count_is_edge_weight m "Bread" "Milk" 2); [|exact Hin].
  cbn. repeat constructor; set_solver.
Defined.
